(** * trains.utilities.check_updates: version parsing, ordering and the update check

    A shallow embedding of [src/trains/utilities/check_updates.py] under the
    semantics of Python 3 (the [six.PY3] branch, [from math import inf]).

    - Python [str] values are [string]; a character is a code point in 0..255.
      On these strings the pattern, [\s] and [str.lower()] are the ones of
      Python. Beyond them [re.IGNORECASE] also lets U+0130 and U+0131 stand
      for [i], U+017F for [s] and U+212A for [k]; such strings are not
      values of [string], and a property that would not hold of them is
      stated for ASCII strings ([is_ascii]).
    - Python [int] values that the module builds all come from [int()] applied
      to a run of ASCII digits, so they are carried as [N]; [int] and [str]
      are the unbounded conversions. An interpreter that limits the digits
      of [int()] (4300 by default since CPython 3.11) raises [ValueError]
      beyond the limit; a property that says that the constructor returns
      is stated for strings within the limit ([int_max_str_digits]).
    - the float sentinels [inf] and [-inf] are two constructors of [rank].
    - raising is modelled by the [result] type; [try/except Exception] by a
      match on it.
    - [VERSION_PATTERN] is kept as a pattern, run by a backtracking matcher
      that tries alternatives in the order of [re] and records the named
      groups; the unnamed group inside [pre_l] is never read and is not
      recorded.
    - the class attribute [_package_version_checked] is threaded through
      [check_new_package_available]; the statistics thread has no effect on
      the result and is left out.

    The file has the definitions first ([Version] and its methods, the
    update check and its caller in [backend_interface/task/task.py], then
    the notions the properties are stated with), then the properties: the
    evaluations on concrete versions, the matcher against the language of
    the pattern, and the round trip through the canonical string; then the
    further properties of the module: what the constructor accepts and
    returns, the comparison operators, the sort and the update check. *)

From Stdlib Require Import Bool Arith NArith Lia List Ascii String.
From Stdlib Require Import Decimal DecimalString DecimalN DecimalPos.
From Stdlib Require Import Sorting.Permutation Sorting.Sorted.
Import ListNotations.

Local Open Scope list_scope.
Local Open Scope string_scope.

(** ** Exceptions and the error monad *)

Inductive exn : Type :=
| InvalidVersion (message : string)  (* class InvalidVersion(ValueError) *)
| ValueError                          (* int('') *)
| IndexError                          (* tuple index out of range *)
| TypeError                           (* '<' between str and float/int *)
| AttributeError                      (* a method of None *)
| RequestError.                       (* anything the HTTP request or JSON decoding raises *)

Inductive result (A : Type) : Type :=
| Ok (a : A)
| Raise (e : exn).
Arguments Ok {A} a.
Arguments Raise {A} e.

Definition bind {A B} (x : result A) (f : A -> result B) : result B :=
  match x with
  | Ok a => f a
  | Raise e => Raise e
  end.

Notation "'do' x <- e1 ; e2" := (bind e1 (fun x => e2))
  (at level 10, x name, e1 at level 100, e2 at level 200).

Fixpoint mapM {A B} (f : A -> result B) (l : list A) : result (list B) :=
  match l with
  | [] => Ok []
  | x :: xs => do y <- f x; do ys <- mapM f xs; Ok (y :: ys)
  end.

(** ** Characters *)

Definition code (a : ascii) : N := N_of_ascii a.

Definition is_digit (a : ascii) : bool := (48 <=? code a)%N && (code a <=? 57)%N.
Definition is_upper (a : ascii) : bool := (65 <=? code a)%N && (code a <=? 90)%N.
Definition is_lower (a : ascii) : bool := (97 <=? code a)%N && (code a <=? 122)%N.

(** the capital letters of U+00C0..U+00DE; U+00D7 is the multiplication sign *)
Definition is_upper_latin1 (a : ascii) : bool :=
  (192 <=? code a)%N && (code a <=? 222)%N && negb (code a =? 215)%N.

(** [str.lower()] on one character of the code points 0..255 *)
Definition lower_char (a : ascii) : ascii :=
  if is_upper a || is_upper_latin1 a then ascii_of_N (code a + 32) else a.

Definition is_ascii (a : ascii) : bool := (code a <? 128)%N.

Fixpoint lower (s : string) : string :=
  match s with
  | EmptyString => EmptyString
  | String a s' => String (lower_char a) (lower s')
  end.

Fixpoint all_chars (p : ascii -> bool) (s : string) : bool :=
  match s with
  | EmptyString => true
  | String a s' => p a && all_chars p s'
  end.

Definition starts_with (p : ascii -> bool) (s : string) : bool :=
  match s with
  | String a _ => p a
  | EmptyString => false
  end.

(** [str.isdigit()]: non-empty and every character a digit. *)
Definition isdigit (s : string) : bool :=
  match s with
  | EmptyString => false
  | _ => all_chars is_digit s
  end.

(** [\s] of a Python 3 str pattern, on the code points 0..255. *)
Definition is_space (a : ascii) : bool :=
  let n := code a in
  ((9 <=? n) && (n <=? 13) || (28 <=? n) && (n <=? 32) || (n =? 133) || (n =? 160))%N.

(** [[-_\.]] *)
Definition is_sep (a : ascii) : bool :=
  let n := code a in ((n =? 45) || (n =? 95) || (n =? 46))%N.

(** [[a-z0-9]] under [re.IGNORECASE], on the code points 0..255 *)
Definition is_alnum (a : ascii) : bool := is_lower a || is_upper a || is_digit a.

(** a literal character [c] of the pattern (an ASCII letter or sign) under
    [re.IGNORECASE], on the code points 0..255 *)
Definition ci (c a : ascii) : bool := Ascii.eqb (lower_char a) (lower_char c).

(** ** Regular expressions and the backtracking matcher

    The fragment of [re] that [VERSION_PATTERN] uses: character sets,
    sequencing, ordered alternation, greedy [?], [*] and [+], named groups.
    The matcher explores alternatives in the priority order of [re]: the
    first complete match wins and fixes the groups. *)

Inductive regex : Type :=
| Eps
| Chr (p : ascii -> bool)
| Seq (r1 r2 : regex)
| Alt (r1 r2 : regex)
| Star (r : regex)
| Group (name : string) (r : regex).

Definition Opt (r : regex) : regex := Alt r Eps.
Definition Plus (r : regex) : regex := Seq r (Star r).

Fixpoint Lit (s : string) : regex :=
  match s with
  | EmptyString => Eps
  | String a s' => Seq (Chr (ci a)) (Lit s')
  end.

Fixpoint alts (l : list string) : regex :=
  match l with
  | [] => Chr (fun _ => false)
  | [s] => Lit s
  | s :: l' => Alt (Lit s) (alts l')
  end.

Declare Scope regex_scope.
Delimit Scope regex_scope with re.
Bind Scope regex_scope with regex.
Infix ">>" := Seq (at level 61, right associativity) : regex_scope.

(** the groups that took part in the match, most recent first *)
Definition captures : Type := list (string * string).

Fixpoint group (name : string) (c : captures) : option string :=
  match c with
  | [] => None
  | (g, v) :: c' => if String.eqb g name then Some v else group name c'
  end.

Definition cont : Type := string -> captures -> option captures.

(** the text consumed between the suffix [s] and its own suffix [s'] *)
Definition consumed (s s' : string) : string :=
  substring 0 (String.length s - String.length s') s.

Definition orelse {A} (x y : option A) : option A :=
  match x with
  | Some a => Some a
  | None => y
  end.

(** greedy iteration: one more round of [step] first, the continuation
    otherwise; a round that consumes nothing ends the iteration. *)
Fixpoint star_loop (step : string -> captures -> cont -> option captures)
         (n : nat) (s : string) (c : captures) (k : cont) : option captures :=
  match n with
  | O => k s c
  | S n' =>
      orelse
        (step s c (fun s' c' =>
           if Nat.ltb (String.length s') (String.length s)
           then star_loop step n' s' c' k else None))
        (k s c)
  end.

Fixpoint rmatch (r : regex) (s : string) (c : captures) (k : cont)
  : option captures :=
  match r with
  | Eps => k s c
  | Chr p =>
      match s with
      | String a s' => if p a then k s' c else None
      | EmptyString => None
      end
  | Seq r1 r2 => rmatch r1 s c (fun s' c' => rmatch r2 s' c' k)
  | Alt r1 r2 => orelse (rmatch r1 s c k) (rmatch r2 s c k)
  | Star r1 => star_loop (rmatch r1) (String.length s) s c k
  | Group name r1 =>
      rmatch r1 s c (fun s' c' => k s' ((name, consumed s s') :: c'))
  end.

(** ** [Version.VERSION_PATTERN] and [Version._regex] *)

Definition sep : regex := Chr is_sep.
Definition digits : regex := Plus (Chr is_digit).
Definition alnums : regex := Plus (Chr is_alnum).
Definition spaces : regex := Star (Chr is_space).

Definition epoch_re : regex := (Group "epoch" digits >> Lit "!")%re.

Definition release_re : regex :=
  Group "release" (digits >> Star (Lit "." >> digits))%re.

Definition pre_re : regex :=
  Group "pre"
    (Opt sep
     >> Group "pre_l" (alts ["a"; "b"; "c"; "rc"; "alpha"; "beta"; "pre"; "preview"])
     >> Opt sep
     >> Opt (Group "pre_n" digits))%re.

Definition post_re : regex :=
  Group "post"
    (Alt (Lit "-" >> Group "post_n1" digits)
         (Opt sep
          >> Group "post_l" (alts ["post"; "rev"; "r"])
          >> Opt sep
          >> Opt (Group "post_n2" digits)))%re.

Definition dev_re : regex :=
  Group "dev"
    (Opt sep >> Group "dev_l" (Lit "dev") >> Opt sep >> Opt (Group "dev_n" digits))%re.

Definition local_re : regex :=
  (Lit "+" >> Group "local" (alnums >> Star (sep >> alnums)))%re.

Definition VERSION_PATTERN : regex :=
  (Opt (Lit "v")
   >> (Opt epoch_re >> release_re >> Opt pre_re >> Opt post_re >> Opt dev_re)
   >> Opt local_re)%re.

(** [r"^\s*" + VERSION_PATTERN + r"\s*$"] without the two anchors *)
Definition _regex : regex := (spaces >> VERSION_PATTERN >> spaces)%re.

(** [$]: the end of the string, or just before a newline that ends it *)
Definition at_end (s : string) : bool :=
  match s with
  | EmptyString => true
  | String a EmptyString => (code a =? 10)%N
  | _ => false
  end.

(** [_regex.search(version)]: [^] only holds at offset 0, so the search
    succeeds exactly when the match anchored there does. *)
Definition _regex_search (version : string) : option captures :=
  rmatch _regex version [] (fun s c => if at_end s then Some c else None).

(** ** The language of a pattern

    [Matches r s c c']: the pattern [r] matches the whole of [s] and takes
    the groups from [c] to [c']. This is the reading of a pattern as a
    grammar, with no order among the alternatives. *)
Inductive Matches : regex -> string -> captures -> captures -> Prop :=
| M_Eps c : Matches Eps "" c c
| M_Chr p a c : p a = true -> Matches (Chr p) (String a "") c c
| M_Seq r1 r2 s1 s2 c c1 c2 :
    Matches r1 s1 c c1 -> Matches r2 s2 c1 c2 -> Matches (Seq r1 r2) (s1 ++ s2) c c2
| M_AltL r1 r2 s c c' : Matches r1 s c c' -> Matches (Alt r1 r2) s c c'
| M_AltR r1 r2 s c c' : Matches r2 s c c' -> Matches (Alt r1 r2) s c c'
| M_StarNil r c : Matches (Star r) "" c c
| M_StarCons r s1 s2 c c1 c2 :
    s1 <> "" -> Matches r s1 c c1 -> Matches (Star r) s2 c1 c2 ->
    Matches (Star r) (s1 ++ s2) c c2
| M_Group name r s c c' :
    Matches r s c c' -> Matches (Group name r) s c ((name, s) :: c').

(** [raw] is a sentence of the grammar of [_regex]: the pattern matches up
    to the end of the string (or up to a final newline). *)
Definition in_grammar (raw : string) : Prop :=
  exists body tail c,
    raw = body ++ tail /\ Matches _regex body [] c /\ at_end tail = true.

(** ** Built-ins used by [Version] *)

(** the default of [sys.int_max_str_digits] since CPython 3.11 *)
Definition int_max_str_digits : nat := 4300.

(** [int(s)]: the module only ever applies it to a run of ASCII digits or to
    the empty string, on which it raises [ValueError]. The limit on the
    number of digits is not part of it. *)
Definition int (s : string) : result N :=
  match NilZero.uint_of_string s with
  | Some d => Ok (N.of_uint d)
  | None => Raise ValueError
  end.

(** [str(n)] of an [int] *)
Definition str_int (n : N) : string := NilZero.string_of_uint (N.to_uint n).

(** [s.split(".")] and [re.split] on a one-character set: a field between
    every two separators, empty fields kept. *)
Fixpoint split_on (p : ascii -> bool) (s : string) : list string :=
  match s with
  | EmptyString => [""]
  | String a s' =>
      if p a then "" :: split_on p s'
      else match split_on p s' with
           | x :: xs => String a x :: xs
           | [] => [String a ""]
           end
  end.

Definition is_dot (a : ascii) : bool := (code a =? 46)%N.

(** truth value of an optional string: [None] and [''] are false *)
Definition truthy (o : option string) : bool :=
  match o with
  | Some s => negb (s =? "")
  | None => false
  end.

(** [x or ''] *)
Definition or_empty (o : option string) : string :=
  match o with
  | Some s => s
  | None => ""
  end.

(** [x or y] where [y] is a string *)
Definition or_else (o : option string) (y : string) : string :=
  if truthy o then or_empty o else y.

Fixpoint mem (x : string) (l : list string) : bool :=
  match l with
  | [] => false
  | y :: l' => (x =? y) || mem x l'
  end.

(** ** The [_Version] named tuple and the sort key *)

Inductive local_part : Type :=
| LStr (s : string)
| LInt (n : N).

Record _Version : Type := Build_Version_tuple {
  epoch : N;
  release : list N;
  dev : option (string * N);
  pre : option (string * N);
  post : option (string * N);
  local : option (list local_part)
}.

(** a component of the key: an [int], [inf], [-inf] or a [str] *)
Inductive rank : Type :=
| RInt (n : N)
| RInf
| RNegInf
| RStr (s : string).

(** the 6-tuple that [_cmpkey] returns *)
Record Key : Type := Build_Key {
  key_epoch : N;
  key_release : list N;
  key_pre : rank;
  key_post : rank;
  key_dev : rank;
  key_local : rank
}.

Record Version : Type := Build_Version {
  _version : _Version;
  _key : Key
}.

(** ** [Version._parse_letter_version] *)

Definition normalize_letter (letter : string) : string :=
  let letter := lower letter in
  if letter =? "alpha" then "a"
  else if letter =? "beta" then "b"
  else if mem letter ["c"; "pre"; "preview"] then "rc"
  else if mem letter ["rev"; "r"] then "post"
  else letter.

Definition _parse_letter_version (letter number : option string)
  : result (option (string * N)) :=
  if negb (truthy letter) && negb (truthy number) then Ok None
  else if truthy letter then
    (* an absent number is an implicit 0; any string goes through int() *)
    do n <- match number with
            | None => Ok 0%N
            | Some s => int s
            end;
    Ok (Some (normalize_letter (or_empty letter), n))
  else
    (* a number without a letter: the implicit post release syntax *)
    do n <- int (or_empty number);
    Ok (Some ("post", n)).

(** ** [Version._parse_local_version] *)

Definition local_part_of (part : string) : result local_part :=
  if negb (isdigit part) then Ok (LStr (lower part))
  else do n <- int part; Ok (LInt n).

Definition part_truthy (p : local_part) : bool :=
  match p with
  | LStr s => negb (s =? "")
  | LInt n => negb (n =? 0)%N
  end.

Definition _parse_local_version (local : option string)
  : result (option (list local_part)) :=
  match local with
  | Some l =>
      do parts <- mapM local_part_of (split_on is_sep l);
      match parts with
      | [] => Ok None
      | p :: _ => if negb (part_truthy p) then Ok None else Ok (Some parts)
      end
  | None => Ok None
  end.

(** ** [Version._cmpkey] *)

Definition rank_of_part (p : local_part) : rank :=
  match p with
  | LStr s => RStr s
  | LInt n => RInt n
  end.

Definition _cmpkey (epoch : N) (release : list N)
           (pre post dev : option (string * N))
           (local : option (list local_part)) : result Key :=
  let pre := match pre with
             | None => RInf
             | Some p => RInt (snd p)
             end in
  let post := match post with
              | None => RNegInf
              | Some p => RInt (snd p)
              end in
  let dev := match dev with
             | None => RInf
             | Some p => RInt (snd p)
             end in
  do local <- match local with
              | None | Some [] => Ok RInf
              | Some l =>
                  (* local = local[1] *)
                  match nth_error l 1 with
                  | Some p => Ok (rank_of_part p)
                  | None => Raise IndexError
                  end
              end;
  Ok (Build_Key epoch release pre post dev local).

(** ** [Version.__init__] *)

Definition __init__ (version : string) : result Version :=
  match _regex_search version with
  | None => Raise (InvalidVersion ("Invalid version: '" ++ version ++ "'"))
  | Some m =>
      do epoch <- (if truthy (group "epoch" m)
                   then int (or_empty (group "epoch" m)) else Ok 0%N);
      do release <- match group "release" m with
                    | Some r => mapM int (split_on is_dot r)
                    | None => Raise AttributeError
                    end;
      do pre <- _parse_letter_version (group "pre_l" m) (group "pre_n" m);
      do post <- _parse_letter_version
                   (Some (or_empty (group "post_l" m)))
                   (Some (or_else (group "post_n1" m) (or_empty (group "post_n2" m))));
      do dev <- _parse_letter_version
                  (Some (or_empty (group "dev_l" m)))
                  (Some (or_empty (group "dev_n" m)));
      do local <- _parse_local_version (Some (or_empty (group "local" m)));
      let v := Build_Version_tuple epoch release dev pre post local in
      do key <- _cmpkey epoch release pre post dev local;
      Ok (Build_Version v key)
  end.

(** ** Properties of [Version] and [Version.__str__] *)

Definition Version_epoch (self : Version) : N := epoch (_version self).
Definition Version_release (self : Version) : list N := release (_version self).
Definition Version_pre (self : Version) : option (string * N) := pre (_version self).

Definition Version_post (self : Version) : option N :=
  match post (_version self) with
  | Some p => Some (snd p)
  | None => None
  end.

Definition Version_dev (self : Version) : option N :=
  match dev (_version self) with
  | Some p => Some (snd p)
  | None => None
  end.

Definition str_part (p : local_part) : string :=
  match p with
  | LStr s => s
  | LInt n => str_int n
  end.

Definition Version_local (self : Version) : option string :=
  match local (_version self) with
  | None | Some [] => None
  | Some l => Some (String.concat "." (map str_part l))
  end.

Definition __str__ (self : Version) : string :=
  (if negb (Version_epoch self =? 0)%N
   then str_int (Version_epoch self) ++ "!" else "")
  ++ String.concat "." (map str_int (Version_release self))
  ++ match Version_pre self with
     | Some (l, n) => l ++ str_int n
     | None => ""
     end
  ++ match Version_post self with
     | Some n => ".post" ++ str_int n
     | None => ""
     end
  ++ match Version_dev self with
     | Some n => ".dev" ++ str_int n
     | None => ""
     end
  ++ match Version_local self with
     | Some l => "+" ++ l
     | None => ""
     end.

Definition is_some {A} (o : option A) : bool :=
  match o with
  | Some _ => true
  | None => false
  end.

Definition is_prerelease (self : Version) : bool :=
  is_some (Version_dev self) || is_some (Version_pre self).

Definition is_postrelease (self : Version) : bool := is_some (Version_post self).

Definition is_devrelease (self : Version) : bool := is_some (Version_dev self).

(** [s.split(sep, 1)]: at most one split, at the first separator *)
Fixpoint split_once (p : ascii -> bool) (s : string) : list string :=
  match s with
  | EmptyString => [""]
  | String a s' =>
      if p a then [""; s']
      else match split_once p s' with
           | x :: xs => String a x :: xs
           | [] => [String a ""]
           end
  end.

Definition is_plus (a : ascii) : bool := (code a =? 43)%N.

(** [Version.public]: [str(self).split("+", 1)[0]] *)
Definition public (self : Version) : string :=
  hd "" (split_once is_plus (__str__ self)).

(** [Version.base_version] *)
Definition base_version (self : Version) : string :=
  (if negb (Version_epoch self =? 0)%N
   then str_int (Version_epoch self) ++ "!" else "")
  ++ String.concat "." (map str_int (Version_release self)).

(** ** [_BaseVersion]: comparison and hashing through the key

    Python compares two tuples at the first index where the elements are not
    [==]; if there is none, the lengths decide. [==] between a [str] and a
    number is [False]; an ordering between them raises [TypeError]. *)

Inductive cmpop : Type := Py_LT | Py_LE | Py_EQ | Py_GE | Py_GT | Py_NE.

Definition cmp_result (op : cmpop) (c : comparison) : bool :=
  match op, c with
  | Py_LT, Lt | Py_LE, Lt | Py_LE, Eq | Py_EQ, Eq
  | Py_GE, Eq | Py_GE, Gt | Py_GT, Gt | Py_NE, Lt | Py_NE, Gt => true
  | _, _ => false
  end.

(** comparison of two tuples of ints *)
Fixpoint tuple_compare (a b : list N) : comparison :=
  match a, b with
  | [], [] => Eq
  | [], _ :: _ => Lt
  | _ :: _, [] => Gt
  | x :: a', y :: b' =>
      match (x ?= y)%N with
      | Eq => tuple_compare a' b'
      | c => c
      end
  end.

Definition rank_eq (a b : rank) : bool :=
  match a, b with
  | RInt x, RInt y => (x =? y)%N
  | RInf, RInf => true
  | RNegInf, RNegInf => true
  | RStr s, RStr t => (s =? t)
  | _, _ => false
  end.

Definition rank_compare (a b : rank) : result comparison :=
  match a, b with
  | RInt x, RInt y => Ok (x ?= y)%N
  | RInt _, RInf => Ok Lt
  | RInt _, RNegInf => Ok Gt
  | RInf, RInt _ => Ok Gt
  | RInf, RInf => Ok Eq
  | RInf, RNegInf => Ok Gt
  | RNegInf, RInt _ => Ok Lt
  | RNegInf, RInf => Ok Lt
  | RNegInf, RNegInf => Ok Eq
  | RStr s, RStr t => Ok (String.compare s t)
  | RStr _, _ | _, RStr _ => Raise TypeError
  end.

(** the element comparison that a tuple comparison ends in *)
Definition rank_richcmp (op : cmpop) (a b : rank) : result bool :=
  match op with
  | Py_EQ => Ok false
  | Py_NE => Ok true
  | _ => do c <- rank_compare a b; Ok (cmp_result op c)
  end.

Definition key_richcmp (op : cmpop) (s o : Key) : result bool :=
  if negb (key_epoch s =? key_epoch o)%N
  then Ok (cmp_result op (key_epoch s ?= key_epoch o)%N)
  else if negb (match tuple_compare (key_release s) (key_release o) with
                | Eq => true
                | _ => false
                end)
  then Ok (cmp_result op (tuple_compare (key_release s) (key_release o)))
  else if negb (rank_eq (key_pre s) (key_pre o))
  then rank_richcmp op (key_pre s) (key_pre o)
  else if negb (rank_eq (key_post s) (key_post o))
  then rank_richcmp op (key_post s) (key_post o)
  else if negb (rank_eq (key_dev s) (key_dev o))
  then rank_richcmp op (key_dev s) (key_dev o)
  else if negb (rank_eq (key_local s) (key_local o))
  then rank_richcmp op (key_local s) (key_local o)
  else Ok (cmp_result op Eq).

(** [other] is a [Version] by its type, so the [isinstance] test holds *)
Definition _compare (self other : Version) (method : Key -> Key -> result bool)
  : result bool :=
  method (_key self) (_key other).

Definition __lt__ (self other : Version) := _compare self other (key_richcmp Py_LT).
Definition __le__ (self other : Version) := _compare self other (key_richcmp Py_LE).
Definition __eq__ (self other : Version) := _compare self other (key_richcmp Py_EQ).
Definition __ge__ (self other : Version) := _compare self other (key_richcmp Py_GE).
Definition __gt__ (self other : Version) := _compare self other (key_richcmp Py_GT).
Definition __ne__ (self other : Version) := _compare self other (key_richcmp Py_NE).

(** [hash(self._key)], for any hash function on keys *)
Definition __hash__ {H : Type} (hash : Key -> H) (self : Version) : H :=
  hash (_key self).

(** ** [CheckPackageUpdates.check_new_package_available] *)

(** [sorted]: stable, driven by [<] alone; an exception raised by a
    comparison propagates. *)
Fixpoint insert_sorted (x : Version) (l : list Version) : result (list Version) :=
  match l with
  | [] => Ok [x]
  | y :: l' =>
      do b <- __lt__ x y;
      if b then Ok (x :: y :: l')
      else do r <- insert_sorted x l'; Ok (y :: r)
  end.

Fixpoint sorted_from (acc l : list Version) : result (list Version) :=
  match l with
  | [] => Ok acc
  | x :: l' => do acc' <- insert_sorted x acc; sorted_from acc' l'
  end.

Definition sorted (l : list Version) : result (list Version) := sorted_from [] l.

(** [l[-1]] *)
Definition last_item (l : list Version) : result Version :=
  match List.rev l with
  | x :: _ => Ok x
  | [] => Raise IndexError
  end.

Definition tuple_eqb (a b : list N) : bool :=
  match tuple_compare a b with
  | Eq => true
  | _ => false
  end.

(** the body of the [try] block; [response] is what
    [requests.get(...).json()['releases'].keys()] produced and
    [__version__] the string imported from the package's [version] module *)
Definition check_body (response : result (list string)) (__version__ : string)
  : result (option (string * bool)) :=
  do releases <- response;
  do releases <- mapM __init__ releases;
  do latest_version <- sorted releases;
  do cur_version <- __init__ __version__;
  let latest_version :=
    if negb (is_devrelease cur_version) && negb (is_prerelease cur_version)
    then filter (fun r => negb (is_devrelease r) && negb (is_prerelease r)) latest_version
    else latest_version in
  do latest <- last_item latest_version;
  do ge <- __ge__ cur_version latest;
  if ge then Ok None
  else
    let not_patch_upgrade :=
      negb (tuple_eqb (firstn 2 (Version_release latest))
                      (firstn 2 (Version_release cur_version))) in
    Ok (Some (__str__ latest, not_patch_upgrade)).

(** the class method; the class attribute [_package_version_checked] is
    passed in and returned *)
Definition check_new_package_available
           (only_once : bool) (_package_version_checked : bool)
           (response : result (list string)) (__version__ : string)
  : option (string * bool) * bool :=
  if only_once && _package_version_checked then (None, _package_version_checked)
  else
    match check_body response __version__ with
    | Ok r => (r, true)
    | Raise _ => (None, true)
    end.

(** ** [Task._update_repository.check_package_update]

    The caller of the check in [backend_interface/task/task.py]: the text
    that it hands to the console of the logger, if any, and the class
    attribute after the call. *)
Definition check_package_update
           (_package_version_checked : bool)
           (response : result (list string)) (__version__ : string)
  : option string * bool :=
  let (latest_version, checked) :=
    check_new_package_available true _package_version_checked response __version__ in
  (match latest_version with
   | Some (version, not_patch_upgrade) =>
       if negb not_patch_upgrade
       then Some ("TRAINS new package available: UPGRADE to v" ++ version
                  ++ " is recommended!")
       else Some ("TRAINS-SERVER new version available: upgrade to v" ++ version
                  ++ " is recommended!")
   | None => None
   end, checked).

(** ** Notions used to state the properties *)

(** [parsed raw v]: [Version(raw)] returns [v] *)
Definition parsed (raw : string) (v : Version) : Prop := __init__ raw = Ok v.

Definition parseable (raw : string) : bool :=
  match __init__ raw with
  | Ok _ => true
  | Raise _ => false
  end.

(** comparison of two release sequences with the missing trailing elements
    of the shorter one read as 0 (the reading of the specification) *)
Fixpoint padded_compare (a b : list N) : comparison :=
  match a, b with
  | [], _ => if forallb (N.eqb 0) b then Eq else Lt
  | _, [] => if forallb (N.eqb 0) a then Eq else Gt
  | x :: a', y :: b' =>
      match (x ?= y)%N with
      | Eq => padded_compare a' b'
      | c => c
      end
  end.

(** the order that the comparator puts on two release sequences, in terms of
    the zero-padded reading: the same where that reading finds a difference,
    the shorter sequence first where it finds none *)
Definition release_order (a b : list N) : comparison :=
  match padded_compare a b with
  | Eq => Nat.compare (List.length a) (List.length b)
  | c => c
  end.

(** the group [g] took part in the match *)
Definition has (g : string) (c : captures) : bool := is_some (group g c).

(** the groups that a match of [r] may set: [captured r g v] when [r] has a
    group named [g] whose pattern matches [v] *)
Fixpoint captured (r : regex) (g v : string) : Prop :=
  match r with
  | Eps | Chr _ => False
  | Seq r1 r2 | Alt r1 r2 => captured r1 g v \/ captured r2 g v
  | Star r1 => captured r1 g v
  | Group name r1 =>
      (name = g /\ exists c c', Matches r1 v c c') \/ captured r1 g v
  end.

(** every match of [r] sets the group [h] *)
Fixpoint sets (h : string) (r : regex) : bool :=
  match r with
  | Eps | Chr _ | Star _ => false
  | Seq r1 r2 => sets h r1 || sets h r2
  | Alt r1 r2 => sets h r1 && sets h r2
  | Group name r1 => (name =? h) || sets h r1
  end.

(** wherever [r] sets the group [g], the group [h] has been set before;
    [seen] tells whether [h] is set on entry *)
Fixpoint guarded (g h : string) (seen : bool) (r : regex) : bool :=
  match r with
  | Eps | Chr _ => true
  | Seq r1 r2 => guarded g h seen r1 && guarded g h (seen || sets h r1) r2
  | Alt r1 r2 => guarded g h seen r1 && guarded g h seen r2
  | Star r1 => guarded g h seen r1
  | Group name r1 =>
      guarded g h seen r1 && (negb (name =? g) || seen || sets h r1)
  end.

(** the segments of the canonical string *)
Definition seg_epoch (e : N) : string :=
  if negb (e =? 0)%N then str_int e ++ "!" else "".

Definition seg_release (r : list N) : string := String.concat "." (map str_int r).

Definition seg_pre (p : option (string * N)) : string :=
  match p with
  | Some (l, n) => l ++ str_int n
  | None => ""
  end.

Definition seg_post (p : option (string * N)) : string :=
  match p with
  | Some p => ".post" ++ str_int (snd p)
  | None => ""
  end.

Definition seg_dev (p : option (string * N)) : string :=
  match p with
  | Some p => ".dev" ++ str_int (snd p)
  | None => ""
  end.

Definition seg_local (l : option (list local_part)) : string :=
  match l with
  | None | Some [] => ""
  | Some l => "+" ++ String.concat "." (map str_part l)
  end.

(** the groups of the match of a canonical string *)
Definition caps_epoch (e : N) : captures :=
  if negb (e =? 0)%N then [("epoch", str_int e)] else [].

Definition caps_pre (p : option (string * N)) : captures :=
  match p with
  | Some (l, n) => [("pre", l ++ str_int n); ("pre_n", str_int n); ("pre_l", l)]
  | None => []
  end.

Definition caps_post (p : option (string * N)) : captures :=
  match p with
  | Some p => [("post", ".post" ++ str_int (snd p)); ("post_n2", str_int (snd p));
               ("post_l", "post")]
  | None => []
  end.

Definition caps_dev (p : option (string * N)) : captures :=
  match p with
  | Some p => [("dev", ".dev" ++ str_int (snd p)); ("dev_n", str_int (snd p));
               ("dev_l", "dev")]
  | None => []
  end.

Definition caps_local (l : option (list local_part)) : captures :=
  match l with
  | None | Some [] => []
  | Some l => [("local", String.concat "." (map str_part l))]
  end.

(** the continuations of the matcher after each part of [_regex] *)
Definition k_end : cont := fun s c => if at_end s then Some c else None.
Definition k_local : cont :=
  fun s c => rmatch (Opt local_re) s c (fun s' c' => rmatch spaces s' c' k_end).
Definition k_dev : cont := fun s c => rmatch (Opt dev_re) s c k_local.
Definition k_post : cont := fun s c => rmatch (Opt post_re) s c k_dev.
Definition k_pre : cont := fun s c => rmatch (Opt pre_re) s c k_post.
Definition k_release : cont := fun s c => rmatch release_re s c k_pre.
Definition k_epoch : cont := fun s c => rmatch (Opt epoch_re) s c k_release.

(** a field of a dotted sequence: a non-empty run over the set [p] *)
Definition field_ok (p : ascii -> bool) (f : string) : Prop :=
  f <> "" /\ all_chars p f = true.

Fixpoint dotted (l : list string) : string :=
  match l with
  | [] => ""
  | f :: l' => "." ++ f ++ dotted l'
  end.

(** a part of a local segment as the parser builds it *)
Definition part_ok (p : local_part) : Prop :=
  match p with
  | LInt _ => True
  | LStr s => field_ok is_alnum s /\ isdigit s = false /\ lower s = s
  end.

(** the parts of a local segment, and the tag of a pre-release, as the
    parser builds them *)
Definition local_wf (loc : option (list local_part)) : Prop :=
  match loc with Some l => Forall part_ok l | None => True end.

Definition pre_wf (p : option (string * N)) : Prop :=
  match p with Some (l, _) => l = "a" \/ l = "b" \/ l = "rc" | None => True end.

(** what follows the release in a canonical string *)
Definition after_release p po d loc : string :=
  seg_pre p ++ seg_post po ++ seg_dev d ++ seg_local loc.

(** the segments and the key of a version as the parser builds them *)
Record well_formed (v : Version) : Prop := {
  wf_pre : match pre (_version v) with
           | Some (l, _) => l = "a" \/ l = "b" \/ l = "rc"
           | None => True
           end;
  wf_post : match post (_version v) with
            | Some (l, _) => l = "post"
            | None => True
            end;
  wf_dev : match dev (_version v) with
           | Some (l, _) => l = "dev"
           | None => True
           end;
  wf_release : release (_version v) <> [];
  wf_local : match local (_version v) with
             | Some l => Forall part_ok l /\
                         exists p l', l = p :: l' /\ part_truthy p = true
             | None => True
             end;
  wf_key : _cmpkey (epoch (_version v)) (release (_version v)) (pre (_version v))
                   (post (_version v)) (dev (_version v)) (local (_version v))
           = Ok (_key v)
}.

(** a key component that is a number or one of the two sentinels *)
Definition rank_numeric (r : rank) : bool :=
  match r with
  | RStr _ => false
  | _ => true
  end.

Definition key_numeric (k : Key) : bool :=
  rank_numeric (key_pre k) && rank_numeric (key_post k) &&
  rank_numeric (key_dev k) && rank_numeric (key_local k).

(** a numeric key as one tuple of ints, in the order of the key *)
Definition rank_code (r : rank) : list N :=
  match r with
  | RNegInf => [0; 0]
  | RInt n => [1; n]
  | RInf => [2; 0]
  | RStr _ => [3; 0]
  end%N.

Definition key_code (k : Key) : list N :=
  (key_epoch k :: map N.succ (key_release k) ++ 0%N ::
   rank_code (key_pre k) ++ rank_code (key_post k) ++
   rank_code (key_dev k) ++ rank_code (key_local k))%list.

Definition lex (c1 c2 : comparison) : comparison :=
  match c1 with
  | Eq => c2
  | c => c
  end.

(** exactly one of three results is [True] *)
Definition exactly_one (x y z : bool) : bool :=
  (x && negb y && negb z) || (negb x && y && negb z) || (negb x && negb y && z).

(** the computation [x] does not raise [InvalidVersion] *)
Definition not_invalid {A} (x : result A) : Prop :=
  forall msg, x <> Raise (InvalidVersion msg).

(** two segment tuples that differ at most in the tag of the pre-release *)
Definition same_but_pre_tag (a b : _Version) : Prop :=
  epoch a = epoch b /\ release a = release b /\ dev a = dev b /\
  post a = post b /\ local a = local b /\
  exists t1 t2 n, pre a = Some (t1, n) /\ pre b = Some (t2, n).

(** ** Notions used to state the further properties *)

(** a character other than [+] *)
Definition not_plus (a : ascii) : bool := negb (is_plus a).

(** the canonical string without its local segment *)
Definition seg_public (v : _Version) : string :=
  seg_epoch (epoch v) ++ seg_release (release v) ++ seg_pre (pre v)
  ++ seg_post (post v) ++ seg_dev (dev v).

(** the match has a post or a dev tag and no number for it *)
Definition tag_without_number (m : captures) : bool :=
  (has "post_l" m && negb (has "post_n1" m) && negb (has "post_n2" m))
  || (has "dev_l" m && negb (has "dev_n" m)).

(** no character set of [r] admits a whitespace character *)
Fixpoint space_free (r : regex) : Prop :=
  match r with
  | Eps => True
  | Chr p => forall a, is_space a = true -> p a = false
  | Seq r1 r2 | Alt r1 r2 => space_free r1 /\ space_free r2
  | Star r1 | Group _ r1 => space_free r1
  end.

(** the rest of the search after the leading white space *)
Definition k_version : cont :=
  fun s c => rmatch VERSION_PATTERN s c (fun s' c' => rmatch spaces s' c' k_end).

(** the groups with their text in lower case *)
Definition lower_captures (c : captures) : captures :=
  map (fun gv => (fst gv, lower (snd gv))) c.

(** every character set of [r] treats a letter and its lower case alike *)
Fixpoint case_blind (r : regex) : Prop :=
  match r with
  | Eps => True
  | Chr p => forall a, p (lower_char a) = p a
  | Seq r1 r2 | Alt r1 r2 => case_blind r1 /\ case_blind r2
  | Star r1 | Group _ r1 => case_blind r1
  end.

(** [e] with its Boolean result negated; an exception passes through *)
Definition negated (e : result bool) : result bool := do x <- e; Ok (negb x).

(** the rank that [_cmpkey] gives a segment that sorts last when absent *)
Definition rank_absent_last (s : option (string * N)) : rank :=
  match s with
  | None => RInf
  | Some p => RInt (snd p)
  end.

(** the rank that [_cmpkey] gives the post segment *)
Definition rank_absent_first (s : option (string * N)) : rank :=
  match s with
  | None => RNegInf
  | Some p => RInt (snd p)
  end.

(** the operator that gives the same result on exchanged operands *)
Definition op_swap (op : cmpop) : cmpop :=
  match op with
  | Py_LT => Py_GT | Py_LE => Py_GE | Py_EQ => Py_EQ
  | Py_GE => Py_LE | Py_GT => Py_LT | Py_NE => Py_NE
  end.

(** the operator with the negated result *)
Definition op_not (op : cmpop) : cmpop :=
  match op with
  | Py_LT => Py_GE | Py_LE => Py_GT | Py_EQ => Py_NE
  | Py_GE => Py_LT | Py_GT => Py_LE | Py_NE => Py_EQ
  end.

(** the versions whose key holds no string *)
Definition numeric (v : Version) : Prop := key_numeric (_key v) = true.

(** [a] does not sort after [b], read off the keys as tuples of ints *)
Definition code_le (a b : Version) : Prop :=
  tuple_compare (key_code (_key a)) (key_code (_key b)) <> Gt.

(** the candidates that the check keeps for the current version [cur] *)
Definition eligible (cur r : Version) : bool :=
  if negb (is_devrelease cur) && negb (is_prerelease cur)
  then negb (is_devrelease r) && negb (is_prerelease r)
  else true.

(** the digit [0] *)
Definition is_zero (a : ascii) : bool := (code a =? 48)%N.

(** * Properties *)

(** ** The key of a parsed version *)

Lemma bind_Ok {A B} (x : result A) (f : A -> result B) (b : B) :
  bind x f = Ok b -> exists a, x = Ok a /\ f a = Ok b.
Proof.
  destruct x as [a|e]; simpl; intro H; [eauto | discriminate].
Qed.

Ltac run := vm_compute; reflexivity.

Ltac bind_inv H :=
  let a := fresh "x" in
  let Ha := fresh "E" in
  apply bind_Ok in H; destruct H as (a & Ha & H).

Lemma parsed_key raw v :
  parsed raw v ->
  _cmpkey (epoch (_version v)) (release (_version v)) (pre (_version v))
          (post (_version v)) (dev (_version v)) (local (_version v))
  = Ok (_key v).
Proof.
  unfold parsed, __init__. destruct (_regex_search raw) as [m|]; [|discriminate].
  intro H. do 7 bind_inv H. inversion H; subst; simpl. assumption.
Qed.

Lemma cmpkey_fields e r p po d l k :
  _cmpkey e r p po d l = Ok k -> key_epoch k = e /\ key_release k = r.
Proof.
  unfold _cmpkey. intro H. bind_inv H. inversion H; subst; auto.
Qed.

Lemma parsed_key_release raw v :
  parsed raw v ->
  key_epoch (_key v) = Version_epoch v /\ key_release (_key v) = Version_release v.
Proof.
  intro H. apply parsed_key in H. apply cmpkey_fields in H. exact H.
Qed.

Lemma tuple_compare_refl a : tuple_compare a a = Eq.
Proof.
  induction a as [|x a IH]; simpl; [reflexivity|].
  rewrite N.compare_refl. exact IH.
Qed.

Lemma rank_eq_refl a : rank_eq a a = true.
Proof.
  destruct a; simpl; auto using N.eqb_refl, String.eqb_refl.
Qed.

Lemma key_richcmp_refl op k : key_richcmp op k k = Ok (cmp_result op Eq).
Proof.
  unfold key_richcmp.
  rewrite N.eqb_refl, tuple_compare_refl, !rank_eq_refl. reflexivity.
Qed.

(** ** C1: dev, pre, final and post releases of [1.0] *)

(** C1. The chain [1.0.dev0 < 1.0a1 < 1.0a1.post1 < 1.0 < 1.0.post1] breaks
    at its first link: [_cmpkey] gives a version without a pre-release the
    rank [inf] also when it is a dev release, so [1.0.dev0] sorts after
    [1.0a1]; the other three links hold. *)
Theorem C1_dev_release_sorts_after_pre_release :
  exists d a ap f fp,
    parsed "1.0.dev0" d /\ parsed "1.0a1" a /\ parsed "1.0a1.post1" ap /\
    parsed "1.0" f /\ parsed "1.0.post1" fp /\
    __lt__ d a = Ok false /\ __gt__ d a = Ok true /\
    __lt__ a ap = Ok true /\ __lt__ ap f = Ok true /\ __lt__ f fp = Ok true.
Proof.
  do 5 eexists. unfold parsed. repeat (split; [run|]). run.
Qed.

(** ** C2: release sequences of unequal length *)

Lemma tuple_compare_padded_neq a b :
  padded_compare a b <> Eq -> tuple_compare a b = padded_compare a b.
Proof.
  revert b. induction a as [|x a IH]; intros [|y b] H; simpl in *.
  - congruence.
  - destruct (_ && _); congruence.
  - destruct (_ && _); congruence.
  - destruct (x ?= y)%N; auto.
Qed.

Lemma tuple_compare_padded_eq a b :
  padded_compare a b = Eq -> tuple_compare a b = Nat.compare (List.length a) (List.length b).
Proof.
  revert b. induction a as [|x a IH]; intros [|y b] H; simpl in *; auto.
  destruct (x ?= y)%N; auto; discriminate.
Qed.

Lemma tuple_compare_length a b :
  List.length a <> List.length b -> tuple_compare a b <> Eq.
Proof.
  revert b. induction a as [|x a IH]; intros [|y b] H; simpl in *;
    try congruence.
  destruct (x ?= y)%N; try congruence. apply IH. congruence.
Qed.

Lemma tuple_compare_release_order a b : tuple_compare a b = release_order a b.
Proof.
  unfold release_order. destruct (padded_compare a b) eqn:E.
  - now apply tuple_compare_padded_eq.
  - rewrite <- E. apply tuple_compare_padded_neq. congruence.
  - rewrite <- E. apply tuple_compare_padded_neq. congruence.
Qed.

(** C2, as stated, fails: [1.0] and [1.0.0] are equal under the zero-padded
    reading, yet [==] on the parsed versions is [False] and [<] is [True]. *)
Lemma C2_counterexample :
  exists a b,
    parsed "1.0" a /\ parsed "1.0.0" b /\
    padded_compare (Version_release a) (Version_release b) = Eq /\
    __eq__ a b = Ok false /\ __lt__ a b = Ok true.
Proof.
  do 2 eexists. unfold parsed. repeat (split; [run|]). run.
Qed.

(** C2, amended. For two parsed versions of the same epoch whose release
    sequences have unequal lengths, every comparison operator is decided by
    the release sequences, element by element: a difference found by the
    zero-padded reading decides, and when there is none (the sequences differ
    by trailing zeros only) the shorter sequence sorts first. *)
Theorem C2_release_sequences_of_unequal_length raw1 raw2 a b op :
  parsed raw1 a -> parsed raw2 b ->
  Version_epoch a = Version_epoch b ->
  List.length (Version_release a) <> List.length (Version_release b) ->
  _compare a b (key_richcmp op)
  = Ok (cmp_result op (release_order (Version_release a) (Version_release b))).
Proof.
  intros Ha Hb He Hl.
  destruct (parsed_key_release _ _ Ha) as [Ea Ra].
  destruct (parsed_key_release _ _ Hb) as [Eb Rb].
  unfold _compare, key_richcmp. rewrite Ea, Eb, Ra, Rb, He, N.eqb_refl. simpl.
  rewrite <- tuple_compare_release_order.
  apply tuple_compare_length in Hl.
  destruct (tuple_compare (Version_release a) (Version_release b));
    [congruence | reflexivity | reflexivity].
Qed.

Lemma C2_witness :
  exists a b,
    parsed "1.0" a /\ parsed "1.0.0" b /\
    __lt__ a b = Ok (cmp_result Py_LT (release_order (Version_release a) (Version_release b))) /\
    release_order (Version_release a) (Version_release b) = Lt.
Proof.
  destruct (__init__ "1.0") as [a|] eqn:Ea; [|vm_compute in Ea; discriminate].
  destruct (__init__ "1.0.0") as [b|] eqn:Eb; [|vm_compute in Eb; discriminate].
  exists a, b. split; [exact Ea|]. split; [exact Eb|].
  split.
  - apply (C2_release_sequences_of_unequal_length "1.0" "1.0.0" a b Py_LT Ea Eb);
      vm_compute in Ea, Eb; inversion Ea; inversion Eb; vm_compute; congruence.
  - vm_compute in Ea, Eb; inversion Ea; inversion Eb; reflexivity.
Defined.

(** ** C4: a tag without a number *)

(** C4. With the tag present and the number absent, the pre-release number is
    0 ([1.0a]), but the dev and the post segment hand [int] the empty string:
    [Version("1.0.dev")] and [Version("1.0.post")] raise [ValueError] although
    both match the pattern. *)
Theorem C4_tag_without_number :
  (exists v, parsed "1.0a" v /\ Version_pre v = Some ("a", 0%N)) /\
  _regex_search "1.0.dev" <> None /\ __init__ "1.0.dev" = Raise ValueError /\
  _regex_search "1.0.post" <> None /\ __init__ "1.0.post" = Raise ValueError /\
  (forall l, truthy (Some l) = true ->
     _parse_letter_version (Some l) None = Ok (Some (normalize_letter l, 0%N)) /\
     _parse_letter_version (Some l) (Some "") = Raise ValueError).
Proof.
  split; [eexists; split; run|].
  repeat (split; [vm_compute; congruence|]).
  intros l Hl. unfold _parse_letter_version. rewrite Hl. simpl. auto.
Qed.

Lemma C4_witness :
  _parse_letter_version (Some "dev") None = Ok (Some ("dev", 0%N)) /\
  _parse_letter_version (Some "dev") (Some "") = Raise ValueError.
Proof.
  apply (proj2 (proj2 (proj2 (proj2 (proj2 C4_tag_without_number)))) "dev").
  reflexivity.
Defined.

(** ** C5: the local segment *)

(** C5. [Version("1.0+abc")] does not return: the pattern matches, the local
    segment is the one-element tuple [("abc",)], and [local[1]] in [_cmpkey]
    raises [IndexError]. With a second, numeric part the version is built and
    the version without a local segment sorts after it. *)
Theorem C5_local_segment_of_one_part :
  _regex_search "1.0+abc" <> None /\
  _parse_local_version (Some "abc") = Ok (Some [LStr "abc"]) /\
  __init__ "1.0+abc" = Raise IndexError /\
  exists a b, parsed "1.0" a /\ parsed "1.0+abc.1" b /\ __gt__ a b = Ok true.
Proof.
  split; [vm_compute; congruence|]. split; [run|]. split; [run|].
  do 2 eexists. unfold parsed. repeat (split; [run|]). run.
Qed.

(** ** C7: synonym spellings *)

(** C7. [alpha] is read as [a], [c] as [rc], and [rev], [post] and the bare
    [-N] suffix as the post-release tag [post]: the versions have the same
    segments and compare equal. *)
Theorem C7_synonym_spellings :
  exists alpha1 a1 c1 rc1 rev1 post1 dash1,
    parsed "1.0alpha1" alpha1 /\ parsed "1.0a1" a1 /\
    parsed "1.0c1" c1 /\ parsed "1.0rc1" rc1 /\
    parsed "1.0rev1" rev1 /\ parsed "1.0post1" post1 /\ parsed "1.0-1" dash1 /\
    alpha1 = a1 /\ c1 = rc1 /\ rev1 = post1 /\ post1 = dash1 /\
    Version_pre a1 = Some ("a", 1%N) /\ Version_pre rc1 = Some ("rc", 1%N) /\
    post (_version dash1) = Some ("post", 1%N) /\
    __eq__ alpha1 a1 = Ok true /\ __eq__ c1 rc1 = Ok true /\
    __eq__ rev1 post1 = Ok true /\ __eq__ post1 dash1 = Ok true.
Proof.
  do 7 eexists. unfold parsed. repeat (split; [run|]). run.
Qed.

(** ** C9: an unparsable candidate in the update check *)

Lemma mapM_Raise {A B} (f : A -> result B) (l : list A) x e :
  In x l -> f x = Raise e -> exists e', mapM f l = Raise e'.
Proof.
  induction l as [|y l IH]; simpl; [tauto|].
  intros [->|Hin] Hx.
  - rewrite Hx. simpl. eauto.
  - destruct (f y); simpl; [|eauto].
    destruct (IH Hin Hx) as [e' ->]. simpl. eauto.
Qed.

(** C9, as stated, fails: with the unparsable candidate ["bogus"] among them
    the check reports nothing, although dropping that candidate alone would
    leave ["2.0.0"] to be reported. *)
Lemma C9_counterexample :
  parseable "bogus" = false /\
  check_new_package_available false false (Ok ["1.0.0"; "bogus"; "2.0.0"]) "1.0.0"
  = (None, true) /\
  check_new_package_available false false
    (Ok (filter parseable ["1.0.0"; "bogus"; "2.0.0"])) "1.0.0"
  = (Some ("2.0.0", true), true).
Proof.
  repeat split; run.
Qed.

(** C9, amended. The candidates are parsed one after the other inside the
    single [try] block of the check: as soon as one candidate fails to parse,
    the check is abandoned and returns [None], whatever the other candidates
    and the current version are. *)
Theorem C9_unparsable_candidate_aborts_check only_once checked candidates current :
  only_once && checked = false ->
  (exists raw, In raw candidates /\ parseable raw = false) ->
  check_new_package_available only_once checked (Ok candidates) current
  = (None, true).
Proof.
  intros Honce (raw & Hin & Hraw).
  unfold check_new_package_available. rewrite Honce.
  unfold parseable in Hraw.
  destruct (__init__ raw) as [|e] eqn:E; [discriminate|].
  destruct (mapM_Raise __init__ candidates raw e Hin E) as [e' He'].
  unfold check_body. simpl. rewrite He'. reflexivity.
Qed.

Lemma C9_witness :
  check_new_package_available true false (Ok ["1.0.0"; "bogus"; "2.0.0"]) "1.0.0"
  = (None, true).
Proof.
  apply C9_unparsable_candidate_aborts_check.
  - reflexivity.
  - exists "bogus". split; [simpl; auto | vm_compute; reflexivity].
Defined.

(** ** C10: the tag of the pre-release *)

(** C10. The key keeps the number of the pre-release and drops its tag: two
    parsed versions that differ in the pre-release tag only have the same
    key, so they are [==] and have the same hash; [1.0a1], [1.0b1] and
    [1.0rc1] are such versions, with three different canonical strings. *)
Theorem C10_pre_release_tag_is_not_in_the_key :
  (forall raw1 raw2 a b,
     parsed raw1 a -> parsed raw2 b ->
     same_but_pre_tag (_version a) (_version b) ->
     _key a = _key b /\ __eq__ a b = Ok true /\ __ne__ a b = Ok false /\
     __lt__ a b = Ok false /\ __gt__ a b = Ok false /\
     forall (H : Type) (hash : Key -> H), __hash__ hash a = __hash__ hash b) /\
  (exists a b rc,
     parsed "1.0a1" a /\ parsed "1.0b1" b /\ parsed "1.0rc1" rc /\
     same_but_pre_tag (_version a) (_version b) /\
     same_but_pre_tag (_version b) (_version rc) /\
     __str__ a = "1.0a1" /\ __str__ b = "1.0b1" /\ __str__ rc = "1.0rc1").
Proof.
  split.
  - intros raw1 raw2 a b Ha Hb (He & Hr & Hd & Hpo & Hl & t1 & t2 & n & Hp1 & Hp2).
    apply parsed_key in Ha. apply parsed_key in Hb.
    rewrite He, Hr, Hd, Hpo, Hl, Hp1 in Ha. rewrite Hp2 in Hb.
    assert (Hk : _key a = _key b).
    { unfold _cmpkey in Ha, Hb. simpl in Ha, Hb. congruence. }
    split; [exact Hk|].
    unfold __eq__, __ne__, __lt__, __gt__, _compare, __hash__.
    rewrite Hk, !key_richcmp_refl. repeat split; reflexivity.
  - do 3 eexists. unfold parsed. repeat (split; [run|]).
    unfold same_but_pre_tag. simpl.
    repeat (split; [repeat split; try reflexivity; do 3 eexists; split; reflexivity|]).
    repeat split; reflexivity.
Qed.

Lemma C10_witness :
  exists a b,
    parsed "1.0a1" a /\ parsed "1.0b1" b /\
    _key a = _key b /\ __eq__ a b = Ok true.
Proof.
  destruct (__init__ "1.0a1") as [a|] eqn:Ea; [|vm_compute in Ea; discriminate].
  destruct (__init__ "1.0b1") as [b|] eqn:Eb; [|vm_compute in Eb; discriminate].
  exists a, b. split; [exact Ea|]. split; [exact Eb|].
  assert (S : same_but_pre_tag (_version a) (_version b)).
  { vm_compute in Ea, Eb. inversion Ea; inversion Eb. unfold same_but_pre_tag. simpl.
    repeat split; try reflexivity. do 3 eexists; split; reflexivity. }
  destruct (proj1 C10_pre_release_tag_is_not_in_the_key "1.0a1" "1.0b1" a b Ea Eb S)
    as (Hk & Heq & _).
  split; assumption.
Defined.

(** ** Strings *)

Lemma append_nil_r s : s ++ "" = s.
Proof. induction s; simpl; congruence. Qed.

Lemma append_assoc (a b c : string) : (a ++ b) ++ c = a ++ b ++ c.
Proof. induction a; simpl; congruence. Qed.

Lemma length_append (a b : string) :
  String.length (a ++ b) = String.length a + String.length b.
Proof. induction a; simpl; congruence. Qed.

Lemma length_zero s : String.length s = 0 -> s = "".
Proof. destruct s; simpl; [reflexivity | discriminate]. Qed.

Lemma substring_prefix (a b : string) : substring 0 (String.length a) (a ++ b) = a.
Proof.
  induction a as [|x a IH]; simpl.
  - destruct b; reflexivity.
  - now rewrite IH.
Qed.

Lemma consumed_append (a b : string) : consumed (a ++ b) b = a.
Proof.
  unfold consumed. rewrite length_append.
  replace (String.length a + String.length b - String.length b)
    with (String.length a) by lia.
  apply substring_prefix.
Qed.

(** ** The matcher against the language of the pattern *)

Lemma orelse_Some {A} (x y : option A) a :
  orelse x y = Some a -> x = Some a \/ (x = None /\ y = Some a).
Proof. destruct x; simpl; intro H; [left | right]; auto. Qed.

(** every result of the matcher comes from its continuation, called on the
    rest of a split of the input whose first part the pattern matches *)
Lemma star_loop_sound r
  (IH : forall s c k x, rmatch r s c k = Some x ->
        exists s1 s2 c', s = s1 ++ s2 /\ Matches r s1 c c' /\ k s2 c' = Some x) :
  forall n s c k x, star_loop (rmatch r) n s c k = Some x ->
    exists s1 s2 c', s = s1 ++ s2 /\ Matches (Star r) s1 c c' /\ k s2 c' = Some x.
Proof.
  induction n as [|n IHn]; intros s c k x H; simpl in H.
  - exists "", s, c. repeat split; [constructor | assumption].
  - apply orelse_Some in H. destruct H as [H | [_ H]].
    + apply IH in H. destruct H as (s1 & s2 & c1 & -> & M1 & H).
      destruct (Nat.ltb_spec (String.length s2) (String.length (s1 ++ s2)))
        as [Hlt|]; [|discriminate].
      apply IHn in H. destruct H as (s3 & s4 & c2 & -> & M2 & H).
      exists (s1 ++ s3), s4, c2. rewrite append_assoc.
      repeat split; [|assumption].
      apply M_StarCons with c1; auto.
      intros ->. simpl in Hlt. lia.
    + exists "", s, c. repeat split; [constructor | assumption].
Qed.

Lemma rmatch_sound r : forall s c k x,
  rmatch r s c k = Some x ->
  exists s1 s2 c', s = s1 ++ s2 /\ Matches r s1 c c' /\ k s2 c' = Some x.
Proof.
  induction r as [|p|r1 IH1 r2 IH2|r1 IH1 r2 IH2|r IH|name r IH];
    intros s c k x H; simpl in H.
  - exists "", s, c. repeat split; [constructor | assumption].
  - destruct s as [|a s]; [discriminate|].
    destruct (p a) eqn:Hp; [|discriminate].
    exists (String a ""), s, c. repeat split; [now constructor | assumption].
  - apply IH1 in H. destruct H as (s1 & s2 & c1 & -> & M1 & H).
    apply IH2 in H. destruct H as (s3 & s4 & c2 & -> & M2 & H).
    exists (s1 ++ s3), s4, c2. rewrite append_assoc.
    repeat split; [|assumption]. now apply M_Seq with c1.
  - apply orelse_Some in H. destruct H as [H | [_ H]].
    + apply IH1 in H. destruct H as (s1 & s2 & c1 & -> & M1 & H).
      exists s1, s2, c1. repeat split; [now apply M_AltL | assumption].
    + apply IH2 in H. destruct H as (s1 & s2 & c1 & -> & M1 & H).
      exists s1, s2, c1. repeat split; [now apply M_AltR | assumption].
  - now apply star_loop_sound in H.
  - apply IH in H. destruct H as (s1 & s2 & c1 & -> & M1 & H).
    rewrite consumed_append in H.
    exists s1, s2, ((name, s1) :: c1). repeat split; [now constructor | assumption].
Qed.

Lemma rmatch_ext r : forall s c k1 k2,
  (forall s' c', k1 s' c' = k2 s' c') -> rmatch r s c k1 = rmatch r s c k2.
Proof.
  induction r as [|p|r1 IH1 r2 IH2|r1 IH1 r2 IH2|r IH|name r IH];
    intros s c k1 k2 E; simpl.
  - apply E.
  - destruct s as [|a s]; [reflexivity|]. destruct (p a); [apply E | reflexivity].
  - apply IH1. intros. now apply IH2.
  - rewrite (IH1 s c k1 k2 E), (IH2 s c k1 k2 E). reflexivity.
  - generalize (String.length s) as n. intro n. revert s c.
    induction n as [|n IHn]; intros s c; simpl; [apply E|].
    rewrite (E s c). f_equal. apply IH. intros s' c'.
    destruct (Nat.ltb _ _); [apply IHn | reflexivity].
  - apply IH. intros. apply E.
Qed.

Lemma rmatch_None r s c k :
  (forall s' c', k s' c' = None) -> rmatch r s c k = None.
Proof.
  intro E. destruct (rmatch r s c k) eqn:H; [|reflexivity].
  apply rmatch_sound in H. destruct H as (s1 & s2 & c' & _ & _ & H).
  rewrite E in H. discriminate.
Qed.

(** the iteration does not depend on the amount of fuel beyond the length
    of the input *)
Lemma star_loop_fuel r k : forall n m s c,
  String.length s <= n -> String.length s <= m ->
  star_loop (rmatch r) n s c k = star_loop (rmatch r) m s c k.
Proof.
  induction n as [|n IHn]; intros m s c Hn Hm.
  - assert (s = "") as -> by (apply length_zero; lia).
    destruct m; simpl; [reflexivity|].
    rewrite rmatch_None; [reflexivity|]. intros. reflexivity.
  - destruct m as [|m].
    + assert (s = "") as -> by (apply length_zero; lia). simpl.
      rewrite rmatch_None; [reflexivity|]. intros. reflexivity.
    + simpl. f_equal. apply rmatch_ext. intros s' c'.
      destruct (Nat.ltb_spec (String.length s') (String.length s));
        [apply IHn; lia | reflexivity].
Qed.

(** whenever the pattern matches a prefix on which the continuation succeeds,
    the matcher finds a match *)
Lemma rmatch_complete r s1 c c' :
  Matches r s1 c c' ->
  forall s2 k, (exists x, k s2 c' = Some x) ->
  exists y, rmatch r (s1 ++ s2) c k = Some y.
Proof.
  induction 1 as [c|p a c Hp|r1 r2 s1 s3 c c1 c2 _ IH1 _ IH2
                 |r1 r2 s c c' _ IH|r1 r2 s c c' _ IH
                 |r c|r s1 s3 c c1 c2 Hne _ IH1 _ IH2|name r s c c' _ IH];
    intros s2 k Hk; simpl.
  - exact Hk.
  - rewrite Hp. exact Hk.
  - rewrite append_assoc. apply IH1. apply IH2. exact Hk.
  - destruct (IH s2 k Hk) as [y ->]. simpl. eauto.
  - destruct (rmatch r1 (s ++ s2) c k); simpl; [eauto | apply IH; exact Hk].
  - destruct (String.length s2); simpl; [exact Hk|].
    destruct (rmatch r s2 c _); simpl; [eauto | exact Hk].
  - destruct (String.length ((s1 ++ s3) ++ s2)) as [|n] eqn:Hlen.
    + apply length_zero in Hlen. destruct s1; [congruence | discriminate].
    + simpl. rewrite append_assoc.
      destruct (IH1 (s3 ++ s2) (fun s' c' =>
         if Nat.ltb (String.length s') (String.length (s1 ++ s3 ++ s2))
         then star_loop (rmatch r) n s' c' k else None)) as [y Hy].
      * assert (L : String.length (s3 ++ s2) < String.length (s1 ++ s3 ++ s2)).
        { rewrite (length_append s1). destruct s1; [congruence | simpl; lia]. }
        apply Nat.ltb_lt in L. rewrite L.
        destruct (IH2 s2 k Hk) as [y Hy]. simpl in Hy. exists y.
        rewrite <- Hy. apply star_loop_fuel; [|lia].
        apply Nat.ltb_lt in L. rewrite append_assoc in Hlen. lia.
      * rewrite Hy. simpl. eauto.
  - apply IH. destruct Hk as [x Hk]. exists x.
    rewrite consumed_append. exact Hk.
Qed.

(** the search succeeds exactly on the sentences of the grammar *)
Lemma regex_search_in_grammar raw :
  _regex_search raw <> None <-> in_grammar raw.
Proof.
  unfold _regex_search, in_grammar. split.
  - destruct (rmatch _ _ _ _) as [m|] eqn:H; [intros _ | congruence].
    apply rmatch_sound in H. destruct H as (body & tail & c & -> & M & H).
    exists body, tail, c. destruct (at_end tail); [auto | discriminate].
  - intros (body & tail & c & -> & M & Hend).
    destruct (rmatch_complete _ _ _ _ M tail
                (fun s c => if at_end s then Some c else None)) as [y Hy].
    + rewrite Hend. eauto.
    + rewrite Hy. discriminate.
Qed.

(** ** C3: the errors of [Version.__init__] *)

Lemma not_invalid_bind {A B} (x : result A) (f : A -> result B) :
  not_invalid x -> (forall a, not_invalid (f a)) -> not_invalid (bind x f).
Proof.
  unfold not_invalid. intros Hx Hf msg.
  destruct x as [a|e]; simpl; [apply Hf|].
  intro H. apply (Hx msg). congruence.
Qed.

Lemma not_invalid_Ok {A} (a : A) : not_invalid (Ok a).
Proof. intros msg; discriminate. Qed.

Lemma not_invalid_int s : not_invalid (int s).
Proof. unfold int. intros msg. destruct (NilZero.uint_of_string s); discriminate. Qed.

Lemma not_invalid_mapM {A B} (f : A -> result B) l :
  (forall a, not_invalid (f a)) -> not_invalid (mapM f l).
Proof.
  intro Hf. induction l as [|x l IH]; simpl; [apply not_invalid_Ok|].
  apply not_invalid_bind; [apply Hf|]. intro y.
  apply not_invalid_bind; [apply IH|]. intro ys. apply not_invalid_Ok.
Qed.

Lemma not_invalid_parse_letter_version letter number :
  not_invalid (_parse_letter_version letter number).
Proof.
  unfold _parse_letter_version.
  destruct (negb (truthy letter) && negb (truthy number)); [apply not_invalid_Ok|].
  destruct (truthy letter).
  - apply not_invalid_bind; [|intro; apply not_invalid_Ok].
    destruct number; [apply not_invalid_int | apply not_invalid_Ok].
  - apply not_invalid_bind; [apply not_invalid_int | intro; apply not_invalid_Ok].
Qed.

Lemma not_invalid_parse_local_version l : not_invalid (_parse_local_version l).
Proof.
  unfold _parse_local_version. destruct l as [l|]; [|apply not_invalid_Ok].
  apply not_invalid_bind.
  - apply not_invalid_mapM. intro part. unfold local_part_of.
    destruct (negb (isdigit part)); [apply not_invalid_Ok|].
    apply not_invalid_bind; [apply not_invalid_int | intro; apply not_invalid_Ok].
  - intros [|p parts]; [apply not_invalid_Ok|].
    destruct (negb (part_truthy p)); apply not_invalid_Ok.
Qed.

Lemma not_invalid_cmpkey e r p po d l : not_invalid (_cmpkey e r p po d l).
Proof.
  unfold _cmpkey. apply not_invalid_bind; [|intro; apply not_invalid_Ok].
  destruct l as [[|x [|y l]]|]; simpl; try apply not_invalid_Ok.
  intros msg; discriminate.
Qed.

Lemma init_no_match raw :
  _regex_search raw = None ->
  __init__ raw = Raise (InvalidVersion ("Invalid version: '" ++ raw ++ "'")).
Proof. unfold __init__. now intros ->. Qed.

Lemma init_match_not_invalid raw m :
  _regex_search raw = Some m -> not_invalid (__init__ raw).
Proof.
  unfold __init__. intros ->.
  apply not_invalid_bind.
  { destruct (truthy _); [apply not_invalid_int | apply not_invalid_Ok]. }
  intro e. apply not_invalid_bind.
  { destruct (group "release" m); [|intros msg; discriminate].
    apply not_invalid_mapM, not_invalid_int. }
  intro r. apply not_invalid_bind; [apply not_invalid_parse_letter_version|].
  intro p. apply not_invalid_bind; [apply not_invalid_parse_letter_version|].
  intro po. apply not_invalid_bind; [apply not_invalid_parse_letter_version|].
  intro d. apply not_invalid_bind; [apply not_invalid_parse_local_version|].
  intro l. apply not_invalid_bind; [apply not_invalid_cmpkey|].
  intro k. apply not_invalid_Ok.
Qed.

(** C3, as stated, fails: ["1.0.dev"] is a sentence of the grammar, and
    [Version("1.0.dev")] neither returns a version nor raises
    [InvalidVersion]: it raises the [ValueError] of [int('')]. The
    [InvalidVersion] raised for ["1.x"] carries one message string, which has
    the input in it and no offset. *)
Lemma C3_counterexample :
  in_grammar "1.0.dev" /\ __init__ "1.0.dev" = Raise ValueError /\
  ~ ((exists v, __init__ "1.0.dev" = Ok v) \/
     (exists msg, __init__ "1.0.dev" = Raise (InvalidVersion msg))) /\
  __init__ "1.x" = Raise (InvalidVersion "Invalid version: '1.x'").
Proof.
  split; [apply regex_search_in_grammar; vm_compute; discriminate|].
  split; [run|]. split; [|run].
  intros [[v H]|[msg H]]; vm_compute in H; discriminate.
Qed.

(** C3, amended. [Version(raw)] raises [InvalidVersion] exactly when [raw] is
    not a sentence of the grammar of the pattern, and the error then carries
    the message [Invalid version: 'raw'], that is the offending input and
    nothing else. *)
Theorem C3_invalid_version_exactly_outside_the_grammar raw :
  ((exists msg, __init__ raw = Raise (InvalidVersion msg)) <-> ~ in_grammar raw) /\
  (forall msg, __init__ raw = Raise (InvalidVersion msg) ->
               msg = "Invalid version: '" ++ raw ++ "'").
Proof.
  destruct (_regex_search raw) as [m|] eqn:E.
  - pose proof (init_match_not_invalid raw m E) as N.
    assert (G : in_grammar raw) by (apply regex_search_in_grammar; congruence).
    split; [split|].
    + intros [msg H]. now apply N in H.
    + intro H. now apply H in G.
    + intros msg H. now apply N in H.
  - pose proof (init_no_match raw E) as I.
    assert (G : ~ in_grammar raw).
    { intro G. apply regex_search_in_grammar in G. congruence. }
    split; [split|].
    + intros _. exact G.
    + intros _. eauto.
    + intros msg H. congruence.
Qed.

Lemma C3_witness :
  ~ in_grammar "1.x" /\
  "Invalid version: '1.x'" = "Invalid version: '" ++ "1.x" ++ "'".
Proof.
  assert (H : __init__ "1.x" = Raise (InvalidVersion "Invalid version: '1.x'"))
    by (vm_compute; reflexivity).
  split.
  - apply (proj1 (C3_invalid_version_exactly_outside_the_grammar "1.x")).
    eexists. exact H.
  - apply (proj2 (C3_invalid_version_exactly_outside_the_grammar "1.x")).
    exact H.
Defined.

(** ** The matcher on the canonical string, step by step *)

Lemma rmatch_chr_fail p s c k : starts_with p s = false -> rmatch (Chr p) s c k = None.
Proof. destruct s as [|a s]; simpl; [reflexivity|]. now intros ->. Qed.

Lemma rmatch_opt_skip r s c k : rmatch r s c k = None -> rmatch (Opt r) s c k = k s c.
Proof. simpl. now intros ->. Qed.

Lemma rmatch_opt_take r s c k x : rmatch r s c k = Some x -> rmatch (Opt r) s c k = Some x.
Proof. simpl. now intros ->. Qed.

Lemma ci_refl a : ci a a = true.
Proof. unfold ci. apply Ascii.eqb_refl. Qed.

Lemma rmatch_lit w s c k : rmatch (Lit w) (w ++ s) c k = k s c.
Proof.
  revert c k. induction w as [|a w IH]; intros c k; simpl; [reflexivity|].
  rewrite ci_refl. apply IH.
Qed.

Lemma star_loop_stop r n s c k :
  (forall k', rmatch r s c k' = None) -> star_loop (rmatch r) n s c k = k s c.
Proof. intro H. destruct n; simpl; [reflexivity|]. now rewrite H. Qed.

Lemma star_loop_S step n s c k :
  star_loop step (S n) s c k
  = orelse (step s c (fun s' c' =>
              if Nat.ltb (String.length s') (String.length s)
              then star_loop step n s' c' k else None))
           (k s c).
Proof. reflexivity. Qed.

Lemma rmatch_chr_cons p a s c k :
  rmatch (Chr p) (String a s) c k = if p a then k s c else None.
Proof. reflexivity. Qed.

Lemma ltb_length_cons a s : Nat.ltb (String.length s) (String.length (String a s)) = true.
Proof. apply Nat.ltb_lt. simpl. lia. Qed.

Lemma star_loop_run p k x : forall ds rest n c,
  all_chars p ds = true -> starts_with p rest = false ->
  String.length (ds ++ rest) <= n ->
  k rest c = Some x ->
  star_loop (rmatch (Chr p)) n (ds ++ rest) c k = Some x.
Proof.
  induction ds as [|a ds IH]; intros rest n c Hds Hrest Hn Hk.
  - cbn [append]. rewrite star_loop_stop; [assumption|].
    intro k'. now apply rmatch_chr_fail.
  - simpl in Hds. apply andb_prop in Hds. destruct Hds as [Ha Hds].
    destruct n as [|n]; [simpl in Hn; lia|].
    cbn [append]. rewrite star_loop_S, rmatch_chr_cons, Ha, ltb_length_cons.
    rewrite (IH rest n c Hds Hrest); [reflexivity| simpl in Hn; lia | assumption].
Qed.

Lemma plus_run p k x ds rest c :
  ds <> "" -> all_chars p ds = true -> starts_with p rest = false ->
  k rest c = Some x ->
  rmatch (Plus (Chr p)) (ds ++ rest) c k = Some x.
Proof.
  intros Hne Hds Hrest Hk. destruct ds as [|a ds]; [congruence|].
  simpl in Hds. apply andb_prop in Hds. destruct Hds as [Ha Hds].
  cbn [append]. change (rmatch (Plus (Chr p)) (String a (ds ++ rest)) c k)
    with (rmatch (Chr p) (String a (ds ++ rest)) c
            (fun s' c' => star_loop (rmatch (Chr p)) (String.length s') s' c' k)).
  rewrite rmatch_chr_cons, Ha. apply star_loop_run; auto.
Qed.

(** a run over [p] before a continuation that needs a character of [q] *)
Lemma star_loop_run_fail p q k : forall ds rest n c,
  (forall t c', starts_with q t = false -> k t c' = None) ->
  (forall a, p a = true -> q a = false) ->
  all_chars p ds = true -> starts_with p rest = false -> starts_with q rest = false ->
  star_loop (rmatch (Chr p)) n (ds ++ rest) c k = None.
Proof.
  induction ds as [|a ds IH]; intros rest n c Hk Hpq Hds Hp Hq.
  - cbn [append]. rewrite star_loop_stop; [now apply Hk|].
    intro k'. now apply rmatch_chr_fail.
  - simpl in Hds. apply andb_prop in Hds. destruct Hds as [Ha Hds].
    assert (Hq' : starts_with q (String a (ds ++ rest)) = false) by (simpl; now apply Hpq).
    cbn [append]. destruct n as [|n]; [now apply Hk|].
    rewrite star_loop_S, rmatch_chr_cons, Ha, ltb_length_cons.
    rewrite IH; auto. simpl. now apply Hk.
Qed.

Lemma acc_seq r1 r2 s c k x :
  rmatch r1 s c (fun s' c' => rmatch r2 s' c' k) = Some x -> rmatch (Seq r1 r2) s c k = Some x.
Proof. exact (fun H => H). Qed.

Lemma acc_group g r s c k x :
  rmatch r s c (fun s' c' => k s' ((g, consumed s s') :: c')) = Some x ->
  rmatch (Group g r) s c k = Some x.
Proof. exact (fun H => H). Qed.

Lemma acc_alt_l r1 r2 s c k x :
  rmatch r1 s c k = Some x -> rmatch (Alt r1 r2) s c k = Some x.
Proof. simpl. now intros ->. Qed.

Lemma acc_alt_r r1 r2 s c k x :
  rmatch r1 s c k = None -> rmatch r2 s c k = Some x -> rmatch (Alt r1 r2) s c k = Some x.
Proof. simpl. now intros -> ->. Qed.

Lemma acc_opt_skip r s c k x :
  rmatch r s c k = None -> k s c = Some x -> rmatch (Opt r) s c k = Some x.
Proof. simpl. now intros -> ->. Qed.

Lemma acc_lit w s c k x : k s c = Some x -> rmatch (Lit w) (w ++ s) c k = Some x.
Proof. rewrite rmatch_lit. exact (fun H => H). Qed.

Lemma acc_chr p a s c k x : p a = true -> k s c = Some x -> rmatch (Chr p) (String a s) c k = Some x.
Proof. simpl. now intros -> ->. Qed.

Lemma digit_not_sep a : is_digit a = true -> is_sep a = false.
Proof. destruct a as [[] [] [] [] [] [] [] []]; vm_compute; congruence. Qed.

Lemma starts_with_append p a b : a <> "" -> starts_with p (a ++ b) = starts_with p a.
Proof. destruct a; [congruence | reflexivity]. Qed.

Lemma all_chars_starts p a : a <> "" -> all_chars p a = true -> starts_with p a = true.
Proof. destruct a; [congruence|]. simpl. intros _ H. now apply andb_prop in H. Qed.

Lemma digits_not_sep ds rest :
  ds <> "" -> all_chars is_digit ds = true -> starts_with is_sep (ds ++ rest) = false.
Proof.
  destruct ds as [|a ds]; [congruence|]. simpl. intros _ H.
  apply andb_prop in H. now apply digit_not_sep.
Qed.

(** an optional separator and an optional number group, on a number *)
Lemma sep_number name ds rest c k x :
  ds <> "" -> all_chars is_digit ds = true -> starts_with is_digit rest = false ->
  k rest ((name, ds) :: c) = Some x ->
  rmatch (Opt sep >> Opt (Group name digits)) (ds ++ rest) c k = Some x.
Proof.
  intros Hne Hds Hrest Hk.
  apply acc_seq, acc_opt_skip.
  - apply rmatch_chr_fail. now apply digits_not_sep.
  - apply rmatch_opt_take, acc_group. apply plus_run; auto.
    now rewrite consumed_append.
Qed.

Lemma pre_present l ds rest c k x :
  l = "a" \/ l = "b" \/ l = "rc" ->
  ds <> "" -> all_chars is_digit ds = true -> starts_with is_digit rest = false ->
  k rest (("pre", l ++ ds) :: ("pre_n", ds) :: ("pre_l", l) :: c) = Some x ->
  rmatch (Opt pre_re) (l ++ ds ++ rest) c k = Some x.
Proof.
  intros Hl Hne Hds Hrest Hk.
  apply rmatch_opt_take. unfold pre_re. apply acc_group, acc_seq, acc_opt_skip.
  { destruct Hl as [-> | [-> | ->]]; reflexivity. }
  apply acc_seq, acc_group.
  assert (K : forall T, T = ds ++ rest ->
    rmatch (Opt sep >> Opt (Group "pre_n" digits)) T (("pre_l", consumed (l ++ T) T) :: c)
      (fun s' c' => k s' (("pre", consumed (l ++ T) s') :: c')) = Some x).
  { intros T ->. apply sep_number; auto.
    rewrite consumed_append. rewrite <- append_assoc, consumed_append. exact Hk. }
  specialize (K _ eq_refl).
  destruct Hl as [-> | [-> | ->]]; cbn [alts].
  - apply acc_alt_l. apply (acc_lit "a"). exact K.
  - apply acc_alt_r; [reflexivity|]. apply acc_alt_l. apply (acc_lit "b"). exact K.
  - do 3 (apply acc_alt_r; [reflexivity|]). apply acc_alt_l. apply (acc_lit "rc"). exact K.
Qed.

Lemma pre_absent_post t c k : rmatch pre_re (".post" ++ t) c k = None.
Proof. vm_compute. reflexivity. Qed.
Lemma pre_absent_dev t c k : rmatch pre_re (".dev" ++ t) c k = None.
Proof. vm_compute. reflexivity. Qed.
Lemma pre_absent_local t c k : rmatch pre_re ("+" ++ t) c k = None.
Proof. vm_compute. reflexivity. Qed.
Lemma pre_absent_end c k : rmatch pre_re "" c k = None.
Proof. vm_compute. reflexivity. Qed.

Lemma consumed_append2 a b c : consumed (a ++ b ++ c) c = a ++ b.
Proof. now rewrite <- append_assoc, consumed_append. Qed.

Lemma post_present ds rest c k x :
  ds <> "" -> all_chars is_digit ds = true -> starts_with is_digit rest = false ->
  k rest (("post", ".post" ++ ds) :: ("post_n2", ds) :: ("post_l", "post") :: c) = Some x ->
  rmatch (Opt post_re) (".post" ++ ds ++ rest) c k = Some x.
Proof.
  intros Hne Hds Hrest Hk.
  apply rmatch_opt_take. unfold post_re. apply acc_group.
  apply acc_alt_r; [reflexivity|].
  apply acc_seq, rmatch_opt_take. apply (acc_chr is_sep "."); [reflexivity|].
  apply acc_seq, acc_group. cbn [alts]. apply acc_alt_l. apply (acc_lit "post").
  apply sep_number; auto.
  change (String "p" (String "o" (String "s" (String "t" (ds ++ rest)))))
    with ("post" ++ (ds ++ rest)).
  rewrite (consumed_append "post"), (consumed_append2 ".post"). exact Hk.
Qed.

Lemma post_absent_dev t c k : rmatch post_re (".dev" ++ t) c k = None.
Proof. vm_compute. reflexivity. Qed.
Lemma post_absent_local t c k : rmatch post_re ("+" ++ t) c k = None.
Proof. vm_compute. reflexivity. Qed.
Lemma post_absent_end c k : rmatch post_re "" c k = None.
Proof. vm_compute. reflexivity. Qed.

Lemma dev_present ds rest c k x :
  ds <> "" -> all_chars is_digit ds = true -> starts_with is_digit rest = false ->
  k rest (("dev", ".dev" ++ ds) :: ("dev_n", ds) :: ("dev_l", "dev") :: c) = Some x ->
  rmatch (Opt dev_re) (".dev" ++ ds ++ rest) c k = Some x.
Proof.
  intros Hne Hds Hrest Hk.
  apply rmatch_opt_take. unfold dev_re. apply acc_group.
  apply acc_seq, rmatch_opt_take. apply (acc_chr is_sep "."); [reflexivity|].
  apply acc_seq, acc_group. apply (acc_lit "dev").
  apply sep_number; auto.
  change (String "d" (String "e" (String "v" (ds ++ rest))))
    with ("dev" ++ (ds ++ rest)).
  rewrite (consumed_append "dev"), (consumed_append2 ".dev"). exact Hk.
Qed.

Lemma dev_absent_local t c k : rmatch dev_re ("+" ++ t) c k = None.
Proof. vm_compute. reflexivity. Qed.
Lemma dev_absent_end c k : rmatch dev_re "" c k = None.
Proof. vm_compute. reflexivity. Qed.
Lemma local_absent_end c k : rmatch local_re "" c k = None.
Proof. vm_compute. reflexivity. Qed.

Lemma digit_not_bang a : is_digit a = true -> ci "!" a = false.
Proof. destruct a as [[] [] [] [] [] [] [] []]; vm_compute; congruence. Qed.

Lemma epoch_present ds rest c k x :
  ds <> "" -> all_chars is_digit ds = true ->
  k rest (("epoch", ds) :: c) = Some x ->
  rmatch (Opt epoch_re) (ds ++ "!" ++ rest) c k = Some x.
Proof.
  intros Hne Hds Hk.
  apply rmatch_opt_take. unfold epoch_re. apply acc_seq, acc_group.
  apply plus_run; auto. rewrite consumed_append. apply (acc_lit "!"). exact Hk.
Qed.

Lemma epoch_absent ds rest c k :
  ds <> "" -> all_chars is_digit ds = true ->
  starts_with is_digit rest = false -> starts_with (ci "!") rest = false ->
  rmatch (Opt epoch_re) (ds ++ rest) c k = k (ds ++ rest) c.
Proof.
  intros Hne Hds Hd Hb. apply rmatch_opt_skip.
  destruct ds as [|a ds]; [congruence|].
  simpl in Hds. apply andb_prop in Hds. destruct Hds as [Ha Hds].
  unfold epoch_re, digits, Plus. cbn [append].
  change (rmatch (Group "epoch" (Chr is_digit >> Star (Chr is_digit)) >> Lit "!")
            (String a (ds ++ rest)) c k)
    with (rmatch (Chr is_digit) (String a (ds ++ rest)) c
            (fun s' c' => star_loop (rmatch (Chr is_digit)) (String.length s') s' c'
               (fun s'' c'' => rmatch (Lit "!") s''
                  (("epoch", consumed (String a (ds ++ rest)) s'') :: c'') k))).
  rewrite rmatch_chr_cons, Ha.
  apply star_loop_run_fail with (q := ci "!"); auto using digit_not_bang.
  intros t c' Ht. exact (rmatch_chr_fail (ci "!") t _ _ Ht).
Qed.

Lemma spaces_skip s c k : starts_with is_space s = false -> rmatch spaces s c k = k s c.
Proof.
  intro H. unfold spaces. change (rmatch (Star (Chr is_space)) s c k)
    with (star_loop (rmatch (Chr is_space)) (String.length s) s c k).
  apply star_loop_stop. intro k'. now apply rmatch_chr_fail.
Qed.

Lemma optv_skip s c k : starts_with (ci "v") s = false -> rmatch (Opt (Lit "v")) s c k = k s c.
Proof.
  intro H. apply rmatch_opt_skip. destruct s as [|a s]; [reflexivity|].
  simpl in *. now rewrite H.
Qed.

(** a sequence of fields over the set [p], joined by dots *)
Section Joined.
Variables (p : ascii -> bool) (sepr : regex).
Hypothesis p_dot : p "." = false.
Hypothesis sepr_dot : forall s c k, rmatch sepr (String "." s) c k = k s c.

Lemma concat_dotted f l : String.concat "." (f :: l) = f ++ dotted l.
Proof.
  revert f. induction l as [|g l IH]; intro f.
  - simpl. now rewrite append_nil_r.
  - change (String.concat "." (f :: g :: l)) with (f ++ "." ++ String.concat "." (g :: l)).
    now rewrite IH.
Qed.

Lemma starts_dotted l rest :
  starts_with p rest = false -> starts_with p (dotted l ++ rest) = false.
Proof. destruct l; simpl; auto. Qed.

Lemma dotted_run rest k x :
  starts_with p rest = false ->
  (forall c k', rmatch (sepr >> Plus (Chr p)) rest c k' = None) ->
  forall l n c,
    Forall (field_ok p) l ->
    String.length (dotted l ++ rest) <= n ->
    k rest c = Some x ->
    star_loop (rmatch (sepr >> Plus (Chr p))) n (dotted l ++ rest) c k = Some x.
Proof.
  intros Hrest Hstop. induction l as [|f l IH]; intros n c Hl Hn Hk.
  - cbn [dotted append]. now rewrite star_loop_stop.
  - inversion Hl as [|? ? [Hne Hf] Hl']; subst.
    destruct n as [|n]; [simpl in Hn; lia|].
    rewrite star_loop_S.
    cbn [dotted]. rewrite !append_assoc. cbn [append].
    change (rmatch (sepr >> Plus (Chr p)) (String "." (f ++ dotted l ++ rest)) c ?K)
      with (rmatch sepr (String "." (f ++ dotted l ++ rest)) c
              (fun s' c' => rmatch (Plus (Chr p)) s' c' K)).
    rewrite sepr_dot.
    erewrite plus_run; [reflexivity | assumption | assumption | now apply starts_dotted |].
    assert (L : Nat.ltb (String.length (dotted l ++ rest))
                  (String.length (String "." (f ++ dotted l ++ rest))) = true).
    { apply Nat.ltb_lt. simpl. rewrite (length_append f). lia. }
    rewrite L. apply IH; auto.
    simpl in Hn. rewrite !append_assoc in Hn. simpl in Hn.
    rewrite (length_append f) in Hn. lia.
Qed.

Lemma joined_run rest k x f l c :
  starts_with p rest = false ->
  (forall c k', rmatch (sepr >> Plus (Chr p)) rest c k' = None) ->
  Forall (field_ok p) (f :: l) ->
  k rest c = Some x ->
  rmatch (Plus (Chr p) >> Star (sepr >> Plus (Chr p)))
         (String.concat "." (f :: l) ++ rest) c k = Some x.
Proof.
  intros Hrest Hstop Hl Hk. inversion Hl as [|? ? [Hne Hf] Hl']; subst.
  rewrite concat_dotted, append_assoc.
  apply acc_seq. apply plus_run; auto; [now apply starts_dotted|].
  change (rmatch (Star (sepr >> Plus (Chr p))) (dotted l ++ rest) c k)
    with (star_loop (rmatch (sepr >> Plus (Chr p)))
            (String.length (dotted l ++ rest)) (dotted l ++ rest) c k).
  apply dotted_run; auto.
Qed.
End Joined.

(** ** Decimal strings *)

Lemma to_uint_nonnil n : N.to_uint n <> Nil.
Proof.
  destruct n; simpl; [discriminate | apply DecimalPos.Unsigned.to_uint_nonnil].
Qed.

Lemma string_of_uint_digits d : all_chars is_digit (NilEmpty.string_of_uint d) = true.
Proof. induction d; simpl; auto. Qed.

Lemma str_int_field n : field_ok is_digit (str_int n).
Proof.
  unfold field_ok, str_int. pose proof (to_uint_nonnil n) as H.
  destruct (N.to_uint n) eqn:E; try congruence;
    (split; [discriminate | apply (string_of_uint_digits (_ u))]).
Qed.

Lemma int_str_int n : int (str_int n) = Ok n.
Proof.
  unfold int, str_int. rewrite NilZero.usu by apply to_uint_nonnil.
  now rewrite DecimalN.Unsigned.of_to.
Qed.

Lemma str_int_starts n rest : starts_with is_digit (str_int n ++ rest) = true.
Proof.
  destruct (str_int_field n) as [Hne H].
  rewrite starts_with_append by assumption. now apply all_chars_starts.
Qed.

(** ** The match of a canonical string *)

Lemma regex_search_unfold s :
  _regex_search s
  = rmatch spaces s [] (fun s1 c1 => rmatch (Opt (Lit "v")) s1 c1 k_epoch).
Proof. reflexivity. Qed.

Lemma consumed_nil s : consumed s "" = s.
Proof. rewrite <- (append_nil_r s) at 1. apply consumed_append. Qed.

Lemma joined_all (p : ascii -> bool) sepr f l c k x :
  p "."%char = false ->
  (forall s c k, rmatch sepr (String "." s) c k = k s c) ->
  (forall c k', rmatch (sepr >> Plus (Chr p)) "" c k' = None) ->
  Forall (field_ok p) (f :: l) ->
  k "" c = Some x ->
  rmatch (Plus (Chr p) >> Star (sepr >> Plus (Chr p))) (String.concat "." (f :: l)) c k
  = Some x.
Proof.
  intros Hp Hs Hstop Hl Hk.
  rewrite <- (append_nil_r (String.concat "." (f :: l))).
  apply joined_run; auto.
Qed.

Lemma str_part_field p : part_ok p -> field_ok is_alnum (str_part p).
Proof.
  destruct p as [s|n]; simpl; [tauto|]. intros _.
  destruct (str_int_field n) as [Hne H]. split; [assumption|].
  clear Hne. induction (str_int n) as [|a t IH]; simpl in *; [reflexivity|].
  apply andb_prop in H. destruct H as [Ha Ht].
  unfold is_alnum. rewrite Ha, orb_true_r. auto.
Qed.

Lemma chain_local loc c :
  match loc with Some l => Forall part_ok l | None => True end ->
  k_local (seg_local loc) c = Some (caps_local loc ++ c)%list.
Proof.
  intro H. unfold k_local.
  destruct loc as [[|p l]|]; simpl seg_local; simpl caps_local;
    try (rewrite rmatch_opt_skip by apply local_absent_end;
         now rewrite spaces_skip).
  apply rmatch_opt_take. unfold local_re. apply acc_seq. apply (acc_lit "+").
  apply acc_group.
  change (map str_part (p :: l)) with (str_part p :: map str_part l).
  apply (joined_all is_alnum sep); try reflexivity.
  - change (str_part p :: map str_part l) with (map str_part (p :: l)).
    apply Forall_forall. intros f Hf. apply in_map_iff in Hf.
    destruct Hf as (q & <- & Hq). apply str_part_field.
    rewrite Forall_forall in H. now apply H.
  - rewrite consumed_nil. now rewrite spaces_skip.
Qed.

Lemma local_no_digit loc : starts_with is_digit (seg_local loc) = false.
Proof. destruct loc as [[|p l]|]; reflexivity. Qed.

Lemma chain_dev d loc c :
  local_wf loc ->
  k_dev (seg_dev d ++ seg_local loc) c = Some (caps_local loc ++ caps_dev d ++ c)%list.
Proof.
  intro H. unfold k_dev. destruct d as [[l n]|]; simpl caps_dev.
  - change (seg_dev (Some (l, n)) ++ seg_local loc)
      with (".dev" ++ str_int n ++ seg_local loc).
    destruct (str_int_field n) as [Hne Hd].
    apply dev_present; auto using local_no_digit. now apply chain_local.
  - simpl seg_dev. cbn [append app]. rewrite rmatch_opt_skip; [now apply chain_local|].
    destruct loc as [[|p l]|]; simpl seg_local;
      auto using dev_absent_end, dev_absent_local.
Qed.

Lemma dev_no_digit d loc : starts_with is_digit (seg_dev d ++ seg_local loc) = false.
Proof. destruct d as [[l n]|]; [reflexivity | apply local_no_digit]. Qed.

Lemma chain_post po d loc c :
  local_wf loc ->
  k_post (seg_post po ++ seg_dev d ++ seg_local loc) c
  = Some (caps_local loc ++ caps_dev d ++ caps_post po ++ c)%list.
Proof.
  intro H. unfold k_post. destruct po as [[l n]|]; simpl caps_post.
  - change (seg_post (Some (l, n)) ++ seg_dev d ++ seg_local loc)
      with (".post" ++ str_int n ++ seg_dev d ++ seg_local loc).
    destruct (str_int_field n) as [Hne Hd].
    apply post_present; auto using dev_no_digit. now apply chain_dev.
  - simpl seg_post. cbn [append app]. rewrite rmatch_opt_skip; [now apply chain_dev|].
    destruct d as [[l n]|]; simpl seg_dev; [apply post_absent_dev|].
    destruct loc as [[|p l]|]; simpl seg_local;
      auto using post_absent_end, post_absent_local.
Qed.

Lemma post_no_digit po d loc :
  starts_with is_digit (seg_post po ++ seg_dev d ++ seg_local loc) = false.
Proof. destruct po as [[l n]|]; [reflexivity | apply dev_no_digit]. Qed.

Lemma chain_pre p po d loc c :
  pre_wf p -> local_wf loc ->
  k_pre (seg_pre p ++ seg_post po ++ seg_dev d ++ seg_local loc) c
  = Some (caps_local loc ++ caps_dev d ++ caps_post po ++ caps_pre p ++ c)%list.
Proof.
  intros Hp H. unfold k_pre. destruct p as [[l n]|]; simpl caps_pre.
  - unfold seg_pre. rewrite append_assoc. destruct (str_int_field n) as [Hne Hd].
    apply pre_present; auto using post_no_digit. now apply chain_post.
  - simpl seg_pre. cbn [append app]. rewrite rmatch_opt_skip; [now apply chain_post|].
    destruct po as [[l n]|]; simpl seg_post; [apply pre_absent_post|].
    destruct d as [[l n]|]; simpl seg_dev; [apply pre_absent_dev|].
    destruct loc as [[|q l]|]; simpl seg_local;
      auto using pre_absent_end, pre_absent_local.
Qed.

Lemma after_release_no_digit p po d loc :
  pre_wf p -> starts_with is_digit (after_release p po d loc) = false.
Proof.
  unfold after_release. destruct p as [[l n]|]; simpl seg_pre.
  - intros [-> | [-> | ->]]; reflexivity.
  - intros _. apply post_no_digit.
Qed.

Lemma after_release_no_bang p po d loc :
  pre_wf p -> starts_with (ci "!") (after_release p po d loc) = false.
Proof.
  unfold after_release. destruct p as [[l n]|]; simpl seg_pre.
  - intros [-> | [-> | ->]]; reflexivity.
  - intros _. destruct po as [[l n]|]; [reflexivity|].
    destruct d as [[l n]|]; [reflexivity|].
    destruct loc as [[|q l]|]; reflexivity.
Qed.

Lemma after_release_stop p po d loc c k :
  pre_wf p ->
  rmatch (Lit "." >> Plus (Chr is_digit)) (after_release p po d loc) c k = None.
Proof.
  unfold after_release. destruct p as [[l n]|]; simpl seg_pre.
  - intros [-> | [-> | ->]]; reflexivity.
  - intros _. destruct po as [[l n]|]; [reflexivity|].
    destruct d as [[l n]|]; [reflexivity|].
    destruct loc as [[|q l]|]; reflexivity.
Qed.

Lemma release_fields r : Forall (field_ok is_digit) (map str_int r).
Proof.
  apply Forall_forall. intros f Hf. apply in_map_iff in Hf.
  destruct Hf as (n & <- & _). apply str_int_field.
Qed.

Lemma chain_release r p po d loc c :
  r <> [] -> pre_wf p -> local_wf loc ->
  k_release (seg_release r ++ after_release p po d loc) c
  = Some (caps_local loc ++ caps_dev d ++ caps_post po ++ caps_pre p
          ++ ("release", seg_release r) :: c)%list.
Proof.
  intros Hr Hp H. unfold k_release, release_re, seg_release.
  destruct r as [|n r]; [congruence|]. apply acc_group.
  change (map str_int (n :: r)) with (str_int n :: map str_int r).
  apply (joined_run is_digit (Lit ".")); try reflexivity.
  - now apply after_release_no_digit.
  - intros c' k'. now apply after_release_stop.
  - apply (release_fields (n :: r)).
  - rewrite consumed_append. now apply chain_pre.
Qed.

Lemma digit_no_bang_start ds rest :
  field_ok is_digit ds -> starts_with (ci "!") (ds ++ rest) = false.
Proof.
  intros [Hne H]. destruct ds as [|a ds]; [congruence|]. simpl in *.
  apply andb_prop in H. now apply digit_not_bang.
Qed.

Lemma chain_epoch e r p po d loc c :
  r <> [] -> pre_wf p -> local_wf loc ->
  k_epoch (seg_epoch e ++ seg_release r ++ after_release p po d loc) c
  = Some (caps_local loc ++ caps_dev d ++ caps_post po ++ caps_pre p
          ++ ("release", seg_release r) :: caps_epoch e ++ c)%list.
Proof.
  intros Hr Hp H. unfold k_epoch, seg_epoch, caps_epoch.
  destruct (negb (e =? 0)%N).
  - rewrite append_assoc. destruct (str_int_field e) as [Hne Hd].
    apply epoch_present; auto. now apply chain_release.
  - cbn [append]. rewrite app_nil_l. rewrite <- (chain_release r p po d loc c Hr Hp H).
    destruct r as [|n r]; [congruence|].
    unfold seg_release. change (map str_int (n :: r)) with (str_int n :: map str_int r).
    rewrite concat_dotted, append_assoc.
    destruct (str_int_field n) as [Hne Hd].
    apply epoch_absent; auto.
    + apply starts_dotted; [reflexivity | now apply after_release_no_digit].
    + destruct (map str_int r); [now apply after_release_no_bang | reflexivity].
Qed.

Lemma digit_not_space a : is_digit a = true -> is_space a = false.
Proof. destruct a as [[] [] [] [] [] [] [] []]; vm_compute; congruence. Qed.

Lemma digit_not_v a : is_digit a = true -> ci "v" a = false.
Proof. destruct a as [[] [] [] [] [] [] [] []]; vm_compute; congruence. Qed.

Lemma canonical_starts_with_digit e r rest :
  r <> [] -> starts_with is_digit (seg_epoch e ++ seg_release r ++ rest) = true.
Proof.
  intro Hr. unfold seg_epoch. destruct (negb (e =? 0)%N).
  - rewrite append_assoc. apply str_int_starts.
  - destruct r as [|n r]; [congruence|]. cbn [append]. unfold seg_release.
    change (map str_int (n :: r)) with (str_int n :: map str_int r).
    rewrite concat_dotted, append_assoc. apply str_int_starts.
Qed.

Lemma starts_with_impl (p q : ascii -> bool) s :
  (forall a, p a = true -> q a = false) -> starts_with p s = true -> starts_with q s = false.
Proof. destruct s as [|a s]; simpl; [discriminate | auto]. Qed.

(** the match of a canonical string and its groups *)
Lemma canonical_search e r p po d loc :
  r <> [] -> pre_wf p -> local_wf loc ->
  _regex_search (seg_epoch e ++ seg_release r ++ after_release p po d loc)
  = Some (caps_local loc ++ caps_dev d ++ caps_post po ++ caps_pre p
          ++ ("release", seg_release r) :: caps_epoch e)%list.
Proof.
  intros Hr Hp H. rewrite regex_search_unfold.
  pose proof (canonical_starts_with_digit e r (after_release p po d loc) Hr) as Hd.
  rewrite spaces_skip by (revert Hd; apply starts_with_impl, digit_not_space).
  rewrite optv_skip by (revert Hd; apply starts_with_impl, digit_not_v).
  rewrite chain_epoch by assumption. now rewrite app_nil_r.
Qed.

Lemma canonical_groups e r p po d loc :
  let m := (caps_local loc ++ caps_dev d ++ caps_post po ++ caps_pre p
            ++ ("release", seg_release r) :: caps_epoch e)%list in
  group "epoch" m = (if negb (e =? 0)%N then Some (str_int e) else None) /\
  group "release" m = Some (seg_release r) /\
  group "pre_l" m = option_map fst p /\
  group "pre_n" m = option_map (fun x => str_int (snd x)) p /\
  group "post_l" m = option_map (fun _ => "post") po /\
  group "post_n1" m = None /\
  group "post_n2" m = option_map (fun x => str_int (snd x)) po /\
  group "dev_l" m = option_map (fun _ => "dev") d /\
  group "dev_n" m = option_map (fun x => str_int (snd x)) d /\
  group "local" m = match loc with
                    | None | Some [] => None
                    | Some l => Some (String.concat "." (map str_part l))
                    end.
Proof.
  unfold caps_epoch.
  destruct loc as [[|q l]|], d as [[dl dn]|], po as [[pl pn]|], p as [[l' n']|],
           (negb (e =? 0)%N); repeat split; reflexivity.
Qed.

(** ** Parsing a canonical string *)

Lemma str_segments v :
  __str__ v
  = seg_epoch (epoch (_version v)) ++ seg_release (release (_version v))
    ++ after_release (pre (_version v)) (post (_version v)) (dev (_version v))
                     (local (_version v)).
Proof.
  destruct v as [[e r d p po loc] k].
  unfold __str__, after_release, Version_epoch, Version_release, Version_pre,
    Version_post, Version_dev, Version_local, seg_epoch, seg_release. simpl.
  destruct p as [[pl pn]|], po as [[pol pon]|], d as [[dl dn]|], loc as [[|q l]|];
    reflexivity.
Qed.

Section Split.
Variables p q : ascii -> bool.
Hypothesis disjoint : forall a, q a = true -> p a = false.

Lemma split_on_field f : all_chars q f = true -> split_on p f = [f].
Proof.
  induction f as [|a f IH]; simpl; [reflexivity|]. intro H.
  apply andb_prop in H. destruct H as [Ha Hf].
  rewrite (disjoint a Ha), (IH Hf). reflexivity.
Qed.

Lemma split_on_append f x s :
  all_chars q f = true -> p x = true ->
  split_on p (f ++ String x s) = f :: split_on p s.
Proof.
  intros Hf Hx. induction f as [|a f IH]; simpl.
  - now rewrite Hx.
  - simpl in Hf. apply andb_prop in Hf. destruct Hf as [Ha Hf].
    rewrite (disjoint a Ha), (IH Hf). reflexivity.
Qed.

Lemma split_on_concat f l :
  p "." = true -> Forall (field_ok q) (f :: l) ->
  split_on p (String.concat "." (f :: l)) = f :: l.
Proof.
  intros Hdot. revert f. induction l as [|g l IH]; intros f Hl.
  - simpl. inversion Hl as [|? ? [_ Hf] _]. now apply split_on_field.
  - inversion Hl as [|? ? [_ Hf] Hl']; subst.
    change (String.concat "." (f :: g :: l))
      with (f ++ String "." (String.concat "." (g :: l))).
    rewrite split_on_append by assumption. now rewrite IH.
Qed.
End Split.

Lemma digit_not_dot a : is_digit a = true -> is_dot a = false.
Proof. destruct a as [[] [] [] [] [] [] [] []]; vm_compute; congruence. Qed.

Lemma alnum_not_sep a : is_alnum a = true -> is_sep a = false.
Proof. destruct a as [[] [] [] [] [] [] [] []]; vm_compute; congruence. Qed.

Lemma mapM_int_str r : mapM int (map str_int r) = Ok r.
Proof.
  induction r as [|n r IH]; simpl; [reflexivity|].
  now rewrite int_str_int, IH.
Qed.

Lemma isdigit_str_int n : isdigit (str_int n) = true.
Proof.
  destruct (str_int_field n) as [Hne H]. unfold isdigit.
  destruct (str_int n); [congruence | assumption].
Qed.

Lemma local_part_of_str_part p : part_ok p -> local_part_of (str_part p) = Ok p.
Proof.
  destruct p as [s|n]; simpl; unfold local_part_of.
  - intros (_ & -> & ->). reflexivity.
  - intros _. now rewrite isdigit_str_int, int_str_int.
Qed.

Lemma mapM_local_parts l :
  Forall part_ok l -> mapM local_part_of (map str_part l) = Ok l.
Proof.
  induction 1 as [|p l Hp _ IH]; simpl; [reflexivity|].
  now rewrite local_part_of_str_part, IH.
Qed.

Lemma str_int_truthy n : truthy (Some (str_int n)) = true.
Proof.
  destruct (str_int_field n) as [Hne _]. simpl.
  destruct (String.eqb_spec (str_int n) ""); [congruence | reflexivity].
Qed.

(** every version that is built as the parser builds it is parsed back from
    its canonical string *)
Lemma init_str v : well_formed v -> __init__ (__str__ v) = Ok v.
Proof.
  intros [Hp Hpo Hd Hr Hl Hk]. rewrite str_segments.
  destruct v as [[e r d p po loc] k]. simpl in *.
  assert (Hloc : local_wf loc) by (destruct loc; [apply Hl | exact I]).
  unfold __init__. rewrite canonical_search by assumption.
  destruct (canonical_groups e r p po d loc)
    as (G1 & G2 & G3 & G4 & G5 & G6 & G7 & G8 & G9 & G10).
  cbv zeta in G1, G2, G3, G4, G5, G6, G7, G8, G9, G10.
  rewrite G1, G2, G3, G4, G5, G6, G7, G8, G9, G10. clear G1 G2 G3 G4 G5 G6 G7 G8 G9 G10.
  assert (E1 : (if truthy (if negb (e =? 0)%N then Some (str_int e) else None)
                then int (or_empty (if negb (e =? 0)%N then Some (str_int e) else None))
                else Ok 0%N) = Ok e).
  { destruct (N.eqb_spec e 0) as [->|]; simpl negb; cbv iota.
    - reflexivity.
    - rewrite str_int_truthy. apply int_str_int. }
  rewrite E1. cbn [bind].
  assert (E2 : mapM int (split_on is_dot (seg_release r)) = Ok r).
  { destruct r as [|n r]; [congruence|]. unfold seg_release.
    change (map str_int (n :: r)) with (str_int n :: map str_int r).
    rewrite (split_on_concat is_dot is_digit digit_not_dot);
      [apply (mapM_int_str (n :: r)) | reflexivity | apply (release_fields (n :: r))]. }
  rewrite E2. cbn [bind].
  assert (E3 : _parse_letter_version (option_map fst p)
                 (option_map (fun x => str_int (snd x)) p) = Ok p).
  { destruct p as [[l n]|]; [|reflexivity]. simpl.
    unfold _parse_letter_version.
    assert (T : truthy (Some l) = true) by (destruct Hp as [-> | [-> | ->]]; reflexivity).
    rewrite T. simpl. rewrite int_str_int. simpl.
    destruct Hp as [-> | [-> | ->]]; reflexivity. }
  rewrite E3. cbn [bind].
  assert (E4 : _parse_letter_version
                 (Some (or_empty (option_map (fun _ => "post") po)))
                 (Some (or_else None
                          (or_empty (option_map (fun x => str_int (snd x)) po))))
               = Ok po).
  { destruct po as [[l n]|]; [|reflexivity]. simpl in Hpo. subst l. simpl.
    unfold _parse_letter_version. simpl. change (or_else None (str_int n)) with (str_int n).
    rewrite int_str_int. reflexivity. }
  rewrite E4. cbn [bind].
  assert (E5 : _parse_letter_version
                 (Some (or_empty (option_map (fun _ => "dev") d)))
                 (Some (or_empty (option_map (fun x => str_int (snd x)) d)))
               = Ok d).
  { destruct d as [[l n]|]; [|reflexivity]. simpl in Hd. subst l. simpl.
    unfold _parse_letter_version. simpl. rewrite int_str_int. reflexivity. }
  rewrite E5. cbn [bind].
  assert (E6 : _parse_local_version
                 (Some (or_empty match loc with
                                 | None | Some [] => None
                                 | Some l => Some (String.concat "." (map str_part l))
                                 end)) = Ok loc).
  { destruct loc as [l|]; [|reflexivity].
    destruct Hl as (Hall & q & l' & -> & Hq). cbn [or_empty].
    unfold _parse_local_version.
    change (map str_part (q :: l')) with (str_part q :: map str_part l').
    rewrite (split_on_concat is_sep is_alnum alnum_not_sep); [|reflexivity|].
    - change (str_part q :: map str_part l') with (map str_part (q :: l')).
      rewrite (mapM_local_parts (q :: l') Hall). cbn [bind]. now rewrite Hq.
    - change (str_part q :: map str_part l') with (map str_part (q :: l')).
      apply Forall_forall. intros f Hf. apply in_map_iff in Hf.
      destruct Hf as (x & <- & Hx). apply str_part_field.
      rewrite Forall_forall in Hall. now apply Hall. }
  rewrite E6. cbn [bind]. rewrite Hk. reflexivity.
Qed.

(** ** The groups of a match *)

Lemma Matches_captured r s c c' :
  Matches r s c c' ->
  forall g v, group g c' = Some v -> group g c = Some v \/ captured r g v.
Proof.
  induction 1 as [c|p a c Hp|r1 r2 s1 s3 c c1 c2 _ IH1 _ IH2
                 |r1 r2 s c c' _ IH|r1 r2 s c c' _ IH
                 |r c|r s1 s3 c c1 c2 Hne _ IH1 _ IH2|name r s c c' M IH];
    intros g v Hg; simpl; auto.
  - destruct (IH2 g v Hg) as [H|H]; [|auto].
    destruct (IH1 g v H); auto.
  - destruct (IH g v Hg); auto.
  - destruct (IH g v Hg); auto.
  - destruct (IH2 g v Hg) as [H|H]; [|auto].
    destruct (IH1 g v H); auto.
  - simpl in Hg. destruct (String.eqb_spec name g) as [->|Hn].
    + inversion Hg; subst. right. left. eauto.
    + destruct (IH g v Hg); auto.
Qed.

Lemma has_cons g name v c : has g ((name, v) :: c) = (name =? g) || has g c.
Proof. unfold has. simpl. destruct (name =? g); reflexivity. Qed.

Lemma Matches_guarded g h r s c c' :
  Matches r s c c' ->
  forall seen,
    guarded g h seen r = true ->
    (seen = true -> has h c = true) ->
    (has g c = true -> has h c = true) ->
    (has g c' = true -> has h c' = true) /\
    (has h c = true -> has h c' = true) /\
    (sets h r = true -> has h c' = true).
Proof.
  induction 1 as [c|p a c Hp|r1 r2 s1 s3 c c1 c2 _ IH1 _ IH2
                 |r1 r2 s c c' _ IH|r1 r2 s c c' _ IH
                 |r c|r s1 s3 c c1 c2 Hne _ IH1 _ IH2|name r s c c' M IH];
    intros seen G Hseen Hinv; simpl in G |- *.
  - repeat split; auto; discriminate.
  - repeat split; auto; discriminate.
  - apply andb_prop in G. destruct G as [G1 G2].
    destruct (IH1 seen G1 Hseen Hinv) as (I1 & M1 & S1).
    destruct (IH2 (seen || sets h r1) G2) as (I2 & M2 & S2); auto.
    { intro E. apply orb_prop in E. destruct E; auto. }
    repeat split; auto.
    intro E. apply orb_prop in E. destruct E; auto.
  - apply andb_prop in G. destruct G as [G1 G2].
    destruct (IH seen G1 Hseen Hinv) as (I1 & M1 & S1).
    repeat split; auto. intro E. apply andb_prop in E. tauto.
  - apply andb_prop in G. destruct G as [G1 G2].
    destruct (IH seen G2 Hseen Hinv) as (I1 & M1 & S1).
    repeat split; auto. intro E. apply andb_prop in E. tauto.
  - repeat split; auto; discriminate.
  - destruct (IH1 seen G Hseen Hinv) as (I1 & M1 & S1).
    destruct (IH2 seen G) as (I2 & M2 & S2); auto.
  - apply andb_prop in G. destruct G as [G1 G2].
    destruct (IH seen G1 Hseen Hinv) as (I1 & M1 & S1).
    rewrite !has_cons. repeat split.
    + intro E. apply orb_prop in E. destruct E as [E|E].
      * rewrite E in G2. simpl in G2. apply orb_prop in G2.
        destruct G2 as [G2|G2]; [rewrite (M1 (Hseen G2)) | rewrite (S1 G2)];
          apply orb_true_r.
      * rewrite (I1 E). apply orb_true_r.
    + intro E. rewrite (M1 E). apply orb_true_r.
    + intro E. apply orb_prop in E. destruct E as [->|E]; [reflexivity|].
      rewrite (S1 E). apply orb_true_r.
Qed.

Lemma Matches_star_chr p s c c' :
  Matches (Star (Chr p)) s c c' -> all_chars p s = true.
Proof.
  remember (Star (Chr p)) as r eqn:E. intro M. revert E.
  induction M as [| | | | | |r s1 s3 c c1 c2 Hne M1 _ M2 IH2|]; intro E;
    try discriminate; [reflexivity|].
  inversion E; subst. inversion M1 as [|? ? ? Hp| | | | | |]; subst. simpl.
  rewrite Hp. now apply IH2.
Qed.

Lemma Matches_plus_chr p s c c' :
  Matches (Plus (Chr p)) s c c' -> field_ok p s.
Proof.
  unfold Plus. intro M. inversion M as [| |? ? s1 s2 ? ? ? M1 M2| | | | |]; subst.
  inversion M1 as [|? ? ? Hp| | | | | |]; subst. apply Matches_star_chr in M2.
  split; [discriminate|]. simpl. now rewrite Hp.
Qed.

Lemma Matches_lit w : forall s c c', Matches (Lit w) s c c' -> lower s = lower w.
Proof.
  induction w as [|a w IH]; intros s c c' M; simpl in M.
  - inversion M; reflexivity.
  - inversion M as [| |? ? s1 s2 ? ? ? M1 M2| | | | |]; subst.
    inversion M1 as [|? ? ? Hp| | | | | |]; subst. simpl.
    f_equal; [now apply Ascii.eqb_eq | now apply IH with c1 c'].
Qed.

Lemma Matches_alts l : forall s c c',
  Matches (alts l) s c c' -> exists w, In w l /\ lower s = lower w.
Proof.
  induction l as [|w l IH]; intros s c c' M.
  - simpl in M. inversion M; discriminate.
  - destruct l as [|w' l].
    + simpl in M. apply Matches_lit in M. exists w. simpl. auto.
    + change (alts (w :: w' :: l)) with (Alt (Lit w) (alts (w' :: l))) in M.
      inversion M as [| | |? ? ? ? ? M1|? ? ? ? ? M2| | |]; subst.
      * exists w. split; [simpl; auto | now apply Matches_lit with c c'].
      * destruct (IH _ _ _ M2) as (x & Hx & E).
        exists x. split; [now right | exact E].
Qed.

Lemma search_matches raw m :
  _regex_search raw = Some m -> exists body, Matches _regex body [] m.
Proof.
  unfold _regex_search. intro H. apply rmatch_sound in H.
  destruct H as (body & tail & c & _ & M & H).
  destruct (at_end tail); [|discriminate]. inversion H; subst. eauto.
Qed.

Ltac captured_cases H :=
  unfold _regex, VERSION_PATTERN, spaces, epoch_re, release_re, pre_re, post_re,
    dev_re, local_re, digits, alnums, sep, Opt, Plus in H;
  cbn [captured Lit alts] in H;
  repeat match type of H with
         | _ \/ _ => destruct H as [H|H]
         | False => contradiction
         | _ /\ _ => let E := fresh "E" in destruct H as [E H]; try discriminate E; clear E
         end.

Lemma captured_group raw m g v :
  _regex_search raw = Some m -> group g m = Some v -> captured _regex g v.
Proof.
  intros S G. apply search_matches in S. destruct S as [body M].
  destruct (Matches_captured _ _ _ _ M _ _ G) as [H|H]; [discriminate | exact H].
Qed.

Lemma group_pre_l raw m v :
  _regex_search raw = Some m -> group "pre_l" m = Some v ->
  exists w, In w ["a"; "b"; "c"; "rc"; "alpha"; "beta"; "pre"; "preview"] /\
            lower v = lower w.
Proof.
  intros S G. pose proof (captured_group _ _ _ _ S G) as H.
  captured_cases H. destruct H as (c & c' & H).
  now apply (Matches_alts ["a"; "b"; "c"; "rc"; "alpha"; "beta"; "pre"; "preview"]) in H.
Qed.

Lemma group_post_l raw m v :
  _regex_search raw = Some m -> group "post_l" m = Some v ->
  exists w, In w ["post"; "rev"; "r"] /\ lower v = lower w.
Proof.
  intros S G. pose proof (captured_group _ _ _ _ S G) as H.
  captured_cases H. destruct H as (c & c' & H).
  now apply (Matches_alts ["post"; "rev"; "r"]) in H.
Qed.

Lemma group_dev_l raw m v :
  _regex_search raw = Some m -> group "dev_l" m = Some v -> lower v = "dev".
Proof.
  intros S G. pose proof (captured_group _ _ _ _ S G) as H.
  captured_cases H. destruct H as (c & c' & H).
  now apply (Matches_lit "dev") in H.
Qed.

Lemma group_guarded g h raw m :
  guarded g h false _regex = true ->
  _regex_search raw = Some m -> group h m = None -> group g m = None.
Proof.
  intros G S Hh. apply search_matches in S. destruct S as [body M].
  destruct (Matches_guarded g h _ _ _ _ M false G) as (I & _ & _);
    [discriminate | discriminate |].
  unfold has in I. rewrite Hh in I. simpl in I.
  destruct (group g m); [|reflexivity]. discriminate (I eq_refl).
Qed.

Lemma group_pre_n raw m :
  _regex_search raw = Some m -> group "pre_l" m = None -> group "pre_n" m = None.
Proof. apply group_guarded. reflexivity. Qed.

Lemma group_dev_n raw m :
  _regex_search raw = Some m -> group "dev_l" m = None -> group "dev_n" m = None.
Proof. apply group_guarded. reflexivity. Qed.

(** the fields of a matched local segment *)
Lemma Matches_local_fields t c c' :
  Matches (Star (sep >> alnums)) t c c' ->
  forall f, all_chars is_alnum f = true ->
  exists l, split_on is_sep (f ++ t) = f :: l /\ Forall (field_ok is_alnum) l.
Proof.
  remember (Star (sep >> alnums)) as r eqn:E. intro M. revert E.
  induction M as [| | | | | |r s1 s3 c c1 c2 Hne M1 _ M2 IH2|]; intro E;
    try discriminate; intros f Hf.
  - exists []. rewrite append_nil_r.
    rewrite (split_on_field is_sep is_alnum alnum_not_sep); auto.
  - inversion E; subst.
    inversion M1 as [| |? ? x g ? ? ? Mx Mg| | | | |]; subst.
    inversion Mx as [|? a ? Ha| | | | | |]; subst.
    apply Matches_plus_chr in Mg. destruct Mg as [Hg Hgf].
    destruct (IH2 eq_refl g Hgf) as (l & Hl & Hall).
    exists (g :: l). split; [|constructor; [split|]; auto].
    cbn [append].
    rewrite (split_on_append is_sep is_alnum alnum_not_sep) by assumption.
    now rewrite Hl.
Qed.

Lemma group_local raw m v :
  _regex_search raw = Some m -> group "local" m = Some v ->
  exists f l, split_on is_sep v = f :: l /\ Forall (field_ok is_alnum) (f :: l).
Proof.
  intros S G. pose proof (captured_group _ _ _ _ S G) as H.
  captured_cases H. destruct H as (c & c' & H).
  inversion H as [| |? ? f t ? ? ? Mf Mt| | | | |]; subst.
  apply (Matches_plus_chr is_alnum) in Mf.
  destruct (Matches_local_fields _ _ _ Mt f (proj2 Mf)) as (l & Hl & Hall).
  exists f, l. split; [exact Hl | now constructor].
Qed.

(** ** The versions that the parser builds *)

Lemma lower_char_idem a : lower_char (lower_char a) = lower_char a.
Proof. destruct a as [[] [] [] [] [] [] [] []]; vm_compute; reflexivity. Qed.

Lemma lower_char_alnum a : is_alnum (lower_char a) = is_alnum a.
Proof. destruct a as [[] [] [] [] [] [] [] []]; vm_compute; reflexivity. Qed.

Lemma lower_char_digit a : is_digit (lower_char a) = is_digit a.
Proof. destruct a as [[] [] [] [] [] [] [] []]; vm_compute; reflexivity. Qed.

Lemma lower_idem s : lower (lower s) = lower s.
Proof. induction s; simpl; [reflexivity|]. now rewrite lower_char_idem, IHs. Qed.

Lemma all_alnum_lower s : all_chars is_alnum (lower s) = all_chars is_alnum s.
Proof. induction s; simpl; [reflexivity|]. now rewrite lower_char_alnum, IHs. Qed.

Lemma all_digit_lower s : all_chars is_digit (lower s) = all_chars is_digit s.
Proof. induction s; simpl; [reflexivity|]. now rewrite lower_char_digit, IHs. Qed.

Lemma isdigit_lower s : isdigit (lower s) = isdigit s.
Proof.
  destruct s as [|a s]; [reflexivity|].
  change (isdigit (lower (String a s))) with (all_chars is_digit (lower (String a s))).
  apply all_digit_lower.
Qed.

Lemma local_part_of_ok f p :
  field_ok is_alnum f -> local_part_of f = Ok p -> part_ok p.
Proof.
  intros [Hne Hf]. unfold local_part_of. destruct (isdigit f) eqn:D; simpl.
  - intro H. bind_inv H. inversion H; subst. exact I.
  - intro H. inversion H; subst. simpl. repeat split.
    + destruct f; [congruence | discriminate].
    + now rewrite all_alnum_lower.
    + now rewrite isdigit_lower.
    + apply lower_idem.
Qed.

Lemma mapM_Forall {A B} (f : A -> result B) (P : A -> Prop) (Q : B -> Prop) :
  (forall a b, P a -> f a = Ok b -> Q b) ->
  forall l l', Forall P l -> mapM f l = Ok l' -> Forall Q l'.
Proof.
  intros HPQ. induction l as [|a l IH]; intros l' Hl H; simpl in H.
  - inversion H. constructor.
  - inversion Hl; subst. do 2 bind_inv H. inversion H; subst.
    constructor; eauto.
Qed.

Lemma mapM_nonempty {A B} (f : A -> result B) l l' :
  mapM f l = Ok l' -> l <> [] -> l' <> [].
Proof.
  destruct l as [|a l]; [congruence|]. simpl. intros H _.
  do 2 bind_inv H. inversion H. discriminate.
Qed.

Lemma split_on_nonempty p s : split_on p s <> [].
Proof.
  destruct s as [|a s]; simpl; [discriminate|].
  destruct (p a); [discriminate|]. destruct (split_on p s); discriminate.
Qed.

Lemma lower_nonempty v w : lower v = lower w -> w <> "" -> truthy (Some v) = true.
Proof.
  intros E Hw. destruct v as [|a v]; [|reflexivity].
  destruct w; [congruence | discriminate].
Qed.

Lemma normalize_pre v w :
  In w ["a"; "b"; "c"; "rc"; "alpha"; "beta"; "pre"; "preview"] ->
  lower v = lower w ->
  truthy (Some v) = true /\
  (normalize_letter v = "a" \/ normalize_letter v = "b" \/ normalize_letter v = "rc").
Proof.
  intros Hw E. unfold normalize_letter. rewrite E.
  simpl in Hw.
  repeat (destruct Hw as [<-|Hw];
          [split; [now apply (lower_nonempty _ _ E) | vm_compute; auto]|]).
  contradiction.
Qed.

Lemma normalize_post v w :
  In w ["post"; "rev"; "r"] -> lower v = lower w ->
  truthy (Some v) = true /\ normalize_letter v = "post".
Proof.
  intros Hw E. unfold normalize_letter. rewrite E.
  simpl in Hw.
  repeat (destruct Hw as [<-|Hw];
          [split; [now apply (lower_nonempty _ _ E) | vm_compute; auto]|]).
  contradiction.
Qed.

Lemma normalize_dev v :
  lower v = "dev" -> truthy (Some v) = true /\ normalize_letter v = "dev".
Proof.
  intros E. unfold normalize_letter. rewrite E. split; [|reflexivity].
  now apply (lower_nonempty v "dev").
Qed.

Lemma parse_letter_truthy l number x :
  truthy (Some l) = true ->
  _parse_letter_version (Some l) number = Ok x ->
  exists n, x = Some (normalize_letter l, n).
Proof.
  intros T. unfold _parse_letter_version. rewrite T. simpl.
  intro H. bind_inv H. inversion H. eauto.
Qed.

Lemma parse_letter_empty number x :
  _parse_letter_version (Some "") number = Ok x ->
  x = None \/ exists n, x = Some ("post", n).
Proof.
  unfold _parse_letter_version. simpl.
  destruct (negb (truthy number)); simpl; intro H.
  - inversion H. auto.
  - bind_inv H. inversion H. eauto.
Qed.

(** the parser only builds well-formed versions *)
Lemma parsed_well_formed raw v : parsed raw v -> well_formed v.
Proof.
  unfold parsed, __init__. destruct (_regex_search raw) as [m|] eqn:S; [|discriminate].
  intro H. bind_inv H. rename E into Eepoch. bind_inv H. rename E into Erel.
  bind_inv H. rename E into Epre. bind_inv H. rename E into Epost.
  bind_inv H. rename E into Edev. bind_inv H. rename E into Eloc.
  bind_inv H. rename E into Ekey. inversion H; subst; clear H.
  constructor; simpl.
  - (* pre *)
    destruct (group "pre_l" m) as [l|] eqn:Gl.
    + destruct (group_pre_l _ _ _ S Gl) as (w & Hw & E).
      destruct (normalize_pre _ _ Hw E) as [T N].
      destruct (parse_letter_truthy _ _ _ T Epre) as [n ->]. exact N.
    + rewrite (group_pre_n _ _ S Gl) in Epre. inversion Epre. exact I.
  - (* post *)
    destruct (group "post_l" m) as [l|] eqn:Gl; simpl in Epost.
    + destruct (group_post_l _ _ _ S Gl) as (w & Hw & E).
      destruct (normalize_post _ _ Hw E) as [T N].
      destruct (parse_letter_truthy _ _ _ T Epost) as [n ->]. exact N.
    + destruct (parse_letter_empty _ _ Epost) as [->|[n ->]]; auto.
  - (* dev *)
    destruct (group "dev_l" m) as [l|] eqn:Gl; simpl in Edev.
    + destruct (normalize_dev _ (group_dev_l _ _ _ S Gl)) as [T N].
      destruct (parse_letter_truthy _ _ _ T Edev) as [n ->]. exact N.
    + rewrite (group_dev_n _ _ S Gl) in Edev. inversion Edev. exact I.
  - (* release *)
    destruct (group "release" m); [|discriminate].
    apply (mapM_nonempty _ _ _ Erel), split_on_nonempty.
  - (* local *)
    destruct x4 as [parts|]; [|exact I].
    unfold _parse_local_version in Eloc. bind_inv Eloc.
    destruct x4 as [|p parts']; [discriminate|].
    destruct (part_truthy p) eqn:Tp; [|discriminate]. simpl in Eloc.
    inversion Eloc; subst. split; [|eauto].
    destruct (group "local" m) as [l|] eqn:Gl; simpl in E.
    + destruct (group_local _ _ _ S Gl) as (f & fs & Hs & Hall).
      rewrite Hs in E.
      apply (mapM_Forall local_part_of (field_ok is_alnum) part_ok local_part_of_ok
               _ _ Hall E).
    + inversion E; subst. discriminate.
  - exact Ekey.
Qed.

(** ** C6: parsing the canonical string *)

(** C6. The round trip through the canonical string fails on sentences of
    the grammar for which [Version] raises: ["1.0.dev"] ([ValueError]) and
    ["1.0+abc"] ([IndexError]) have no version to render. For every ASCII
    raw string that [Version] does parse into a version [v], parsing
    [str(v)] succeeds and gives the segments (epoch, release, pre, post, dev,
    local) and the key of [v], and the same canonical string. *)
Theorem C6_canonical_string_parses_back :
  (in_grammar "1.0.dev" /\ __init__ "1.0.dev" = Raise ValueError /\
   in_grammar "1.0+abc" /\ __init__ "1.0+abc" = Raise IndexError) /\
  (forall raw v,
     all_chars is_ascii raw = true -> parsed raw v ->
     exists v', parsed (__str__ v) v' /\
                _version v' = _version v /\ _key v' = _key v /\
                __str__ v' = __str__ v).
Proof.
  split.
  - repeat split; try run; apply regex_search_in_grammar; vm_compute; discriminate.
  - intros raw v _ H. exists v. split; [|auto].
    apply init_str. now apply parsed_well_formed with raw.
Qed.

Lemma C6_witness :
  exists v v',
    parsed " v1!1.0-Preview_3-1.dev4+ABC.01 " v /\
    __str__ v = "1!1.0rc3.post1.dev4+abc.1" /\
    parsed (__str__ v) v' /\ _version v' = _version v.
Proof.
  destruct (__init__ " v1!1.0-Preview_3-1.dev4+ABC.01 ") as [v|] eqn:E;
    [|vm_compute in E; discriminate].
  destruct (proj2 C6_canonical_string_parses_back
              " v1!1.0-Preview_3-1.dev4+ABC.01 " v eq_refl E) as (v' & H1 & H2 & _).
  exists v, v'. split; [exact E|]. split; [|split; assumption].
  vm_compute in E. inversion E. reflexivity.
Defined.

(** ** The order on the keys without a string *)

Lemma tuple_compare_antisym a : forall b,
  tuple_compare b a = CompOpp (tuple_compare a b).
Proof.
  induction a as [|x a IH]; intros [|y b]; simpl; try reflexivity.
  rewrite (N.compare_antisym x y). destruct (x ?= y)%N; simpl; auto.
Qed.

Lemma tuple_compare_eq a : forall b, tuple_compare a b = Eq -> a = b.
Proof.
  induction a as [|x a IH]; intros [|y b]; simpl; try discriminate; auto.
  destruct (x ?= y)%N eqn:E; try discriminate.
  apply N.compare_eq in E. intro H. f_equal; auto.
Qed.

Lemma tuple_compare_trans a : forall b c,
  tuple_compare a b = Lt -> tuple_compare b c = Lt -> tuple_compare a c = Lt.
Proof.
  induction a as [|x a IH]; intros [|y b] [|z c]; simpl; try discriminate; auto.
  destruct (x ?= y)%N eqn:E1; try discriminate;
    destruct (y ?= z)%N eqn:E2; try discriminate; intros H1 H2.
  - apply N.compare_eq in E1, E2. subst. rewrite N.compare_refl. eauto.
  - apply N.compare_eq in E1. subst. now rewrite E2.
  - apply N.compare_eq in E2. subst. now rewrite E1.
  - rewrite N.compare_lt_iff in E1, E2.
    assert (L : (x < z)%N) by lia. apply N.compare_lt_iff in L. now rewrite L.
Qed.

Lemma tuple_compare_cons x y a b :
  tuple_compare (x :: a) (y :: b) = lex (x ?= y)%N (tuple_compare a b).
Proof. simpl. destruct (x ?= y)%N; reflexivity. Qed.

Lemma N_compare_succ x y : (N.succ x ?= N.succ y)%N = (x ?= y)%N.
Proof.
  destruct (N.compare_spec x y) as [->|L|L].
  - apply N.compare_refl.
  - apply N.compare_lt_iff. lia.
  - apply N.compare_gt_iff. lia.
Qed.

Lemma tuple_compare_release r1 : forall r2 t1 t2,
  tuple_compare (map N.succ r1 ++ 0%N :: t1)%list (map N.succ r2 ++ 0%N :: t2)%list
  = lex (tuple_compare r1 r2) (tuple_compare t1 t2).
Proof.
  induction r1 as [|x r1 IH]; intros [|y r2] t1 t2; simpl.
  - reflexivity.
  - destruct (N.succ y) eqn:E; [lia | reflexivity].
  - destruct (N.succ x) eqn:E; [lia | reflexivity].
  - rewrite N_compare_succ. destruct (x ?= y)%N; auto.
Qed.

Lemma rank_code_cmp op a b t1 t2 :
  rank_numeric a = true -> rank_numeric b = true ->
  forall rest,
  (rest = Ok (cmp_result op (tuple_compare t1 t2))) ->
  (if negb (rank_eq a b) then rank_richcmp op a b else rest)
  = Ok (cmp_result op (tuple_compare (rank_code a ++ t1)%list (rank_code b ++ t2)%list)).
Proof.
  intros Ha Hb rest ->.
  destruct a as [x| | |s], b as [y| | |t]; try discriminate; simpl;
    try (destruct op; reflexivity).
  destruct (N.eqb_spec x y) as [->|Hne]; simpl.
  - now rewrite N.compare_refl.
  - unfold rank_richcmp. simpl.
    destruct (x ?= y)%N eqn:E; [apply N.compare_eq in E; congruence | |];
      destruct op; reflexivity.
Qed.

Lemma key_richcmp_code op a b :
  key_numeric a = true -> key_numeric b = true ->
  key_richcmp op a b = Ok (cmp_result op (tuple_compare (key_code a) (key_code b))).
Proof.
  unfold key_numeric. intros Ha Hb.
  repeat (apply andb_prop in Ha; destruct Ha as [Ha ?]).
  repeat (apply andb_prop in Hb; destruct Hb as [Hb ?]).
  unfold key_richcmp, key_code. rewrite tuple_compare_cons.
  destruct (N.eqb_spec (key_epoch a) (key_epoch b)) as [E|E]; simpl negb; cbv iota.
  2:{ destruct (key_epoch a ?= key_epoch b)%N eqn:C;
        [apply N.compare_eq in C; congruence | reflexivity | reflexivity]. }
  rewrite E, N.compare_refl. simpl lex. rewrite tuple_compare_release.
  destruct (tuple_compare (key_release a) (key_release b)); simpl; try reflexivity.
  rewrite <- (app_nil_r (rank_code (key_local a))),
          <- (app_nil_r (rank_code (key_local b))).
  repeat (apply rank_code_cmp; [assumption | assumption|]).
  reflexivity.
Qed.

Lemma cmpkey_numeric e r p po d l k :
  _cmpkey e r p po d l = Ok k ->
  rank_numeric (key_pre k) = true /\ rank_numeric (key_post k) = true /\
  rank_numeric (key_dev k) = true.
Proof.
  unfold _cmpkey. intro H. bind_inv H. inversion H; subst; simpl.
  destruct p, po, d; auto.
Qed.

Lemma parsed_numeric raw v :
  parsed raw v -> rank_numeric (key_local (_key v)) = true ->
  key_numeric (_key v) = true.
Proof.
  intros P L. apply parsed_key, cmpkey_numeric in P. destruct P as (P1 & P2 & P3).
  unfold key_numeric. now rewrite P1, P2, P3, L.
Qed.

(** on parsed versions whose local rank is not a string, the comparisons are
    defined and [<] is a strict total order up to [==] *)
Lemma order_of_numeric_keys raw1 raw2 a b :
  parsed raw1 a -> parsed raw2 b ->
  rank_numeric (key_local (_key a)) = true ->
  rank_numeric (key_local (_key b)) = true ->
  exists c,
    (forall op, _compare a b (key_richcmp op) = Ok (cmp_result op c)) /\
    (forall op, _compare b a (key_richcmp op) = Ok (cmp_result op (CompOpp c))) /\
    c = tuple_compare (key_code (_key a)) (key_code (_key b)).
Proof.
  intros Pa Pb La Lb.
  pose proof (parsed_numeric _ _ Pa La) as Na.
  pose proof (parsed_numeric _ _ Pb Lb) as Nb.
  exists (tuple_compare (key_code (_key a)) (key_code (_key b))).
  unfold _compare. repeat split; intro op.
  - now apply key_richcmp_code.
  - rewrite <- tuple_compare_antisym. now apply key_richcmp_code.
Qed.

Lemma cmp_result_exactly_one c :
  exactly_one (cmp_result Py_LT c) (cmp_result Py_EQ c) (cmp_result Py_GT c) = true.
Proof. destruct c; reflexivity. Qed.

Lemma cmp_result_lt c : cmp_result Py_LT c = true -> c = Lt.
Proof. destruct c; simpl; congruence. Qed.

(** ** C8: the order on parsed versions *)

(** C8. The comparison of two parsed versions is not always defined:
    [Version("1.0+a.b")] has the string ["b"] as its local rank,
    [Version("1.0")] has [inf], and every ordering between the two raises
    [TypeError]. On the parsed versions whose local rank is not a string the
    comparisons are defined, exactly one of [<], [==], [>] holds, and [<]
    is asymmetric and transitive. *)
Theorem C8_order_on_parsed_versions :
  (exists a b,
     parsed "1.0+a.b" a /\ parsed "1.0" b /\
     key_local (_key a) = RStr "b" /\ key_local (_key b) = RInf /\
     __lt__ a b = Raise TypeError /\ __gt__ a b = Raise TypeError /\
     __lt__ b a = Raise TypeError /\ __gt__ b a = Raise TypeError /\
     __eq__ a b = Ok false) /\
  (forall raw1 raw2 raw3 a b c,
     parsed raw1 a -> parsed raw2 b -> parsed raw3 c ->
     rank_numeric (key_local (_key a)) = true ->
     rank_numeric (key_local (_key b)) = true ->
     rank_numeric (key_local (_key c)) = true ->
     (exists lt eq gt,
        __lt__ a b = Ok lt /\ __eq__ a b = Ok eq /\ __gt__ a b = Ok gt /\
        exactly_one lt eq gt = true) /\
     (__lt__ a b = Ok true -> __lt__ b a = Ok false /\ __gt__ b a = Ok true) /\
     (__lt__ a b = Ok true -> __lt__ b c = Ok true -> __lt__ a c = Ok true)).
Proof.
  split.
  - do 2 eexists. unfold parsed. repeat (split; [run|]). run.
  - intros raw1 raw2 raw3 a b c Pa Pb Pc La Lb Lc.
    destruct (order_of_numeric_keys _ _ _ _ Pa Pb La Lb) as (x & Hab & Hba & Ex).
    destruct (order_of_numeric_keys _ _ _ _ Pb Pc Lb Lc) as (y & Hbc & _ & Ey).
    destruct (order_of_numeric_keys _ _ _ _ Pa Pc La Lc) as (z & Hac & _ & Ez).
    unfold __lt__, __eq__, __gt__. rewrite !Hab, !Hba, !Hbc, !Hac.
    split; [|split].
    + do 3 eexists. repeat (split; [reflexivity|]). apply cmp_result_exactly_one.
    + intro H. assert (X : x = Lt) by (apply cmp_result_lt; congruence).
      rewrite X. split; reflexivity.
    + intros H1 H2.
      assert (X : x = Lt) by (apply cmp_result_lt; congruence).
      assert (Y : y = Lt) by (apply cmp_result_lt; congruence).
      rewrite Ez, (tuple_compare_trans _ (key_code (_key b)));
        [reflexivity | congruence | congruence].
Qed.

Lemma C8_witness :
  exists a b c,
    parsed "1.0a1" a /\ parsed "1.0" b /\ parsed "1.0.post1" c /\
    __lt__ a b = Ok true /\ __lt__ b c = Ok true /\ __lt__ a c = Ok true.
Proof.
  destruct (__init__ "1.0a1") as [a|] eqn:Ea; [|vm_compute in Ea; discriminate].
  destruct (__init__ "1.0") as [b|] eqn:Eb; [|vm_compute in Eb; discriminate].
  destruct (__init__ "1.0.post1") as [c|] eqn:Ec; [|vm_compute in Ec; discriminate].
  exists a, b, c. split; [exact Ea|]. split; [exact Eb|]. split; [exact Ec|].
  assert (Hab : __lt__ a b = Ok true)
    by (vm_compute in Ea, Eb; inversion Ea; inversion Eb; reflexivity).
  assert (Hbc : __lt__ b c = Ok true)
    by (vm_compute in Eb, Ec; inversion Eb; inversion Ec; reflexivity).
  split; [exact Hab|]. split; [exact Hbc|].
  assert (La : rank_numeric (key_local (_key a)) = true)
    by (vm_compute in Ea; inversion Ea; reflexivity).
  assert (Lb : rank_numeric (key_local (_key b)) = true)
    by (vm_compute in Eb; inversion Eb; reflexivity).
  assert (Lc : rank_numeric (key_local (_key c)) = true)
    by (vm_compute in Ec; inversion Ec; reflexivity).
  exact (proj2 (proj2 (proj2 C8_order_on_parsed_versions _ _ _ a b c Ea Eb Ec La Lb Lc))
           Hab Hbc).
Defined.

(** * Further properties of the module *)

Lemma cmpkey_local_length e r p po d l k :
  _cmpkey e r p po d (Some l) = Ok k -> l = [] \/ 2 <= List.length l.
Proof.
  unfold _cmpkey. destruct l as [|x [|y l]]; simpl; intro H; auto.
  - discriminate.
  - right. lia.
Qed.

(** ** The versions that the constructor returns *)

(** X1. Every version that the constructor returns for an ASCII string has
    normalised segments: the pre-release tag is [a], [b] or [rc], the post tag is [post], the dev
    tag is [dev], the release is not empty, every part of the local segment
    is a number or a non-empty lower-case alphanumeric string that is not a
    number, its first part is truthy, the key is the one [_cmpkey] builds from
    the segments, and a local segment has at least two parts. *)
Theorem X1_parsed_versions_are_normalized raw v :
  all_chars is_ascii raw = true -> parsed raw v ->
  well_formed v /\
  match local (_version v) with
  | Some l => 2 <= List.length l
  | None => True
  end.
Proof.
  intros _ P. pose proof (parsed_well_formed _ _ P) as W. split; [exact W|].
  destruct W as [_ _ _ _ Hl Hk]. destruct (local (_version v)) as [l|]; [|exact I].
  destruct (cmpkey_local_length _ _ _ _ _ _ _ Hk) as [->|H]; [|exact H].
  destruct Hl as (_ & p & l' & E & _). discriminate.
Qed.

Lemma X1_witness :
  exists v,
    parsed "1.0-Preview_3+Ubuntu-07" v /\ well_formed v /\
    local (_version v) = Some [LStr "ubuntu"; LInt 7].
Proof.
  destruct (__init__ "1.0-Preview_3+Ubuntu-07") as [v|] eqn:E;
    [|vm_compute in E; discriminate].
  exists v. split; [exact E|].
  split; [exact (proj1 (X1_parsed_versions_are_normalized
                         "1.0-Preview_3+Ubuntu-07" v eq_refl E))|].
  vm_compute in E. inversion E. reflexivity.
Defined.

(** X2. The canonical string determines the version: two versions that the
    constructor returned for ASCII strings and that have the same [str] are
    the same version, segments and key. *)
Theorem X2_canonical_string_is_injective raw1 raw2 a b :
  all_chars is_ascii raw1 = true -> all_chars is_ascii raw2 = true ->
  parsed raw1 a -> parsed raw2 b -> __str__ a = __str__ b -> a = b.
Proof.
  intros _ _ Pa Pb E.
  pose proof (init_str a (parsed_well_formed _ _ Pa)) as Ha.
  pose proof (init_str b (parsed_well_formed _ _ Pb)) as Hb.
  rewrite E in Ha. congruence.
Qed.

Lemma X2_witness :
  exists a b, parsed "1.0RC1" a /\ parsed " v1.0-c.1 " b /\ a = b.
Proof.
  destruct (__init__ "1.0RC1") as [a|] eqn:Ea; [|vm_compute in Ea; discriminate].
  destruct (__init__ " v1.0-c.1 ") as [b|] eqn:Eb; [|vm_compute in Eb; discriminate].
  exists a, b. split; [exact Ea|]. split; [exact Eb|].
  apply (X2_canonical_string_is_injective "1.0RC1" " v1.0-c.1 " a b
           eq_refl eq_refl Ea Eb).
  vm_compute in Ea, Eb. inversion Ea; inversion Eb. reflexivity.
Defined.

(** ** [public] and [base_version] *)

Lemma split_once_no_sep (p q : ascii -> bool) f rest :
  (forall a, q a = true -> p a = false) ->
  all_chars q f = true ->
  hd "" (split_once p (f ++ rest)) = f ++ hd "" (split_once p rest).
Proof.
  intros D. induction f as [|a f IH]; simpl; intro H; [reflexivity|].
  apply andb_prop in H. destruct H as [Ha Hf]. rewrite (D a Ha).
  specialize (IH Hf). destruct (split_once p (f ++ rest)); simpl in *; congruence.
Qed.

Lemma all_chars_append p a b :
  all_chars p (a ++ b) = all_chars p a && all_chars p b.
Proof. induction a; simpl; [reflexivity|]. now rewrite IHa, andb_assoc. Qed.

Lemma all_chars_impl (p q : ascii -> bool) s :
  (forall a, p a = true -> q a = true) -> all_chars p s = true -> all_chars q s = true.
Proof.
  intro H. induction s; simpl; [reflexivity|]. intro E. apply andb_prop in E.
  destruct E as [E1 E2]. now rewrite (H _ E1), IHs.
Qed.

Lemma digit_not_plus a : is_digit a = true -> not_plus a = true.
Proof. destruct a as [[] [] [] [] [] [] [] []]; vm_compute; congruence. Qed.

Lemma str_int_no_plus n : all_chars not_plus (str_int n) = true.
Proof.
  apply (all_chars_impl is_digit); [apply digit_not_plus | apply str_int_field].
Qed.

Lemma seg_release_no_plus r : all_chars not_plus (seg_release r) = true.
Proof.
  unfold seg_release. induction r as [|n r IH]; [reflexivity|].
  destruct r as [|m r]; [apply str_int_no_plus|].
  change (String.concat "." (map str_int (n :: m :: r)))
    with (str_int n ++ "." ++ String.concat "." (map str_int (m :: r))).
  rewrite all_chars_append, str_int_no_plus. simpl. exact IH.
Qed.

Lemma seg_public_no_plus v :
  pre_wf (pre v) -> all_chars not_plus (seg_public v) = true.
Proof.
  intro Hp. unfold seg_public.
  rewrite !all_chars_append, seg_release_no_plus.
  assert (E : all_chars not_plus (seg_epoch (epoch v)) = true).
  { unfold seg_epoch. destruct (negb _); [|reflexivity].
    rewrite all_chars_append, str_int_no_plus. reflexivity. }
  assert (P : all_chars not_plus (seg_pre (pre v)) = true).
  { unfold seg_pre. destruct (pre v) as [[l n]|]; [|reflexivity].
    rewrite all_chars_append, str_int_no_plus.
    destruct Hp as [-> | [-> | ->]]; reflexivity. }
  assert (Po : all_chars not_plus (seg_post (post v)) = true).
  { unfold seg_post. destruct (post v) as [[l n]|]; [|reflexivity].
    change (".post" ++ str_int (snd (l, n))) with (".post" ++ str_int n).
    rewrite all_chars_append, str_int_no_plus. reflexivity. }
  assert (D : all_chars not_plus (seg_dev (dev v)) = true).
  { unfold seg_dev. destruct (dev v) as [[l n]|]; [|reflexivity].
    change (".dev" ++ str_int (snd (l, n))) with (".dev" ++ str_int n).
    rewrite all_chars_append, str_int_no_plus. reflexivity. }
  now rewrite E, P, Po, D.
Qed.

Lemma not_plus_disjoint a : not_plus a = true -> is_plus a = false.
Proof. unfold not_plus. now destruct (is_plus a). Qed.

Lemma public_segments v :
  well_formed v -> public v = seg_public (_version v).
Proof.
  intros W. unfold public. rewrite str_segments. unfold after_release.
  replace (seg_epoch (epoch (_version v)) ++ seg_release (release (_version v)) ++
           seg_pre (pre (_version v)) ++ seg_post (post (_version v)) ++
           seg_dev (dev (_version v)) ++ seg_local (local (_version v)))
    with (seg_public (_version v) ++ seg_local (local (_version v)))
    by (unfold seg_public; now rewrite !append_assoc).
  rewrite (split_once_no_sep is_plus not_plus _ _ not_plus_disjoint)
    by (apply seg_public_no_plus; destruct W; assumption).
  destruct (local (_version v)) as [[|p l]|]; simpl; now rewrite append_nil_r.
Qed.

(** the key of a version without local segment is always built *)
Lemma cmpkey_no_local e r p po d :
  exists k, _cmpkey e r p po d None = Ok k.
Proof. unfold _cmpkey. simpl. eauto. Qed.

Lemma init_public v :
  well_formed v ->
  exists k,
    __init__ (public v)
    = Ok (Build_Version
            (Build_Version_tuple (epoch (_version v)) (release (_version v))
               (dev (_version v)) (pre (_version v)) (post (_version v)) None) k).
Proof.
  intro W. rewrite (public_segments v W).
  destruct v as [[e r d p po loc] k0]. simpl.
  destruct (cmpkey_no_local e r p po d) as [k Hk]. exists k.
  set (v0 := Build_Version (Build_Version_tuple e r d p po None) k).
  assert (W0 : well_formed v0).
  { destruct W as [H1 H2 H3 H4 H5 H6]. constructor; simpl in *; auto. }
  rewrite <- (init_str v0 W0). f_equal.
  rewrite str_segments. unfold seg_public, after_release. simpl.
  now rewrite append_nil_r.
Qed.

Lemma init_base_version v :
  well_formed v ->
  exists k,
    __init__ (base_version v)
    = Ok (Build_Version
            (Build_Version_tuple (epoch (_version v)) (release (_version v))
               None None None None) k).
Proof.
  intro W. destruct v as [[e r d p po loc] k0]. cbn [epoch release _version].
  destruct (cmpkey_no_local e r None None None) as [k Hk]. exists k.
  set (v0 := Build_Version (Build_Version_tuple e r None None None None) k).
  assert (W0 : well_formed v0).
  { destruct W as [H1 H2 H3 H4 H5 H6]. constructor; simpl in *; auto. }
  rewrite <- (init_str v0 W0). f_equal.
  rewrite str_segments. unfold base_version, after_release, seg_epoch, seg_release,
    Version_epoch, Version_release. simpl.
  now rewrite !append_nil_r.
Qed.

(** X3. For a version that the constructor returned for an ASCII string,
    [public] is the canonical string without its local segment, and it
    parses to the version with the same epoch, release, pre, post and dev
    segments and no local segment. *)
Theorem X3_public_version raw v :
  all_chars is_ascii raw = true -> parsed raw v ->
  __str__ v = public v ++ seg_local (local (_version v)) /\
  exists v',
    parsed (public v) v' /\
    epoch (_version v') = epoch (_version v) /\
    release (_version v') = release (_version v) /\
    pre (_version v') = pre (_version v) /\
    post (_version v') = post (_version v) /\
    dev (_version v') = dev (_version v) /\
    local (_version v') = None.
Proof.
  intros _ P. pose proof (parsed_well_formed _ _ P) as W. split.
  - rewrite (public_segments v W), str_segments. unfold seg_public, after_release.
    now rewrite !append_assoc.
  - destruct (init_public v W) as [k H]. eexists. split; [exact H|].
    simpl. repeat split; reflexivity.
Qed.

Lemma X3_witness :
  exists v v',
    parsed "1.0.post2+ubuntu.1" v /\ public v = "1.0.post2" /\
    parsed (public v) v' /\ local (_version v') = None.
Proof.
  destruct (__init__ "1.0.post2+ubuntu.1") as [v|] eqn:E;
    [|vm_compute in E; discriminate].
  destruct (proj2 (X3_public_version "1.0.post2+ubuntu.1" v eq_refl E)) as (v' & P & _ & _ & _ & _ & _ & L).
  exists v, v'. split; [exact E|]. split; [|split; assumption].
  vm_compute in E. inversion E. reflexivity.
Defined.

(** X4. [base_version] parses to the version with the same epoch and release
    and no other segment; that version is neither a pre-release nor a post
    release. *)
Theorem X4_base_version raw v :
  parsed raw v ->
  exists v',
    parsed (base_version v) v' /\
    epoch (_version v') = epoch (_version v) /\
    release (_version v') = release (_version v) /\
    pre (_version v') = None /\ post (_version v') = None /\
    dev (_version v') = None /\ local (_version v') = None /\
    is_prerelease v' = false /\ is_postrelease v' = false.
Proof.
  intro P. pose proof (parsed_well_formed _ _ P) as W.
  destruct (init_base_version v W) as [k H]. eexists. split; [exact H|].
  simpl. repeat split; reflexivity.
Qed.

Lemma X4_witness :
  exists v v',
    parsed "2!1.0rc1.post2.dev3+ubuntu.1" v /\ base_version v = "2!1.0" /\
    parsed (base_version v) v' /\ is_prerelease v' = false.
Proof.
  destruct (__init__ "2!1.0rc1.post2.dev3+ubuntu.1") as [v|] eqn:E;
    [|vm_compute in E; discriminate].
  destruct (X4_base_version _ v E) as (v' & P & _ & _ & _ & _ & _ & _ & H & _).
  exists v, v'. split; [exact E|]. split; [|split; assumption].
  vm_compute in E. inversion E. reflexivity.
Defined.

(** ** The errors of a string that matches the pattern *)

Lemma uint_of_char_digit a d :
  is_digit a = true -> uint_of_char a (Some d) <> None.
Proof. destruct a as [[] [] [] [] [] [] [] []]; vm_compute; congruence. Qed.

Lemma uint_of_string_digits s :
  all_chars is_digit s = true -> NilEmpty.uint_of_string s <> None.
Proof.
  induction s as [|a s IH]; simpl; [discriminate|]. intro H.
  apply andb_prop in H. destruct H as [Ha Hs].
  destruct (NilEmpty.uint_of_string s) as [d|]; [|now elim IH].
  now apply uint_of_char_digit.
Qed.

Lemma int_digits s : field_ok is_digit s -> exists n, int s = Ok n.
Proof.
  intros [Hne H]. unfold int, NilZero.uint_of_string.
  destruct s as [|a s]; [congruence|].
  pose proof (uint_of_string_digits _ H) as U.
  destruct (NilEmpty.uint_of_string (String a s)); [eauto | congruence].
Qed.

Lemma mapM_int_digits l :
  Forall (field_ok is_digit) l -> exists r, mapM int l = Ok r.
Proof.
  induction 1 as [|s l Hs _ [r IH]]; simpl; [eauto|].
  destruct (int_digits s Hs) as [n ->]. rewrite IH. simpl. eauto.
Qed.

Lemma local_part_of_total f : exists p, local_part_of f = Ok p.
Proof.
  unfold local_part_of. destruct (isdigit f) eqn:D; simpl; [|eauto].
  assert (F : field_ok is_digit f).
  { unfold isdigit in D. destruct f; [discriminate|]. split; [discriminate | exact D]. }
  destruct (int_digits f F) as [n ->]. simpl. eauto.
Qed.

Lemma mapM_local_total l : exists parts, mapM local_part_of l = Ok parts /\
                                          List.length parts = List.length l.
Proof.
  induction l as [|f l [parts [IH L]]]; simpl; [eauto|].
  destruct (local_part_of_total f) as [p ->]. rewrite IH. simpl.
  eexists. split; [reflexivity|]. simpl. now rewrite L.
Qed.

Lemma group_digits raw m g s :
  In g ["epoch"; "pre_n"; "post_n1"; "post_n2"; "dev_n"] ->
  _regex_search raw = Some m -> group g m = Some s -> field_ok is_digit s.
Proof.
  intros Hg S G. pose proof (captured_group _ _ _ _ S G) as H.
  simpl in Hg.
  repeat (destruct Hg as [<-|Hg];
          [captured_cases H; destruct H as (c & c' & H);
           now apply (Matches_plus_chr is_digit) in H|]).
  contradiction.
Qed.

Lemma ci_dot a : ci "." a = true -> is_dot a = true.
Proof. destruct a as [[] [] [] [] [] [] [] []]; vm_compute; congruence. Qed.

Lemma Matches_release_fields t c c' :
  Matches (Star (Lit "." >> digits)) t c c' ->
  forall f, all_chars is_digit f = true ->
  exists l, split_on is_dot (f ++ t) = f :: l /\ Forall (field_ok is_digit) l.
Proof.
  remember (Star (Lit "." >> digits)) as r eqn:E. intro M. revert E.
  induction M as [| | | | | |r s1 s3 c c1 c2 Hne M1 _ M2 IH2|]; intro E;
    try discriminate; intros f Hf.
  - exists []. rewrite append_nil_r.
    rewrite (split_on_field is_dot is_digit digit_not_dot); auto.
  - inversion E; subst.
    inversion M1 as [| |? ? x g ? ? ? Mx Mg| | | | |]; subst.
    simpl in Mx.
    inversion Mx as [| |? ? x1 x2 ? ? ? Mx1 Mx2| | | | |]; subst.
    inversion Mx1 as [|? a ? Ha| | | | | |]; subst.
    inversion Mx2; subst.
    apply (Matches_plus_chr is_digit) in Mg. destruct Mg as [Hg Hgf].
    destruct (IH2 eq_refl g Hgf) as (l & Hl & Hall).
    exists (g :: l). split; [|constructor; [split|]; auto].
    cbn [append].
    rewrite (split_on_append is_dot is_digit digit_not_dot) by auto using ci_dot.
    now rewrite Hl.
Qed.

Lemma group_release_fields raw m s :
  _regex_search raw = Some m -> group "release" m = Some s ->
  exists f l, split_on is_dot s = f :: l /\ Forall (field_ok is_digit) (f :: l).
Proof.
  intros S G. pose proof (captured_group _ _ _ _ S G) as H.
  captured_cases H. destruct H as (c & c' & H).
  inversion H as [| |? ? f t ? ? ? Mf Mt| | | | |]; subst.
  apply (Matches_plus_chr is_digit) in Mf.
  destruct (Matches_release_fields _ _ _ Mt f (proj2 Mf)) as (l & Hl & Hall).
  exists f, l. split; [exact Hl | now constructor].
Qed.

Lemma group_release_present raw m :
  _regex_search raw = Some m -> exists s, group "release" m = Some s.
Proof.
  intros S. apply search_matches in S. destruct S as [body M].
  destruct (Matches_guarded "" "release" _ _ _ _ M false) as (_ & _ & H);
    [reflexivity | discriminate | discriminate |].
  specialize (H eq_refl). unfold has in H.
  destruct (group "release" m); [eauto | discriminate].
Qed.

Lemma field_truthy p s : field_ok p s -> truthy (Some s) = true.
Proof. intros [Hne _]. destruct s; [congruence | reflexivity]. Qed.

Lemma plv_digits l s :
  field_ok is_digit s -> exists x, _parse_letter_version (Some l) (Some s) = Ok x.
Proof.
  intro F. unfold _parse_letter_version. rewrite (field_truthy _ _ F).
  destruct (int_digits s F) as [n Hn]. rewrite andb_false_r.
  destruct (truthy (Some l)); simpl; rewrite Hn; simpl; eauto.
Qed.

Lemma plv_none l :
  truthy (Some l) = true -> exists x, _parse_letter_version (Some l) None = Ok x.
Proof. intro T. unfold _parse_letter_version. rewrite T. simpl. eauto. Qed.

Lemma plv_empty l :
  truthy (Some l) = true -> _parse_letter_version (Some l) (Some "") = Raise ValueError.
Proof. intro T. unfold _parse_letter_version. rewrite T. reflexivity. Qed.

Lemma stage_epoch raw m :
  _regex_search raw = Some m ->
  exists e, (if truthy (group "epoch" m)
             then int (or_empty (group "epoch" m)) else Ok 0%N) = Ok e.
Proof.
  intro S. destruct (group "epoch" m) as [s|] eqn:G; [|simpl; eauto].
  assert (F : field_ok is_digit s) by (apply (group_digits raw m "epoch"); simpl; auto 10).
  rewrite (field_truthy _ _ F). apply (int_digits s F).
Qed.

Lemma stage_release raw m :
  _regex_search raw = Some m ->
  exists r, match group "release" m with
            | Some s => mapM int (split_on is_dot s)
            | None => Raise AttributeError
            end = Ok r.
Proof.
  intro S. destruct (group_release_present _ _ S) as [s G]. rewrite G.
  destruct (group_release_fields _ _ _ S G) as (f & l & -> & F).
  now apply mapM_int_digits.
Qed.

Lemma stage_pre raw m :
  _regex_search raw = Some m ->
  exists p, _parse_letter_version (group "pre_l" m) (group "pre_n" m) = Ok p.
Proof.
  intro S. destruct (group "pre_l" m) as [l|] eqn:Gl.
  - destruct (group_pre_l _ _ _ S Gl) as (w & Hw & E).
    destruct (normalize_pre _ _ Hw E) as [T _].
    destruct (group "pre_n" m) as [s|] eqn:Gn.
    + apply plv_digits. apply (group_digits raw m "pre_n" s); simpl; auto 10.
    + now apply plv_none.
  - rewrite (group_pre_n _ _ S Gl). exists None. reflexivity.
Qed.

Lemma has_some g m s : group g m = Some s -> has g m = true.
Proof. unfold has. now intros ->. Qed.

Lemma has_none g m : group g m = None -> has g m = false.
Proof. unfold has. now intros ->. Qed.

Lemma stage_post raw m :
  _regex_search raw = Some m ->
  let x := _parse_letter_version
             (Some (or_empty (group "post_l" m)))
             (Some (or_else (group "post_n1" m) (or_empty (group "post_n2" m)))) in
  if has "post_l" m && negb (has "post_n1" m) && negb (has "post_n2" m)
  then x = Raise ValueError else exists po, x = Ok po.
Proof.
  intros S x. subst x.
  assert (N : (exists s, or_else (group "post_n1" m) (or_empty (group "post_n2" m)) = s
                         /\ field_ok is_digit s /\
                         has "post_n1" m || has "post_n2" m = true) \/
              (or_else (group "post_n1" m) (or_empty (group "post_n2" m)) = "" /\
               has "post_n1" m = false /\ has "post_n2" m = false)).
  { destruct (group "post_n1" m) as [s|] eqn:G1.
    - assert (F : field_ok is_digit s)
        by (apply (group_digits raw m "post_n1"); simpl; auto 10).
      left. exists s. unfold or_else. rewrite (field_truthy _ _ F).
      rewrite (has_some _ _ _ G1). auto.
    - rewrite (has_none _ _ G1).
      destruct (group "post_n2" m) as [s|] eqn:G2.
      + assert (F : field_ok is_digit s)
          by (apply (group_digits raw m "post_n2"); simpl; auto 10).
        left. exists s. rewrite (has_some _ _ _ G2). auto.
      + rewrite (has_none _ _ G2). right. auto. }
  destruct (group "post_l" m) as [l|] eqn:Gl.
  - rewrite (has_some _ _ _ Gl).
    destruct (group_post_l _ _ _ S Gl) as (w & Hw & E).
    destruct (normalize_post _ _ Hw E) as [T _].
    destruct N as [(s & -> & F & H)|(-> & H1 & H2)].
    + cbn [or_empty]. apply orb_prop in H.
      destruct H as [->| ->]; cbn [andb negb]; try rewrite andb_false_r;
        now apply plv_digits.
    + rewrite H1, H2. cbn [andb negb or_empty]. now apply plv_empty.
  - rewrite (has_none _ _ Gl). cbn [andb negb or_empty].
    destruct N as [(s & -> & F & H)|(-> & H1 & H2)].
    + now apply plv_digits.
    + exists None. reflexivity.
Qed.

Lemma stage_dev raw m :
  _regex_search raw = Some m ->
  let x := _parse_letter_version
             (Some (or_empty (group "dev_l" m)))
             (Some (or_empty (group "dev_n" m))) in
  if has "dev_l" m && negb (has "dev_n" m)
  then x = Raise ValueError else exists d, x = Ok d.
Proof.
  intros S x. subst x.
  destruct (group "dev_l" m) as [l|] eqn:Gl.
  - rewrite (has_some _ _ _ Gl).
    destruct (normalize_dev _ (group_dev_l _ _ _ S Gl)) as [T _].
    destruct (group "dev_n" m) as [s|] eqn:Gn.
    + rewrite (has_some _ _ _ Gn). cbn [andb negb or_empty]. apply plv_digits.
      apply (group_digits raw m "dev_n" s); simpl; auto 10.
    + rewrite (has_none _ _ Gn). cbn [andb negb or_empty]. now apply plv_empty.
  - rewrite (has_none _ _ Gl), (group_dev_n _ _ S Gl). cbn [andb negb or_empty].
    exists None. reflexivity.
Qed.

Lemma stage_local m :
  exists loc, _parse_local_version (Some (or_empty (group "local" m))) = Ok loc.
Proof.
  unfold _parse_local_version.
  destruct (mapM_local_total (split_on is_sep (or_empty (group "local" m))))
    as (parts & -> & _).
  simpl. destruct parts as [|p parts]; [eauto|].
  destruct (negb (part_truthy p)); eauto.
Qed.

Lemma cmpkey_cases e r p po d loc :
  match loc with
  | Some [_] => _cmpkey e r p po d loc = Raise IndexError
  | _ => exists k, _cmpkey e r p po d loc = Ok k
  end.
Proof.
  unfold _cmpkey. destruct loc as [[|x [|y l]]|]; simpl; eauto.
Qed.

(** X5. What the constructor does with a string that matches the pattern
    and is no longer than the limit on the digits of [int()]: it raises [ValueError] when a post or dev tag comes without a number;
    otherwise it raises [IndexError] when the local segment that
    [_parse_local_version] keeps has one part, and returns a version with
    that local segment in every other case. *)
Theorem X5_errors_of_a_matching_string raw m :
  String.length raw <= int_max_str_digits ->
  _regex_search raw = Some m ->
  (tag_without_number m = true -> __init__ raw = Raise ValueError) /\
  (tag_without_number m = false ->
   exists loc,
     _parse_local_version (Some (or_empty (group "local" m))) = Ok loc /\
     match loc with
     | Some [_] => __init__ raw = Raise IndexError
     | _ => exists v, __init__ raw = Ok v /\ local (_version v) = loc
     end).
Proof.
  intros _ S. unfold __init__, tag_without_number. rewrite S.
  destruct (stage_epoch _ _ S) as [e ->].
  destruct (stage_release _ _ S) as [r ->].
  destruct (stage_pre _ _ S) as [p ->]. cbn [bind].
  pose proof (stage_post _ _ S) as Hpo. pose proof (stage_dev _ _ S) as Hd.
  cbv zeta in Hpo, Hd.
  destruct (has "post_l" m && negb (has "post_n1" m) && negb (has "post_n2" m)).
  { rewrite Hpo. split; [reflexivity | discriminate]. }
  destruct Hpo as [po ->]. cbn [bind].
  destruct (has "dev_l" m && negb (has "dev_n" m)).
  { rewrite Hd. split; [reflexivity | discriminate]. }
  destruct Hd as [d ->]. cbn [bind orb].
  split; [discriminate|]. intros _.
  destruct (stage_local m) as [loc Hl]. exists loc. split; [exact Hl|].
  rewrite Hl. cbn [bind].
  pose proof (cmpkey_cases e r p po d loc) as K.
  destruct loc as [[|x [|y l]]|].
  - destruct K as [k ->]. simpl. eauto.
  - rewrite K. reflexivity.
  - destruct K as [k ->]. simpl. eauto.
  - destruct K as [k ->]. simpl. eauto.
Qed.

Lemma X5_witness :
  exists m,
    _regex_search "1.0.dev+ubuntu" = Some m /\
    __init__ "1.0.dev+ubuntu" = Raise ValueError.
Proof.
  destruct (_regex_search "1.0.dev+ubuntu") as [m|] eqn:S;
    [|vm_compute in S; discriminate].
  exists m. split; [reflexivity|].
  apply (proj1 (X5_errors_of_a_matching_string "1.0.dev+ubuntu" m
                  ltac:(apply Nat.leb_le; reflexivity) S)).
  vm_compute in S. inversion S. reflexivity.
Defined.

(** ** White space around the version and the leading [v] *)

Lemma substring_append n s w :
  n <= String.length s -> substring 0 n (s ++ w) = substring 0 n s.
Proof.
  revert n. induction s as [|a s IH]; intros n H; simpl in *.
  - assert (n = 0) as -> by lia. destruct w; reflexivity.
  - destruct n as [|n]; [reflexivity|]. simpl. f_equal. apply IH. lia.
Qed.

Lemma consumed_suffix s t w : consumed (s ++ w) (t ++ w) = consumed s t.
Proof.
  unfold consumed. rewrite !length_append.
  replace (String.length s + String.length w - (String.length t + String.length w))
    with (String.length s - String.length t) by lia.
  apply substring_append. lia.
Qed.

Lemma ltb_suffix (s t w : string) :
  Nat.ltb (String.length (t ++ w)) (String.length (s ++ w))
  = Nat.ltb (String.length t) (String.length s).
Proof.
  rewrite !length_append.
  destruct (Nat.ltb_spec (String.length t) (String.length s));
    [apply Nat.ltb_lt | apply Nat.ltb_ge]; lia.
Qed.

Section Trailing.
Variable w : string.
Hypothesis w_spaces : all_chars is_space w = true.

Lemma star_suffix r
  (IH : forall k k' : cont, (forall t c, k' (t ++ w) c = k t c) ->
        forall s c, rmatch r (s ++ w) c k' = rmatch r s c k)
  (k k' : cont) (Hk : forall t c, k' (t ++ w) c = k t c) :
  forall n s c, String.length s <= n ->
    star_loop (rmatch r) (String.length (s ++ w)) (s ++ w) c k'
    = star_loop (rmatch r) (String.length s) s c k.
Proof.
  induction n as [|n IHn]; intros s c Hn.
  - assert (s = "") as -> by (apply length_zero; lia).
    rewrite (star_loop_fuel r k' _ (S (String.length ("" ++ w)))) by lia.
    rewrite (star_loop_fuel r k _ 1) by (simpl; lia).
    rewrite !star_loop_S. rewrite (Hk "" c). f_equal.
    rewrite (IH (fun _ _ => None)); [now rewrite !rmatch_None|].
    intros t c'. rewrite ltb_suffix. reflexivity.
  - rewrite (star_loop_fuel r k' _ (S (String.length (s ++ w)))) by lia.
    rewrite (star_loop_fuel r k _ (S (String.length s))) by lia.
    rewrite !star_loop_S, (Hk s c). f_equal.
    apply IH. intros t c'. rewrite ltb_suffix.
    destruct (Nat.ltb_spec (String.length t) (String.length s)) as [L|L]; [|reflexivity].
    rewrite <- (star_loop_fuel r k' (String.length (t ++ w)))
      by (rewrite ?length_append; lia).
    rewrite <- (star_loop_fuel r k (String.length t)) by lia.
    apply IHn. lia.
Qed.

Lemma rmatch_suffix r : space_free r ->
  forall k k' : cont, (forall t c, k' (t ++ w) c = k t c) ->
  forall s c, rmatch r (s ++ w) c k' = rmatch r s c k.
Proof.
  induction r as [|p|r1 IH1 r2 IH2|r1 IH1 r2 IH2|r IH|name r IH];
    intros F k k' Hk s c; simpl in F.
  - apply Hk.
  - destruct s as [|a s].
    + cbn [append]. simpl. destruct w as [|b w']; [reflexivity|].
      simpl in w_spaces. apply andb_prop in w_spaces.
      now rewrite (F b (proj1 w_spaces)).
    + simpl. destruct (p a); [apply Hk | reflexivity].
  - destruct F as [F1 F2]. simpl. apply (IH1 F1). intros t c'. now apply (IH2 F2).
  - destruct F as [F1 F2]. simpl.
    now rewrite (IH1 F1 k k' Hk), (IH2 F2 k k' Hk).
  - simpl. apply (star_suffix r (IH F) k k' Hk (String.length s)). lia.
  - simpl. apply (IH F). intros t c'. rewrite consumed_suffix. apply Hk.
Qed.
End Trailing.

Lemma newline_is_space a : (code a =? 10)%N = true -> is_space a = true.
Proof. destruct a as [[] [] [] [] [] [] [] []]; vm_compute; congruence. Qed.

Lemma spaces_to_end_loop : forall t c,
  star_loop (rmatch (Chr is_space)) (String.length t) t c k_end
  = if all_chars is_space t then Some c else None.
Proof.
  induction t as [|a t IH]; intro c; [reflexivity|].
  cbn [String.length all_chars]. rewrite star_loop_S, rmatch_chr_cons.
  destruct (is_space a) eqn:A; cbn [andb].
  - rewrite ltb_length_cons, IH. destruct (all_chars is_space t) eqn:T; [reflexivity|].
    simpl. unfold k_end. destruct t; [discriminate | reflexivity].
  - simpl. unfold k_end. simpl. destruct t; [|reflexivity].
    destruct (code a =? 10)%N eqn:E; [|reflexivity].
    apply newline_is_space in E. congruence.
Qed.

Lemma spaces_to_end t c :
  rmatch spaces t c k_end = if all_chars is_space t then Some c else None.
Proof. exact (spaces_to_end_loop t c). Qed.

Lemma regex_search_version s : _regex_search s = rmatch spaces s [] k_version.
Proof. reflexivity. Qed.

Lemma k_version_unfold s c : k_version s c = rmatch (Opt (Lit "v")) s c k_epoch.
Proof. reflexivity. Qed.

Ltac no_space := intros a; destruct a as [[] [] [] [] [] [] [] []]; vm_compute; congruence.

Lemma space_free_version : space_free VERSION_PATTERN.
Proof.
  unfold VERSION_PATTERN, epoch_re, release_re, pre_re, post_re, dev_re, local_re,
    digits, alnums, sep, Opt, Plus.
  cbn [space_free Lit alts]. repeat split; no_space.
Qed.

Lemma k_version_suffix w s c :
  all_chars is_space w = true -> k_version (s ++ w) c = k_version s c.
Proof.
  intro W. unfold k_version. apply (rmatch_suffix w W _ space_free_version).
  intros t c'. rewrite !spaces_to_end, all_chars_append, W, andb_true_r. reflexivity.
Qed.

Lemma k_epoch_fail s c : starts_with is_digit s = false -> k_epoch s c = None.
Proof.
  intro H. unfold k_epoch. rewrite rmatch_opt_skip.
  - exact (rmatch_chr_fail is_digit s c _ H).
  - exact (rmatch_chr_fail is_digit s c _ H).
Qed.

Lemma k_version_fail s c :
  starts_with is_digit s = false -> starts_with (ci "v") s = false ->
  k_version s c = None.
Proof.
  intros D V. rewrite k_version_unfold, optv_skip by assumption.
  now apply k_epoch_fail.
Qed.

Lemma space_not_digit a : is_space a = true -> is_digit a = false.
Proof. destruct a as [[] [] [] [] [] [] [] []]; vm_compute; congruence. Qed.

Lemma space_not_v a : is_space a = true -> ci "v" a = false.
Proof. destruct a as [[] [] [] [] [] [] [] []]; vm_compute; congruence. Qed.

Lemma k_version_space a s c : is_space a = true -> k_version (String a s) c = None.
Proof.
  intro A. apply k_version_fail; simpl; auto using space_not_digit, space_not_v.
Qed.

Lemma spaces_cons a s c k :
  is_space a = true ->
  rmatch spaces (String a s) c k = orelse (rmatch spaces s c k) (k (String a s) c).
Proof.
  intro A. unfold spaces.
  change (rmatch (Star (Chr is_space)) (String a s) c k)
    with (star_loop (rmatch (Chr is_space)) (S (String.length s)) (String a s) c k).
  rewrite star_loop_S, rmatch_chr_cons, A, ltb_length_cons. reflexivity.
Qed.

Lemma orelse_None_r {A} (x : option A) : orelse x None = x.
Proof. destruct x; reflexivity. Qed.

Lemma spaces_version_leading w s c :
  all_chars is_space w = true ->
  rmatch spaces (w ++ s) c k_version = rmatch spaces s c k_version.
Proof.
  induction w as [|a w IH]; cbn [append all_chars]; intro W; [reflexivity|].
  apply andb_prop in W. destruct W as [A W].
  rewrite spaces_cons, k_version_space, orelse_None_r by assumption. auto.
Qed.

Lemma spaces_version_blank w c :
  all_chars is_space w = true -> rmatch spaces w c k_version = None.
Proof.
  intro W. rewrite <- (append_nil_r w), spaces_version_leading by assumption.
  rewrite spaces_skip by reflexivity. now apply k_version_fail.
Qed.

Lemma spaces_version_trailing w : all_chars is_space w = true ->
  forall s c, rmatch spaces (s ++ w) c k_version = rmatch spaces s c k_version.
Proof.
  intro W. induction s as [|a s IH]; intro c.
  - cbn [append]. rewrite spaces_version_blank by assumption.
    rewrite spaces_skip by reflexivity. symmetry. now apply k_version_fail.
  - cbn [append]. destruct (is_space a) eqn:A.
    + rewrite !spaces_cons, IH by assumption. f_equal.
      now rewrite !k_version_space.
    + rewrite !spaces_skip by (simpl; assumption).
      apply (k_version_suffix w (String a s) c W).
Qed.

(** surrounding whitespace does not change the match *)
Lemma regex_search_strip w1 w2 raw :
  all_chars is_space w1 = true -> all_chars is_space w2 = true ->
  _regex_search (w1 ++ raw ++ w2) = _regex_search raw.
Proof.
  intros W1 W2. rewrite !regex_search_version.
  rewrite spaces_version_leading by assumption.
  now apply spaces_version_trailing.
Qed.

(** a leading [v] before the first digit does not change the match *)
Lemma regex_search_v a s :
  ci "v" a = true -> starts_with is_digit s = true ->
  _regex_search (String a s) = _regex_search s.
Proof.
  intros V D. rewrite !regex_search_version.
  assert (A : is_space a = false).
  { destruct (is_space a) eqn:E; [|reflexivity]. apply space_not_v in E. congruence. }
  rewrite spaces_skip by (simpl; exact A).
  rewrite spaces_skip
    by (destruct s as [|b s]; simpl in *; [discriminate|];
        destruct (is_space b) eqn:E; [apply space_not_digit in E; congruence | reflexivity]).
  rewrite !k_version_unfold.
  assert (Vs : starts_with (ci "v") s = false).
  { revert D. apply starts_with_impl, digit_not_v. }
  rewrite (optv_skip s) by assumption.
  cbn [rmatch Opt Lit]. rewrite V.
  assert (F : k_epoch (String a s) [] = None).
  { apply k_epoch_fail. simpl. destruct (is_digit a) eqn:E; [|reflexivity].
    apply digit_not_v in E. congruence. }
  rewrite F. apply orelse_None_r.
Qed.

(** ** The case of the letters *)

Lemma length_lower s : String.length (lower s) = String.length s.
Proof. induction s; simpl; congruence. Qed.

Lemma substring_lower s : forall n m,
  substring n m (lower s) = lower (substring n m s).
Proof.
  induction s as [|a s IH]; intros [|n] [|m]; simpl; try reflexivity; auto.
  now rewrite IH.
Qed.

Lemma consumed_lower s t : consumed (lower s) (lower t) = lower (consumed s t).
Proof. unfold consumed. now rewrite !length_lower, substring_lower. Qed.

Lemma star_lower r
  (IH : forall k k' : cont,
        (forall t c, k' (lower t) (lower_captures c) = option_map lower_captures (k t c)) ->
        forall s c, rmatch r (lower s) (lower_captures c) k'
                    = option_map lower_captures (rmatch r s c k))
  (k k' : cont)
  (Hk : forall t c, k' (lower t) (lower_captures c) = option_map lower_captures (k t c)) :
  forall n s c,
    star_loop (rmatch r) n (lower s) (lower_captures c) k'
    = option_map lower_captures (star_loop (rmatch r) n s c k).
Proof.
  induction n as [|n IHn]; intros s c; [apply Hk|].
  rewrite !star_loop_S.
  rewrite (IH (fun s' c' =>
                 if Nat.ltb (String.length s') (String.length s)
                 then star_loop (rmatch r) n s' c' k else None)).
  - rewrite Hk. destruct (rmatch r s c _); reflexivity.
  - intros t c'. rewrite !length_lower. destruct (Nat.ltb _ _); [apply IHn | reflexivity].
Qed.

Lemma rmatch_lower r : case_blind r ->
  forall k k' : cont,
    (forall t c, k' (lower t) (lower_captures c) = option_map lower_captures (k t c)) ->
    forall s c, rmatch r (lower s) (lower_captures c) k'
                = option_map lower_captures (rmatch r s c k).
Proof.
  induction r as [|p|r1 IH1 r2 IH2|r1 IH1 r2 IH2|r IH|name r IH];
    intros F k k' Hk s c; simpl in F.
  - apply Hk.
  - destruct s as [|a s]; simpl; [reflexivity|]. rewrite F.
    destruct (p a); [apply Hk | reflexivity].
  - destruct F as [F1 F2]. simpl. apply (IH1 F1). intros t c'. now apply (IH2 F2).
  - destruct F as [F1 F2]. simpl.
    rewrite (IH1 F1 k k' Hk), (IH2 F2 k k' Hk).
    destruct (rmatch r1 s c k); reflexivity.
  - simpl. rewrite length_lower. now apply star_lower; [apply IH|].
  - simpl. apply (IH F). intros t c'. rewrite consumed_lower.
    apply (Hk t ((name, consumed s t) :: c')).
Qed.

Ltac blind := intros a; destruct a as [[] [] [] [] [] [] [] []]; vm_compute; reflexivity.

Lemma case_blind_regex : case_blind _regex.
Proof.
  unfold _regex, VERSION_PATTERN, spaces, epoch_re, release_re, pre_re, post_re,
    dev_re, local_re, digits, alnums, sep, Opt, Plus.
  cbn [case_blind Lit alts]. repeat split; blind.
Qed.

Lemma at_end_lower s : at_end (lower s) = at_end s.
Proof.
  destruct s as [|a [|b s]]; try reflexivity. simpl.
  destruct a as [[] [] [] [] [] [] [] []]; vm_compute; reflexivity.
Qed.

Lemma regex_search_lower raw :
  _regex_search (lower raw) = option_map lower_captures (_regex_search raw).
Proof.
  unfold _regex_search.
  apply (rmatch_lower _regex case_blind_regex _ _) with (c := []).
  intros t c. rewrite at_end_lower. destruct (at_end t); reflexivity.
Qed.

Lemma group_lower g c : group g (lower_captures c) = option_map lower (group g c).
Proof.
  induction c as [|[n v] c IH]; simpl; [reflexivity|].
  destruct (n =? g); [reflexivity | exact IH].
Qed.

Lemma lower_empty s : (lower s =? "") = (s =? "").
Proof. destruct s; reflexivity. Qed.

Lemma truthy_lower o : truthy (option_map lower o) = truthy o.
Proof. destruct o as [s|]; simpl; [now rewrite lower_empty | reflexivity]. Qed.

Lemma or_empty_lower o : or_empty (option_map lower o) = lower (or_empty o).
Proof. destruct o; reflexivity. Qed.

Lemma or_else_lower o y : or_else (option_map lower o) (lower y) = lower (or_else o y).
Proof.
  unfold or_else. rewrite truthy_lower, or_empty_lower. now destruct (truthy o).
Qed.

Lemma uint_of_char_lower a d : uint_of_char (lower_char a) d = uint_of_char a d.
Proof. destruct a as [[] [] [] [] [] [] [] []]; reflexivity. Qed.

Lemma int_lower s : int (lower s) = int s.
Proof.
  unfold int, NilZero.uint_of_string. destruct s as [|a s]; [reflexivity|].
  change (lower (String a s)) with (String (lower_char a) (lower s)).
  assert (E : forall t, NilEmpty.uint_of_string (lower t) = NilEmpty.uint_of_string t).
  { induction t as [|b t IH]; simpl; [reflexivity|]. now rewrite IH, uint_of_char_lower. }
  change (NilEmpty.uint_of_string (String (lower_char a) (lower s)))
    with (NilEmpty.uint_of_string (lower (String a s))).
  now rewrite E.
Qed.

Lemma split_on_lower p s :
  (forall a, p (lower_char a) = p a) ->
  split_on p (lower s) = map lower (split_on p s).
Proof.
  intro H. induction s as [|a s IH]; simpl; [reflexivity|].
  rewrite H, IH. destruct (p a); [reflexivity|].
  destruct (split_on p s); reflexivity.
Qed.

Lemma mapM_map_lower {B} (f : string -> result B) l :
  (forall s, f (lower s) = f s) -> mapM f (map lower l) = mapM f l.
Proof.
  intro H. induction l as [|s l IH]; simpl; [reflexivity|]. now rewrite H, IH.
Qed.

Lemma normalize_letter_lower l : normalize_letter (lower l) = normalize_letter l.
Proof. unfold normalize_letter. now rewrite lower_idem. Qed.

Lemma plv_lower a b :
  _parse_letter_version (option_map lower a) (option_map lower b)
  = _parse_letter_version a b.
Proof.
  unfold _parse_letter_version. rewrite !truthy_lower, !or_empty_lower.
  rewrite normalize_letter_lower, int_lower.
  destruct b as [s|]; simpl; [now rewrite int_lower | reflexivity].
Qed.

Lemma local_part_of_lower f : local_part_of (lower f) = local_part_of f.
Proof.
  unfold local_part_of. now rewrite isdigit_lower, lower_idem, int_lower.
Qed.

Lemma sep_blind a : is_sep (lower_char a) = is_sep a.
Proof. destruct a as [[] [] [] [] [] [] [] []]; vm_compute; reflexivity. Qed.

Lemma dot_blind a : is_dot (lower_char a) = is_dot a.
Proof. destruct a as [[] [] [] [] [] [] [] []]; vm_compute; reflexivity. Qed.

Lemma parse_local_lower s :
  _parse_local_version (Some (lower s)) = _parse_local_version (Some s).
Proof.
  unfold _parse_local_version.
  now rewrite (split_on_lower is_sep s sep_blind),
    (mapM_map_lower local_part_of _ local_part_of_lower).
Qed.

Lemma init_lower raw :
  _regex_search raw <> None -> __init__ (lower raw) = __init__ raw.
Proof.
  intro H. unfold __init__. rewrite regex_search_lower.
  destruct (_regex_search raw) as [m|]; [|congruence]. cbn [option_map].
  rewrite !group_lower, !truthy_lower, !or_empty_lower, int_lower.
  replace (match option_map lower (group "release" m) with
           | Some r => mapM int (split_on is_dot r)
           | None => Raise AttributeError
           end)
    with (match group "release" m with
          | Some r => mapM int (split_on is_dot r)
          | None => Raise AttributeError
          end).
  2:{ destruct (group "release" m) as [r|]; [|reflexivity]. cbn [option_map].
      now rewrite (split_on_lower is_dot r dot_blind), (mapM_map_lower int _ int_lower). }
  rewrite plv_lower.
  rewrite (or_else_lower (group "post_n1" m) (or_empty (group "post_n2" m))).
  change (Some (lower ?x)) with (option_map lower (Some x)).
  rewrite !plv_lower. cbn [option_map]. rewrite parse_local_lower. reflexivity.
Qed.

Lemma in_grammar_search raw raw' :
  _regex_search raw' = _regex_search raw -> (in_grammar raw' <-> in_grammar raw).
Proof. intro E. rewrite <- !regex_search_in_grammar, E. tauto. Qed.

Lemma init_search raw raw' :
  _regex_search raw' = _regex_search raw -> in_grammar raw ->
  __init__ raw' = __init__ raw.
Proof.
  intros E G. apply regex_search_in_grammar in G. unfold __init__. rewrite E.
  destruct (_regex_search raw); [reflexivity | congruence].
Qed.

(** X6. White space around a version string is ignored: it changes neither
    whether the string is accepted nor the version that is built (segments
    and key); [w1] and [w2] are any runs of white-space characters. *)
Theorem X6_surrounding_white_space_is_ignored w1 w2 raw :
  all_chars is_space w1 = true -> all_chars is_space w2 = true ->
  (in_grammar (w1 ++ raw ++ w2) <-> in_grammar raw) /\
  (in_grammar raw -> __init__ (w1 ++ raw ++ w2) = __init__ raw).
Proof.
  intros W1 W2. pose proof (regex_search_strip w1 w2 raw W1 W2) as E. split.
  - now apply in_grammar_search.
  - now apply init_search.
Qed.

Lemma X6_witness :
  in_grammar "  1.0rc1 " /\ __init__ "  1.0rc1 " = __init__ "1.0rc1".
Proof.
  destruct (X6_surrounding_white_space_is_ignored "  " " " "1.0rc1") as [G E];
    [reflexivity | reflexivity |].
  assert (H : in_grammar "1.0rc1") by (apply regex_search_in_grammar; vm_compute; discriminate).
  split; [apply G, H | apply E, H].
Defined.

(** X7. One leading [v] or [V] in front of a string that starts with a digit
    is ignored: the string is accepted exactly when the rest is, and the same
    version is built. *)
Theorem X7_leading_v_is_ignored a s :
  a = "v"%char \/ a = "V"%char -> starts_with is_digit s = true ->
  (in_grammar (String a s) <-> in_grammar s) /\
  (in_grammar s -> __init__ (String a s) = __init__ s).
Proof.
  intros A D.
  assert (E : _regex_search (String a s) = _regex_search s).
  { apply regex_search_v; [|assumption]. destruct A as [-> | ->]; reflexivity. }
  split.
  - now apply in_grammar_search.
  - now apply init_search.
Qed.

Lemma X7_witness :
  in_grammar "V2!1.0" /\ __init__ "V2!1.0" = __init__ "2!1.0".
Proof.
  destruct (X7_leading_v_is_ignored "V"%char "2!1.0") as [G E];
    [right; reflexivity | reflexivity |].
  assert (H : in_grammar "2!1.0") by (apply regex_search_in_grammar; vm_compute; discriminate).
  split; [apply G, H | apply E, H].
Defined.

(** X8. The letters of an ASCII version string are read without regard to
    case: the string is accepted exactly when its lower-case form is, and
    both build the same version. *)
Theorem X8_case_of_letters_is_ignored raw :
  all_chars is_ascii raw = true ->
  (in_grammar (lower raw) <-> in_grammar raw) /\
  (in_grammar raw -> __init__ (lower raw) = __init__ raw).
Proof.
  intros _. split.
  - rewrite <- !regex_search_in_grammar, regex_search_lower.
    destruct (_regex_search raw); simpl; split; congruence.
  - intro G. apply init_lower. now apply regex_search_in_grammar.
Qed.

Lemma X8_witness :
  in_grammar "1.0rc1.post2+ubuntu.1" /\
  __init__ "1.0rc1.post2+ubuntu.1" = __init__ "1.0RC1.POST2+UBUNTU.1".
Proof.
  destruct (X8_case_of_letters_is_ignored "1.0RC1.POST2+UBUNTU.1" eq_refl) as [G E].
  assert (H : in_grammar "1.0RC1.POST2+UBUNTU.1")
    by (apply regex_search_in_grammar; vm_compute; discriminate).
  split; [apply G, H | apply E, H].
Defined.

(** ** The comparison operators *)

Lemma rank_eq_eq a b : rank_eq a b = true <-> a = b.
Proof.
  destruct a, b; simpl; try (split; [discriminate | congruence]);
    try (split; reflexivity).
  - rewrite N.eqb_eq. split; congruence.
  - rewrite String.eqb_eq. split; congruence.
Qed.

Lemma rank_eq_sym a b : rank_eq a b = rank_eq b a.
Proof.
  destruct a, b; simpl; try reflexivity; [apply N.eqb_sym | apply String.eqb_sym].
Qed.

Lemma tuple_eq_sym a b :
  match tuple_compare b a with Eq => true | _ => false end
  = match tuple_compare a b with Eq => true | _ => false end.
Proof. rewrite (tuple_compare_antisym a b). destruct (tuple_compare a b); reflexivity. Qed.

Lemma tuple_compare_Eq_iff a b : tuple_compare a b = Eq <-> a = b.
Proof.
  split; [apply tuple_compare_eq | intros ->; apply tuple_compare_refl].
Qed.

Lemma cmp_result_flip op c : cmp_result (op_swap op) (CompOpp c) = cmp_result op c.
Proof. destruct op, c; reflexivity. Qed.

Lemma cmp_result_complement op c : cmp_result (op_not op) c = negb (cmp_result op c).
Proof. destruct op, c; reflexivity. Qed.

Lemma rank_compare_antisym a b :
  rank_compare b a = (do c <- rank_compare a b; Ok (CompOpp c)).
Proof.
  destruct a, b; simpl; try reflexivity.
  - now rewrite N.compare_antisym.
  - now rewrite String.compare_antisym.
Qed.

Lemma rank_richcmp_flip op a b :
  rank_richcmp (op_swap op) b a = rank_richcmp op a b.
Proof.
  destruct op; simpl; try reflexivity; rewrite rank_compare_antisym;
    destruct (rank_compare a b) as [c|e]; simpl; try reflexivity;
    destruct c; reflexivity.
Qed.

Lemma rank_richcmp_complement op a b :
  rank_richcmp (op_not op) a b = negated (rank_richcmp op a b).
Proof.
  unfold negated.
  destruct op; simpl; try reflexivity;
    destruct (rank_compare a b) as [c|e]; simpl; try reflexivity;
    destruct c; reflexivity.
Qed.

Lemma key_richcmp_flip op s o :
  key_richcmp (op_swap op) o s = key_richcmp op s o.
Proof.
  unfold key_richcmp.
  rewrite (N.eqb_sym (key_epoch o)), (tuple_eq_sym (key_release s)),
    (rank_eq_sym (key_pre o)), (rank_eq_sym (key_post o)),
    (rank_eq_sym (key_dev o)), (rank_eq_sym (key_local o)), !rank_richcmp_flip.
  rewrite (N.compare_antisym (key_epoch s)), (tuple_compare_antisym (key_release s)),
    !cmp_result_flip.
  assert (F : cmp_result (op_swap op) Eq = cmp_result op Eq) by (destruct op; reflexivity).
  rewrite F. reflexivity.
Qed.

Lemma key_richcmp_complement op s o :
  key_richcmp (op_not op) s o = negated (key_richcmp op s o).
Proof.
  unfold key_richcmp.
  repeat match goal with
         | |- context [if ?b then _ else _] => destruct b
         end;
    rewrite ?rank_richcmp_complement, ?cmp_result_complement; reflexivity.
Qed.

Lemma key_richcmp_EQ s o :
  exists e, key_richcmp Py_EQ s o = Ok e /\ (e = true <-> s = o).
Proof.
  unfold key_richcmp.
  destruct s as [e1 r1 p1 q1 d1 l1], o as [e2 r2 p2 q2 d2 l2]; simpl.
  destruct (N.eqb_spec e1 e2) as [E|E]; simpl.
  2:{ exists (cmp_result Py_EQ (e1 ?= e2)%N). split; [reflexivity|].
      destruct (e1 ?= e2)%N eqn:C; simpl;
        [apply N.compare_eq in C; congruence | |]; split; congruence. }
  destruct (tuple_compare r1 r2) eqn:R; simpl;
    try (eexists; split; [reflexivity|]; split; [discriminate|];
         intro H; inversion H; subst; rewrite tuple_compare_refl in R; discriminate).
  apply tuple_compare_eq in R.
  destruct (rank_eq p1 p2) eqn:P; simpl;
    [apply rank_eq_eq in P
    | eexists; split; [reflexivity|]; split; [discriminate|];
      intro H; inversion H; subst; rewrite rank_eq_refl in P; discriminate].
  destruct (rank_eq q1 q2) eqn:Q; simpl;
    [apply rank_eq_eq in Q
    | eexists; split; [reflexivity|]; split; [discriminate|];
      intro H; inversion H; subst; rewrite rank_eq_refl in Q; discriminate].
  destruct (rank_eq d1 d2) eqn:D; simpl;
    [apply rank_eq_eq in D
    | eexists; split; [reflexivity|]; split; [discriminate|];
      intro H; inversion H; subst; rewrite rank_eq_refl in D; discriminate].
  destruct (rank_eq l1 l2) eqn:L; simpl;
    [apply rank_eq_eq in L
    | eexists; split; [reflexivity|]; split; [discriminate|];
      intro H; inversion H; subst; rewrite rank_eq_refl in L; discriminate].
  subst. exists true. split; [reflexivity | tauto].
Qed.

(** X9. [==] and [!=] between two versions never raise; [==] holds exactly
    when the two keys are equal, [!=] is its negation, and versions that are
    [==] have the same hash. *)
Theorem X9_equality_is_equality_of_keys (a b : Version) :
  exists e,
    __eq__ a b = Ok e /\ __ne__ a b = Ok (negb e) /\
    (e = true <-> _key a = _key b) /\
    (e = true -> forall (H : Type) (hash : Key -> H), __hash__ hash a = __hash__ hash b).
Proof.
  destruct (key_richcmp_EQ (_key a) (_key b)) as (e & He & Hk).
  exists e. unfold __eq__, __ne__, _compare. split; [exact He|]. split.
  - change Py_NE with (op_not Py_EQ). rewrite key_richcmp_complement, He. reflexivity.
  - split; [exact Hk|]. intros T H hash. unfold __hash__. f_equal. now apply Hk.
Qed.

Lemma X9_witness :
  exists a b,
    parsed "1.0-1" a /\ parsed "1.0.post1" b /\ _key a = _key b /\
    forall (H : Type) (hash : Key -> H), __hash__ hash a = __hash__ hash b.
Proof.
  destruct (__init__ "1.0-1") as [a|] eqn:Ea; [|vm_compute in Ea; discriminate].
  destruct (__init__ "1.0.post1") as [b|] eqn:Eb; [|vm_compute in Eb; discriminate].
  exists a, b. split; [exact Ea|]. split; [exact Eb|].
  destruct (X9_equality_is_equality_of_keys a b) as (e & He & _ & Hk & Hh).
  assert (T : e = true)
    by (vm_compute in Ea, Eb; inversion Ea; inversion Eb; subst a b;
        vm_compute in He; congruence).
  split; [apply Hk, T | apply Hh, T].
Defined.

Lemma rank_le_lt_eq a b :
  rank_eq a b = false ->
  rank_richcmp Py_LE a b
  = (do l <- rank_richcmp Py_LT a b; do e <- rank_richcmp Py_EQ a b; Ok (l || e)).
Proof.
  destruct a as [x| | |s], b as [y| | |t]; simpl; try reflexivity; try discriminate.
  - intro H. apply N.eqb_neq in H.
    destruct (x ?= y)%N eqn:C; [apply N.compare_eq in C; congruence | |]; reflexivity.
  - intro H. apply String.eqb_neq in H.
    destruct (String.compare s t) eqn:C;
      [apply String.compare_eq_iff in C; congruence | |]; reflexivity.
Qed.

(** X10. The six comparison operators are consistent with one another, also
    in what they raise: [>] and [>=] are [<] and [<=] with the operands
    exchanged, [>=] is the negation of [<], [>] the negation of [<=], and
    [<=] holds when [<] or [==] does. *)
Theorem X10_comparison_operators_are_consistent (a b : Version) :
  __gt__ a b = __lt__ b a /\ __ge__ a b = __le__ b a /\
  __ge__ a b = negated (__lt__ a b) /\ __gt__ a b = negated (__le__ a b) /\
  __le__ a b = (do l <- __lt__ a b; do e <- __eq__ a b; Ok (l || e)).
Proof.
  unfold __gt__, __lt__, __ge__, __le__, __eq__, _compare.
  split; [apply (key_richcmp_flip Py_LT)|].
  split; [apply (key_richcmp_flip Py_LE)|].
  split; [apply (key_richcmp_complement Py_LT)|].
  split; [apply (key_richcmp_complement Py_LE)|].
  unfold key_richcmp.
  repeat match goal with
         | |- context [if negb ?b then _ else _] =>
             let E := fresh "E" in destruct b eqn:E; simpl negb; cbv iota
         end;
    try (apply rank_le_lt_eq; assumption);
    try (match goal with |- context [cmp_result _ ?c] => destruct c end; reflexivity).
Qed.

Lemma cmpkey_ranks e r p po d l k :
  _cmpkey e r p po d l = Ok k ->
  key_pre k = rank_absent_last p /\ key_post k = rank_absent_first po /\
  key_dev k = rank_absent_last d.
Proof.
  unfold _cmpkey. intro H. bind_inv H. inversion H; subst; auto.
Qed.

Lemma parsed_ranks raw v :
  parsed raw v ->
  key_pre (_key v) = rank_absent_last (pre (_version v)) /\
  key_post (_key v) = rank_absent_first (post (_version v)) /\
  key_dev (_key v) = rank_absent_last (dev (_version v)).
Proof. intro P. now apply parsed_key, cmpkey_ranks in P. Qed.

Lemma rank_compare_numeric a b :
  rank_numeric a = true -> rank_numeric b = true ->
  exists c, rank_compare a b = Ok c.
Proof. destruct a, b; simpl; try discriminate; eauto. Qed.

Lemma rank_richcmp_raise op a b e :
  rank_richcmp op a b = Raise e ->
  e = TypeError /\ rank_numeric a = negb (rank_numeric b) /\
  op <> Py_EQ /\ op <> Py_NE.
Proof.
  destruct op, a, b; simpl; intro H; inversion H; repeat split; congruence.
Qed.

Lemma rank_richcmp_mixed op a b :
  op <> Py_EQ -> op <> Py_NE -> rank_numeric a = negb (rank_numeric b) ->
  rank_richcmp op a b = Raise TypeError.
Proof.
  destruct op, a, b; simpl; intros; try congruence; discriminate.
Qed.

Lemma rank_mixed_neq a b :
  rank_numeric a = negb (rank_numeric b) -> rank_eq a b = false.
Proof. destruct a, b; simpl; intros; try reflexivity; discriminate. Qed.

(** X11. An ordering comparison of two parsed versions raises nothing but
    [TypeError], and raises it exactly when the two keys agree up to the dev
    rank and exactly one of the two local ranks is a string. *)
Theorem X11_ordering_raises_on_mixed_local_ranks raw1 raw2 a b op :
  parsed raw1 a -> parsed raw2 b -> op <> Py_EQ -> op <> Py_NE ->
  (_compare a b (key_richcmp op) = Raise TypeError <->
   key_epoch (_key a) = key_epoch (_key b) /\
   key_release (_key a) = key_release (_key b) /\
   key_pre (_key a) = key_pre (_key b) /\
   key_post (_key a) = key_post (_key b) /\
   key_dev (_key a) = key_dev (_key b) /\
   rank_numeric (key_local (_key a)) = negb (rank_numeric (key_local (_key b)))) /\
  (forall e, _compare a b (key_richcmp op) = Raise e -> e = TypeError).
Proof.
  intros Pa Pb O1 O2.
  destruct (cmpkey_numeric _ _ _ _ _ _ _ (parsed_key _ _ Pa)) as (A1 & A2 & A3).
  destruct (cmpkey_numeric _ _ _ _ _ _ _ (parsed_key _ _ Pb)) as (B1 & B2 & B3).
  assert (N : forall x y, rank_numeric x = true -> rank_numeric y = true ->
                          forall e, rank_richcmp op x y <> Raise e).
  { intros x y Hx Hy e H. apply rank_richcmp_raise in H.
    destruct H as (_ & H & _). rewrite Hx, Hy in H. discriminate. }
  unfold _compare, key_richcmp.
  destruct (N.eqb_spec (key_epoch (_key a)) (key_epoch (_key b))) as [E|E]; simpl negb; cbv iota.
  2:{ split; [split; [discriminate | tauto] | discriminate]. }
  destruct (tuple_compare (key_release (_key a)) (key_release (_key b))) eqn:R;
    simpl negb; cbv iota.
  2,3: split; [split; [discriminate|] | discriminate];
       intros (_ & H & _); rewrite H, tuple_compare_refl in R; discriminate.
  apply tuple_compare_eq in R.
  destruct (rank_eq (key_pre (_key a)) (key_pre (_key b))) eqn:P; simpl negb; cbv iota.
  2:{ split; [split|]; [intro H; exfalso; now apply (N _ _ A1 B1) in H
                       | intros (_ & _ & H & _); rewrite H, rank_eq_refl in P; discriminate
                       | intros e H; exfalso; now apply (N _ _ A1 B1) in H]. }
  apply rank_eq_eq in P.
  destruct (rank_eq (key_post (_key a)) (key_post (_key b))) eqn:Q; simpl negb; cbv iota.
  2:{ split; [split|]; [intro H; exfalso; now apply (N _ _ A2 B2) in H
                       | intros (_ & _ & _ & H & _); rewrite H, rank_eq_refl in Q; discriminate
                       | intros e H; exfalso; now apply (N _ _ A2 B2) in H]. }
  apply rank_eq_eq in Q.
  destruct (rank_eq (key_dev (_key a)) (key_dev (_key b))) eqn:D; simpl negb; cbv iota.
  2:{ split; [split|]; [intro H; exfalso; now apply (N _ _ A3 B3) in H
                       | intros (_ & _ & _ & _ & H & _); rewrite H, rank_eq_refl in D; discriminate
                       | intros e H; exfalso; now apply (N _ _ A3 B3) in H]. }
  apply rank_eq_eq in D.
  destruct (rank_eq (key_local (_key a)) (key_local (_key b))) eqn:L; simpl negb; cbv iota.
  - split; [split; [discriminate|] | discriminate].
    intros (_ & _ & _ & _ & _ & H). apply rank_mixed_neq in H. congruence.
  - split; [split|].
    + intro H. apply rank_richcmp_raise in H. tauto.
    + intros (_ & _ & _ & _ & _ & H). now apply rank_richcmp_mixed.
    + intros e H. apply rank_richcmp_raise in H. tauto.
Qed.

Lemma X11_witness :
  exists a b,
    parsed "1.0+ubuntu.x" a /\ parsed "1.0+ubuntu.1" b /\
    __lt__ a b = Raise TypeError.
Proof.
  destruct (__init__ "1.0+ubuntu.x") as [a|] eqn:Ea; [|vm_compute in Ea; discriminate].
  destruct (__init__ "1.0+ubuntu.1") as [b|] eqn:Eb; [|vm_compute in Eb; discriminate].
  exists a, b. split; [exact Ea|]. split; [exact Eb|].
  apply (proj1 (X11_ordering_raises_on_mixed_local_ranks _ _ a b Py_LT Ea Eb
                  ltac:(discriminate) ltac:(discriminate))).
  vm_compute in Ea, Eb; inversion Ea; inversion Eb; repeat split.
Defined.

(** X12. The epoch decides first and the release sequence second: when two
    parsed versions differ in one of them, every comparison operator returns
    the result of that difference and none raises, whatever the other
    segments are. *)
Theorem X12_epoch_then_release_decide raw1 raw2 a b op :
  parsed raw1 a -> parsed raw2 b ->
  (Version_epoch a <> Version_epoch b ->
   _compare a b (key_richcmp op)
   = Ok (cmp_result op (Version_epoch a ?= Version_epoch b)%N)) /\
  (Version_epoch a = Version_epoch b -> Version_release a <> Version_release b ->
   _compare a b (key_richcmp op)
   = Ok (cmp_result op (tuple_compare (Version_release a) (Version_release b)))).
Proof.
  intros Pa Pb.
  destruct (parsed_key_release _ _ Pa) as [Ea Ra].
  destruct (parsed_key_release _ _ Pb) as [Eb Rb].
  unfold _compare, key_richcmp. rewrite Ea, Eb, Ra, Rb. split.
  - intro H. apply N.eqb_neq in H. now rewrite H.
  - intros -> H. rewrite N.eqb_refl. simpl.
    destruct (tuple_compare (Version_release a) (Version_release b)) eqn:C;
      [apply tuple_compare_eq in C; congruence | reflexivity | reflexivity].
Qed.

Lemma X12_witness :
  exists a b,
    parsed "1!0.1+x.y" a /\ parsed "2019.10" b /\ __gt__ a b = Ok true.
Proof.
  destruct (__init__ "1!0.1+x.y") as [a|] eqn:Ea; [|vm_compute in Ea; discriminate].
  destruct (__init__ "2019.10") as [b|] eqn:Eb; [|vm_compute in Eb; discriminate].
  exists a, b. split; [exact Ea|]. split; [exact Eb|].
  unfold __gt__.
  rewrite (proj1 (X12_epoch_then_release_decide _ _ a b Py_GT Ea Eb));
    vm_compute in Ea, Eb; inversion Ea; inversion Eb; [reflexivity | discriminate].
Defined.

Lemma rank_last_snd (p q : option (string * N)) :
  option_map snd p = option_map snd q -> rank_absent_last p = rank_absent_last q.
Proof. destruct p, q; simpl; congruence. Qed.

Lemma rank_first_snd (p q : option (string * N)) :
  match p with Some x => Some (snd x) | None => None end
  = match q with Some x => Some (snd x) | None => None end ->
  rank_absent_first p = rank_absent_first q.
Proof. destruct p, q; simpl; congruence. Qed.

(** X13. Among parsed versions of one epoch and one release sequence:
    a version with a pre-release segment sorts before every version without
    one; with equal pre-release numbers, a version without a post segment
    sorts before every version with one; with equal pre-release and post
    numbers, a version with a dev segment sorts before every version
    without one. *)
Theorem X13_order_of_the_optional_segments raw1 raw2 a b :
  parsed raw1 a -> parsed raw2 b ->
  Version_epoch a = Version_epoch b -> Version_release a = Version_release b ->
  (Version_pre a <> None -> Version_pre b = None -> __lt__ a b = Ok true) /\
  (option_map snd (Version_pre a) = option_map snd (Version_pre b) ->
   Version_post a = None -> Version_post b <> None -> __lt__ a b = Ok true) /\
  (option_map snd (Version_pre a) = option_map snd (Version_pre b) ->
   Version_post a = Version_post b ->
   Version_dev a <> None -> Version_dev b = None -> __lt__ a b = Ok true).
Proof.
  intros Pa Pb He Hr.
  destruct (parsed_key_release _ _ Pa) as [Ea Ra].
  destruct (parsed_key_release _ _ Pb) as [Eb Rb].
  destruct (parsed_ranks _ _ Pa) as (A1 & A2 & A3).
  destruct (parsed_ranks _ _ Pb) as (B1 & B2 & B3).
  unfold __lt__, _compare, key_richcmp.
  rewrite Ea, Eb, Ra, Rb, He, Hr, N.eqb_refl, tuple_compare_refl, A1, A2, A3, B1, B2, B3.
  simpl negb. cbv iota.
  unfold Version_pre, Version_post, Version_dev. split; [|split].
  - intros Ha Hb. rewrite Hb.
    destruct (pre (_version a)) as [[ta na]|]; [reflexivity | congruence].
  - intros Hp Ha Hb. rewrite (rank_last_snd _ _ Hp), rank_eq_refl. simpl negb. cbv iota.
    destruct (post (_version a)) as [[sa ma]|]; [discriminate|].
    destruct (post (_version b)) as [[sb mb]|]; [reflexivity | congruence].
  - intros Hp Hq Ha Hb.
    rewrite (rank_last_snd _ _ Hp), (rank_first_snd _ _ Hq), !rank_eq_refl.
    simpl negb. cbv iota.
    destruct (dev (_version b)) as [[ub kb]|]; [congruence|].
    destruct (dev (_version a)) as [[ua ka]|]; [reflexivity | congruence].
Qed.

Lemma X13_witness :
  exists a b,
    parsed "1.0rc1" a /\ parsed "1.0.dev3" b /\ __lt__ a b = Ok true.
Proof.
  destruct (__init__ "1.0rc1") as [a|] eqn:Ea; [|vm_compute in Ea; discriminate].
  destruct (__init__ "1.0.dev3") as [b|] eqn:Eb; [|vm_compute in Eb; discriminate].
  exists a, b. split; [exact Ea|]. split; [exact Eb|].
  apply (proj1 (X13_order_of_the_optional_segments _ _ a b Ea Eb
                  ltac:(vm_compute in Ea, Eb; inversion Ea; inversion Eb; reflexivity)
                  ltac:(vm_compute in Ea, Eb; inversion Ea; inversion Eb; reflexivity)));
    vm_compute in Ea, Eb; inversion Ea; inversion Eb; [discriminate | reflexivity].
Defined.

(** ** The sort and the update check *)

Lemma insert_sorted_perm x l : forall r,
  insert_sorted x l = Ok r -> Permutation (x :: l) r.
Proof.
  induction l as [|y l IH]; simpl; intros r H.
  - inversion H. apply Permutation_refl.
  - bind_inv H. destruct x0.
    + inversion H. apply Permutation_refl.
    + bind_inv H. inversion H; subst.
      eapply perm_trans; [apply perm_swap|]. apply perm_skip. now apply IH.
Qed.

Lemma sorted_from_perm l : forall acc r,
  sorted_from acc l = Ok r -> Permutation (acc ++ l)%list r.
Proof.
  induction l as [|x l IH]; simpl; intros acc r H.
  - inversion H. rewrite app_nil_r. apply Permutation_refl.
  - bind_inv H. apply IH in H. apply insert_sorted_perm in E.
    eapply perm_trans; [|exact H].
    eapply perm_trans; [apply Permutation_sym, Permutation_middle|].
    change (x :: acc ++ l)%list with ((x :: acc) ++ l)%list. now apply Permutation_app_tail.
Qed.

Lemma sorted_perm l r : sorted l = Ok r -> Permutation l r.
Proof. intro H. now apply sorted_from_perm in H. Qed.

Lemma mapM_In {A B} (f : A -> result B) l : forall r y,
  mapM f l = Ok r -> In y r -> exists x, In x l /\ f x = Ok y.
Proof.
  induction l as [|x l IH]; simpl; intros r y H Hy.
  - inversion H; subst. contradiction.
  - bind_inv H. bind_inv H. inversion H; subst. destruct Hy as [<-|Hy].
    + eauto.
    + destruct (IH _ _ E0 Hy) as (z & Hz & Ez). eauto.
Qed.

Lemma mapM_In_fwd {A B} (f : A -> result B) l : forall r x y,
  mapM f l = Ok r -> In x l -> f x = Ok y -> In y r.
Proof.
  induction l as [|z l IH]; simpl; intros r x y H Hx Hy; [contradiction|].
  bind_inv H. bind_inv H. inversion H; subst. destruct Hx as [->|Hx].
  - left. congruence.
  - right. eapply IH; eauto.
Qed.

Lemma mapM_total {A B} (f : A -> result B) l :
  Forall (fun x => exists y, f x = Ok y) l -> exists r, mapM f l = Ok r.
Proof.
  induction 1 as [|x l (y & Hy) _ (r & Hr)]; simpl; [eauto|].
  rewrite Hy, Hr. simpl. eauto.
Qed.

Lemma last_item_In l x : last_item l = Ok x -> exists p, l = (p ++ [x])%list.
Proof.
  unfold last_item. destruct (List.rev l) as [|y t] eqn:E; [discriminate|].
  intro H. inversion H; subst. exists (List.rev t).
  rewrite <- (rev_involutive l), E. reflexivity.
Qed.

Lemma last_item_nil l e : last_item l = Raise e -> l = [].
Proof.
  unfold last_item. destruct (List.rev l) as [|y t] eqn:E; [|discriminate].
  intros _. rewrite <- (rev_involutive l), E. reflexivity.
Qed.

Lemma is_dev_pre v : is_prerelease v = false -> is_devrelease v = false.
Proof.
  unfold is_prerelease, is_devrelease. now destruct (is_some (Version_dev v)).
Qed.

Lemma eligible_pre cur r :
  eligible cur r = true <-> (is_prerelease cur = false -> is_prerelease r = false).
Proof.
  unfold eligible.
  destruct (is_prerelease cur) eqn:C.
  - rewrite andb_false_r. split; [discriminate | reflexivity].
  - rewrite (is_dev_pre _ C). simpl.
    destruct (is_prerelease r) eqn:R.
    + rewrite andb_false_r. split; [discriminate | intro H; symmetry; now apply H].
    + rewrite (is_dev_pre _ R). tauto.
Qed.

Lemma filter_eligible cur l :
  (if negb (is_devrelease cur) && negb (is_prerelease cur)
   then filter (fun r => negb (is_devrelease r) && negb (is_prerelease r)) l
   else l) = filter (eligible cur) l.
Proof.
  unfold eligible.
  destruct (negb (is_devrelease cur) && negb (is_prerelease cur)); [reflexivity|].
  induction l as [|x l IH]; simpl; [reflexivity | now rewrite <- IH].
Qed.

Lemma check_body_Some response current s npu :
  check_body response current = Ok (Some (s, npu)) ->
  exists candidates raw v cur,
    response = Ok candidates /\ In raw candidates /\ parsed raw v /\
    parsed current cur /\ s = __str__ v /\ __ge__ cur v = Ok false /\
    eligible cur v = true /\
    npu = negb (tuple_eqb (firstn 2 (Version_release v))
                          (firstn 2 (Version_release cur))).
Proof.
  unfold check_body. intro H.
  bind_inv H. rename x into candidates.
  bind_inv H. rename x into releases.
  bind_inv H. rename x into latest_version.
  bind_inv H. rename x into cur.
  rewrite filter_eligible in H.
  bind_inv H. rename x into latest.
  bind_inv H. destruct x; [discriminate|]. inversion H; subst.
  destruct (last_item_In _ _ E3) as (p & Hp).
  assert (I : In latest (filter (eligible cur) latest_version))
    by (rewrite Hp; apply in_or_app; right; left; reflexivity).
  apply filter_In in I. destruct I as [I El].
  apply (Permutation_in _ (Permutation_sym (sorted_perm _ _ E1))) in I.
  destruct (mapM_In _ _ _ _ E0 I) as (raw & Hraw & Praw).
  exists candidates, raw, latest, cur. repeat split; assumption.
Qed.

Lemma check_available_Some only_once checked response current p checked' :
  check_new_package_available only_once checked response current = (Some p, checked') ->
  only_once && checked = false /\ checked' = true /\
  check_body response current = Ok (Some p).
Proof.
  unfold check_new_package_available.
  destruct (only_once && checked); [discriminate|].
  destruct (check_body response current) as [r|e]; [|discriminate].
  intro H. inversion H; subst. auto.
Qed.

(** X14. When the update check returns a pair, its first component is the
    canonical string of the version parsed from one of the candidates; that
    version is one the current version is not [>=] to, and it is no
    pre-release or dev release when the current version is neither; the second
    component tells whether the first two release components differ from
    those of the current version; the class attribute is set. *)
Theorem X14_reported_version_is_a_newer_candidate
        only_once checked response current s npu checked' :
  check_new_package_available only_once checked response current
  = (Some (s, npu), checked') ->
  checked' = true /\
  exists candidates raw v cur,
    response = Ok candidates /\ In raw candidates /\ parsed raw v /\
    parsed current cur /\ s = __str__ v /\ __ge__ cur v = Ok false /\
    (is_prerelease cur = false -> is_prerelease v = false) /\
    npu = negb (tuple_eqb (firstn 2 (Version_release v))
                          (firstn 2 (Version_release cur))).
Proof.
  intro H. apply check_available_Some in H. destruct H as (_ & Hc & B).
  split; [exact Hc|].
  destruct (check_body_Some _ _ _ _ B)
    as (c & raw & v & cur & H1 & H2 & H3 & H4 & H5 & H6 & H7 & H8).
  exists c, raw, v, cur. rewrite eligible_pre in H7. repeat split; assumption.
Qed.

Lemma X14_witness :
  exists raw v cur,
    In raw ["0.9.0"; "0.10.1rc1"; "0.10.0"; "0.9.3"] /\ parsed raw v /\
    parsed "0.9.1" cur /\ "0.10.0" = __str__ v /\ is_prerelease v = false.
Proof.
  destruct (X14_reported_version_is_a_newer_candidate
              false false (Ok ["0.9.0"; "0.10.1rc1"; "0.10.0"; "0.9.3"]) "0.9.1"
              "0.10.0" true true ltac:(vm_compute; reflexivity))
    as (_ & c & raw & v & cur & H1 & H2 & H3 & H4 & H5 & _ & H7 & _).
  inversion H1; subst c.
  exists raw, v, cur. repeat split; try assumption.
  apply H7. vm_compute in H4. inversion H4. reflexivity.
Defined.

Lemma code_le_refl a : code_le a a.
Proof. unfold code_le. rewrite tuple_compare_refl. discriminate. Qed.

Lemma code_le_trans a b c : code_le a b -> code_le b c -> code_le a c.
Proof.
  unfold code_le. intros H1 H2.
  destruct (tuple_compare (key_code (_key a)) (key_code (_key b))) eqn:E1;
    [apply tuple_compare_eq in E1; now rewrite E1 | | congruence].
  destruct (tuple_compare (key_code (_key b)) (key_code (_key c))) eqn:E2;
    [apply tuple_compare_eq in E2; rewrite <- E2, E1; discriminate | | congruence].
  rewrite (tuple_compare_trans _ _ _ E1 E2). discriminate.
Qed.

Lemma lt_numeric a b :
  numeric a -> numeric b ->
  __lt__ a b = Ok (cmp_result Py_LT (tuple_compare (key_code (_key a)) (key_code (_key b)))).
Proof. intros. unfold __lt__, _compare. now apply key_richcmp_code. Qed.

Lemma ge_numeric a b :
  numeric a -> numeric b ->
  __ge__ a b = Ok (cmp_result Py_GE (tuple_compare (key_code (_key a)) (key_code (_key b)))).
Proof. intros. unfold __ge__, _compare. now apply key_richcmp_code. Qed.

Lemma le_numeric a b :
  numeric a -> numeric b -> code_le a b -> __le__ a b = Ok true.
Proof.
  intros Na Nb H. unfold __le__, _compare. rewrite key_richcmp_code by assumption.
  unfold code_le in H.
  destruct (tuple_compare (key_code (_key a)) (key_code (_key b))); [reflexivity..|congruence].
Qed.

Lemma insert_sorted_numeric x l :
  numeric x -> Forall numeric l -> StronglySorted code_le l ->
  exists r, insert_sorted x l = Ok r /\ StronglySorted code_le r.
Proof.
  intros Nx Nl S. induction S as [|y l S IH Hy]; cbn [insert_sorted].
  - eexists. split; [reflexivity|]. repeat constructor.
  - inversion Nl as [|? ? Ny Nl']; subst.
    rewrite (lt_numeric _ _ Nx Ny). cbn [bind].
    destruct (tuple_compare (key_code (_key x)) (key_code (_key y))) eqn:C; cbn [cmp_result].
    + destruct (IH Nl') as (r & Hr & Sr). rewrite Hr. cbn [bind].
      eexists. split; [reflexivity|]. constructor; [assumption|].
      apply insert_sorted_perm in Hr.
      rewrite Forall_forall in *. intros z Hz.
      apply (Permutation_in _ (Permutation_sym Hr)) in Hz. destruct Hz as [<-|Hz].
      * unfold code_le. rewrite tuple_compare_antisym, C. discriminate.
      * now apply Hy.
    + eexists. split; [reflexivity|]. constructor; [now constructor|].
      assert (L : code_le x y) by (unfold code_le; rewrite C; discriminate).
      constructor; [assumption|].
      rewrite Forall_forall in *. intros z Hz.
      eapply code_le_trans; [exact L | now apply Hy].
    + destruct (IH Nl') as (r & Hr & Sr). rewrite Hr. cbn [bind].
      eexists. split; [reflexivity|]. constructor; [assumption|].
      apply insert_sorted_perm in Hr.
      rewrite Forall_forall in *. intros z Hz.
      apply (Permutation_in _ (Permutation_sym Hr)) in Hz. destruct Hz as [<-|Hz].
      * unfold code_le. rewrite tuple_compare_antisym, C. discriminate.
      * now apply Hy.
Qed.

Lemma sorted_from_numeric l : forall acc,
  Forall numeric acc -> Forall numeric l -> StronglySorted code_le acc ->
  exists r, sorted_from acc l = Ok r /\ StronglySorted code_le r.
Proof.
  induction l as [|x l IH]; cbn [sorted_from]; intros acc Na Nl S.
  - eauto.
  - inversion Nl as [|? ? Nx Nl']; subst.
    destruct (insert_sorted_numeric x acc Nx Na S) as (r & Hr & Sr).
    rewrite Hr. cbn [bind]. apply IH; [|assumption..].
    apply insert_sorted_perm in Hr. rewrite Forall_forall in *.
    intros z Hz. apply (Permutation_in _ (Permutation_sym Hr)) in Hz.
    destruct Hz as [<-|Hz]; auto.
Qed.

Lemma sorted_numeric l :
  Forall numeric l ->
  exists r, sorted l = Ok r /\ StronglySorted code_le r /\ Permutation l r.
Proof.
  intro N. destruct (sorted_from_numeric l [] (Forall_nil _) N (SSorted_nil _))
    as (r & Hr & Sr).
  exists r. split; [exact Hr|]. split; [exact Sr | now apply sorted_perm].
Qed.

Lemma filter_sorted (f : Version -> bool) l :
  StronglySorted code_le l -> StronglySorted code_le (filter f l).
Proof.
  induction 1 as [|x l S IH Hx]; simpl; [constructor|].
  destruct (f x); [|assumption]. constructor; [assumption|].
  rewrite Forall_forall in *. intros z Hz. apply filter_In in Hz. now apply Hx.
Qed.

Lemma sorted_last p : forall x,
  StronglySorted code_le (p ++ [x])%list ->
  Forall (fun y => code_le y x) (p ++ [x])%list.
Proof.
  induction p as [|y p IH]; simpl; intros x S.
  - constructor; [apply code_le_refl | constructor].
  - inversion S as [|? ? S' Hy]; subst. constructor; [|now apply IH].
    rewrite Forall_forall in Hy. apply Hy, in_or_app. right. left. reflexivity.
Qed.

Lemma check_body_numeric candidates current releases cur :
  mapM __init__ candidates = Ok releases -> Forall numeric releases ->
  parsed current cur -> numeric cur ->
  match check_body (Ok candidates) current with
  | Ok (Some (s, npu)) =>
      exists v, In v releases /\ eligible cur v = true /\ s = __str__ v /\
                __lt__ cur v = Ok true /\
                forall v', In v' releases -> eligible cur v' = true ->
                           __le__ v' v = Ok true
  | Ok None =>
      exists v, In v releases /\ eligible cur v = true /\
                forall v', In v' releases -> eligible cur v' = true ->
                           __le__ v' cur = Ok true
  | Raise e =>
      e = IndexError /\ forall v', In v' releases -> eligible cur v' = false
  end.
Proof.
  intros M N P Nc. unfold check_body. cbn [bind]. rewrite M. cbn [bind].
  destruct (sorted_numeric releases N) as (r & Hr & Sr & Pr). rewrite Hr. cbn [bind].
  unfold parsed in P. rewrite P. cbn [bind]. rewrite filter_eligible.
  destruct (last_item (filter (eligible cur) r)) as [latest|e] eqn:L; cbn [bind].
  - destruct (last_item_In _ _ L) as (p & Hp).
    pose proof (filter_sorted (eligible cur) r Sr) as Sf. rewrite Hp in Sf.
    apply sorted_last in Sf. rewrite <- Hp in Sf. rewrite Forall_forall in Sf.
    assert (I : In latest (filter (eligible cur) r))
      by (rewrite Hp; apply in_or_app; right; left; reflexivity).
    apply filter_In in I. destruct I as [I El].
    apply (Permutation_in _ (Permutation_sym Pr)) in I.
    assert (Nl : numeric latest) by (rewrite Forall_forall in N; now apply N).
    assert (Mx : forall v', In v' releases -> eligible cur v' = true -> code_le v' latest).
    { intros v' Hv' Ev'. apply Sf, filter_In. split; [|assumption].
      now apply (Permutation_in _ Pr). }
    rewrite (ge_numeric _ _ Nc Nl).
    destruct (tuple_compare (key_code (_key cur)) (key_code (_key latest))) eqn:C;
      cbn [cmp_result bind].
    + exists latest. repeat split; try assumption. intros v' Hv' Ev'.
      rewrite Forall_forall in N. apply le_numeric; [now apply N | assumption |].
      eapply code_le_trans; [now apply Mx|].
      unfold code_le. rewrite tuple_compare_antisym, C. discriminate.
    + exists latest. repeat split; try assumption.
      * rewrite (lt_numeric _ _ Nc Nl), C. reflexivity.
      * intros v' Hv' Ev'. rewrite Forall_forall in N.
        apply le_numeric; [now apply N | assumption | now apply Mx].
    + exists latest. repeat split; try assumption. intros v' Hv' Ev'.
      rewrite Forall_forall in N. apply le_numeric; [now apply N | assumption |].
      eapply code_le_trans; [now apply Mx|].
      unfold code_le. rewrite tuple_compare_antisym, C. discriminate.
  - unfold last_item in L.
    destruct (List.rev (filter (eligible cur) r)) as [|y t] eqn:R; [|discriminate].
    inversion L; subst. split; [reflexivity|]. intros v' Hv'.
    destruct (eligible cur v') eqn:Ev'; [|reflexivity]. exfalso.
    assert (I : In v' (filter (eligible cur) r))
      by (apply filter_In; split; [now apply (Permutation_in _ Pr) | assumption]).
    rewrite <- (rev_involutive (filter (eligible cur) r)), R in I. exact I.
Qed.

Lemma parsed_all_numeric candidates :
  Forall (fun raw => exists v, parsed raw v /\
                               rank_numeric (key_local (_key v)) = true) candidates ->
  exists releases, mapM __init__ candidates = Ok releases /\ Forall numeric releases.
Proof.
  induction 1 as [|raw l (v & P & L) _ (r & Hr & Nr)]; cbn [mapM].
  - exists []. split; [reflexivity | constructor].
  - unfold parsed in P. rewrite P, Hr. cbn [bind]. eexists. split; [reflexivity|].
    constructor; [|assumption]. now apply (parsed_numeric raw).
Qed.

(** X15. When the current version and all candidates parse and none of them
    has a string as its local rank, the check is decided by the order: it
    reports the canonical string of a candidate that is newer than the
    current version and that no kept candidate exceeds, and it reports
    nothing exactly when no kept candidate is newer than the current version.
    The kept candidates are all of them for a pre-release or dev release as
    current version, and the ones that are neither otherwise. *)
Theorem X15_check_reports_the_greatest_newer_candidate
        only_once checked candidates current cur :
  only_once && checked = false ->
  Forall (fun raw => exists v, parsed raw v /\
                               rank_numeric (key_local (_key v)) = true) candidates ->
  parsed current cur -> rank_numeric (key_local (_key cur)) = true ->
  match fst (check_new_package_available only_once checked (Ok candidates) current) with
  | Some (s, npu) =>
      exists raw v,
        In raw candidates /\ parsed raw v /\ s = __str__ v /\
        (is_prerelease cur = false -> is_prerelease v = false) /\
        __lt__ cur v = Ok true /\
        forall raw' v',
          In raw' candidates -> parsed raw' v' ->
          (is_prerelease cur = false -> is_prerelease v' = false) ->
          __le__ v' v = Ok true
  | None =>
      forall raw' v',
        In raw' candidates -> parsed raw' v' ->
        (is_prerelease cur = false -> is_prerelease v' = false) ->
        __le__ v' cur = Ok true
  end.
Proof.
  intros Honce Hc Pc Lc.
  destruct (parsed_all_numeric _ Hc) as (releases & M & N).
  pose proof (check_body_numeric candidates current releases cur M N Pc
                (parsed_numeric _ _ Pc Lc)) as B.
  unfold check_new_package_available. rewrite Honce.
  destruct (check_body (Ok candidates) current) as [[[s npu]|]|e]; cbn [fst].
  - destruct B as (v & Hv & Ev & Hs & Hlt & Hmax).
    destruct (mapM_In _ _ _ _ M Hv) as (raw & Hraw & Praw).
    exists raw, v. repeat split; try assumption.
    + now apply eligible_pre.
    + intros raw' v' Hr' Pr' Er'. apply Hmax.
      * eapply mapM_In_fwd; eauto.
      * now apply eligible_pre.
  - destruct B as (v & Hv & Ev & Hmax). intros raw' v' Hr' Pr' Er'. apply Hmax.
    + eapply mapM_In_fwd; eauto.
    + now apply eligible_pre.
  - destruct B as (_ & Hnone). intros raw' v' Hr' Pr' Er'.
    assert (I : In v' releases) by (eapply mapM_In_fwd; eauto).
    apply Hnone in I. apply eligible_pre in Er'. congruence.
Qed.

Lemma X15_witness :
  exists raw v cur,
    In raw ["0.9.0"; "0.10.1rc1"; "0.10.0"; "0.9.3"] /\ parsed raw v /\
    parsed "0.9.1" cur /\ "0.10.0" = __str__ v /\ __lt__ cur v = Ok true.
Proof.
  destruct (__init__ "0.9.1") as [cur|] eqn:Ec; [|vm_compute in Ec; discriminate].
  pose proof (X15_check_reports_the_greatest_newer_candidate
                false false ["0.9.0"; "0.10.1rc1"; "0.10.0"; "0.9.3"] "0.9.1" cur
                eq_refl) as H.
  assert (F : Forall (fun raw => exists v, parsed raw v /\
                                 rank_numeric (key_local (_key v)) = true)
                     ["0.9.0"; "0.10.1rc1"; "0.10.0"; "0.9.3"]).
  { repeat constructor; eexists; (split; [vm_compute; reflexivity | reflexivity]). }
  specialize (H F Ec).
  assert (L : rank_numeric (key_local (_key cur)) = true)
    by (vm_compute in Ec; inversion Ec; reflexivity).
  specialize (H L).
  assert (R : check_new_package_available false false
                (Ok ["0.9.0"; "0.10.1rc1"; "0.10.0"; "0.9.3"]) "0.9.1"
              = (Some ("0.10.0", true), true)) by (vm_compute; reflexivity).
  rewrite R in H. cbn [fst] in H.
  destruct H as (raw & v & H1 & H2 & H3 & _ & H5 & _).
  exists raw, v, cur. repeat split; assumption.
Defined.

Lemma checked_after only_once checked response current :
  snd (check_new_package_available only_once checked response current) = true \/
  only_once && checked = true.
Proof.
  unfold check_new_package_available.
  destruct (only_once && checked); [now right | left].
  destruct (check_body response current); reflexivity.
Qed.

(** X16. Calls of the caller one after the other: a call that starts when
    an earlier call has returned reads the class attribute that the earlier
    call left, and prints nothing, whatever the earlier call did (printed,
    found nothing newer, or failed). Calls that overlap are not covered: the
    source runs each call on a thread of its own and tests the attribute
    before it sets it, without a lock. A message that is printed names the
    canonical string of a candidate that the current version is not [>=] to,
    and it is the package message exactly when the first two release
    components of that candidate and of the current version agree. *)
Theorem X16_call_after_a_finished_call_prints_nothing checked response current :
  (forall response' current',
     fst (check_package_update
            (snd (check_package_update checked response current))
            response' current') = None) /\
  (forall msg checked',
     check_package_update checked response current = (Some msg, checked') ->
     checked = false /\ checked' = true /\
     exists candidates raw v cur,
       response = Ok candidates /\ In raw candidates /\ parsed raw v /\
       parsed current cur /\ __ge__ cur v = Ok false /\
       msg = (if tuple_eqb (firstn 2 (Version_release v))
                           (firstn 2 (Version_release cur))
              then "TRAINS new package available: UPGRADE to v"
              else "TRAINS-SERVER new version available: upgrade to v")
             ++ __str__ v ++ " is recommended!").
Proof.
  split.
  - intros response' current'. unfold check_package_update.
    destruct (check_new_package_available true checked response current)
      as [r f] eqn:E. cbn [snd].
    assert (F : f = true).
    { pose proof (checked_after true checked response current) as H.
      rewrite E in H. cbn [snd] in H. destruct H as [H|H]; [exact H|].
      unfold check_new_package_available in E. rewrite H in E.
      inversion E; subst. exact H. }
    subst f. reflexivity.
  - intros msg checked'. unfold check_package_update.
    destruct (check_new_package_available true checked response current)
      as [[[s npu]|] f] eqn:E; [|discriminate].
    intro H.
    apply check_available_Some in E. destruct E as (C & F & B). cbn [andb] in C.
    destruct (check_body_Some _ _ _ _ B)
      as (c & raw & v & cur & H1 & H2 & H3 & H4 & H5 & H6 & _ & H8).
    split; [exact C|]. split; [congruence|].
    exists c, raw, v, cur. repeat split; try assumption.
    subst s npu. rewrite negb_involutive in H.
    destruct (tuple_eqb _ _); congruence.
Qed.

Lemma X16_witness :
  exists raw v cur,
    In raw ["0.9.0"; "0.9.3"] /\ parsed raw v /\ parsed "0.9.1" cur /\
    __ge__ cur v = Ok false.
Proof.
  assert (R : check_package_update false (Ok ["0.9.0"; "0.9.3"]) "0.9.1"
              = (Some "TRAINS new package available: UPGRADE to v0.9.3 is recommended!",
                 true)) by (vm_compute; reflexivity).
  destruct (proj2 (X16_call_after_a_finished_call_prints_nothing false (Ok ["0.9.0"; "0.9.3"]) "0.9.1")
              _ _ R) as (_ & _ & c & raw & v & cur & H1 & H2 & H3 & H4 & H5 & _).
  inversion H1; subst c. exists raw, v, cur. repeat split; assumption.
Defined.

(** X18. The check is abandoned without a trace, with the class attribute
    set, when the request for the candidates fails, when there is no
    candidate at all, or when the current version does not parse. *)
Theorem X18_check_is_abandoned_silently only_once checked response current :
  only_once && checked = false ->
  (exists e, response = Raise e) \/ response = Ok [] \/ parseable current = false ->
  check_new_package_available only_once checked response current = (None, true).
Proof.
  intros Honce H. unfold check_new_package_available. rewrite Honce.
  unfold check_body. destruct H as [[e ->] | [-> | H]].
  - reflexivity.
  - cbn [bind mapM sorted sorted_from].
    destruct (__init__ current) as [cur|e]; cbn [bind]; [|reflexivity].
    destruct (negb (is_devrelease cur) && negb (is_prerelease cur)); reflexivity.
  - unfold parseable in H.
    destruct (__init__ current) as [cur|e]; [discriminate|].
    destruct response as [candidates|e0]; cbn [bind]; [|reflexivity].
    destruct (mapM __init__ candidates) as [releases|e1]; cbn [bind]; [|reflexivity].
    destruct (sorted releases) as [latest_version|e2]; reflexivity.
Qed.

Lemma X18_witness :
  check_new_package_available true false (Ok ["0.9.0"; "0.9.3"]) "0.9.1+local"
  = (None, true).
Proof.
  apply X18_check_is_abandoned_silently; [reflexivity|].
  right. right. vm_compute. reflexivity.
Defined.

(** ** A local segment that starts with zeros *)

Lemma uint_zero s : forall d,
  NilEmpty.uint_of_string s = Some d -> all_chars is_digit s = true ->
  (N.of_uint d = 0%N <-> all_chars is_zero s = true).
Proof.
  induction s as [|a s IH]; cbn [NilEmpty.uint_of_string all_chars]; intros d H D.
  - inversion H; subst. split; reflexivity.
  - apply andb_prop in D. destruct D as [Da Ds].
    destruct (NilEmpty.uint_of_string s) as [d'|] eqn:E;
      [|destruct a as [[] [] [] [] [] [] [] []]; discriminate].
    specialize (IH d' eq_refl Ds).
    destruct a as [[] [] [] [] [] [] [] []]; try discriminate Da;
      cbn in H; inversion H; subst; cbn [andb];
      try (change (is_zero _) with false; cbn [andb];
           split; [|discriminate]; unfold N.of_uint, Pos.of_uint;
           destruct (Pos.of_uint_acc d' _); discriminate).
    change (is_zero _) with true. cbn [andb]. exact IH.
Qed.

Lemma int_zero s n :
  isdigit s = true -> int s = Ok n ->
  (n = 0%N <-> all_chars is_zero s = true).
Proof.
  unfold isdigit, int, NilZero.uint_of_string. destruct s as [|a s]; [discriminate|].
  intros D H.
  destruct (NilEmpty.uint_of_string (String a s)) as [d|] eqn:E; [|discriminate].
  inversion H; subst. now apply uint_zero.
Qed.

Lemma zero_isdigit s : s <> "" -> all_chars is_zero s = true -> isdigit s = true.
Proof.
  intros Hne H. unfold isdigit. destruct s as [|a s]; [congruence|].
  revert H. generalize (String a s). intro t.
  induction t as [|b t IH]; simpl; [reflexivity|]. intro H.
  apply andb_prop in H. destruct H as [Hb Ht]. rewrite (IH Ht), andb_true_r.
  unfold is_zero in Hb. apply N.eqb_eq in Hb. unfold is_digit. now rewrite Hb.
Qed.

Lemma first_part_truthy f p :
  field_ok is_alnum f -> local_part_of f = Ok p ->
  (part_truthy p = false <-> all_chars is_zero f = true).
Proof.
  intros [Hne Hf]. unfold local_part_of. destruct (isdigit f) eqn:D; cbn [negb].
  - intro H. bind_inv H. inversion H; subst. cbn [part_truthy].
    rewrite <- (int_zero f x D E), negb_false_iff. apply N.eqb_eq.
  - intro H. inversion H; subst. cbn [part_truthy]. split.
    + intro T. apply negb_false_iff, String.eqb_eq in T.
      destruct f; [congruence | discriminate].
    + intro Z. rewrite (zero_isdigit f Hne Z) in D. discriminate.
Qed.

Lemma parsed_local raw m v :
  _regex_search raw = Some m -> parsed raw v ->
  _parse_local_version (Some (or_empty (group "local" m))) = Ok (local (_version v)).
Proof.
  intros S P. unfold parsed, __init__ in P. rewrite S in P.
  apply bind_Ok in P. destruct P as (e & _ & P).
  apply bind_Ok in P. destruct P as (r & _ & P).
  apply bind_Ok in P. destruct P as (p & _ & P).
  apply bind_Ok in P. destruct P as (po & _ & P).
  apply bind_Ok in P. destruct P as (d & _ & P).
  apply bind_Ok in P. destruct P as (loc & L & P).
  apply bind_Ok in P. destruct P as (k & _ & P).
  inversion P; subst. exact L.
Qed.

(** X17. A local segment whose first part is a run of zeros is dropped
    without a trace: the version that is built has no local segment, and it
    has one in every other case. *)
Theorem X17_local_segment_with_zero_first_part_is_dropped raw m l v :
  _regex_search raw = Some m -> group "local" m = Some l -> parsed raw v ->
  (local (_version v) = None <->
   all_chars is_zero (hd "" (split_on is_sep l)) = true).
Proof.
  intros S G P. pose proof (parsed_local _ _ _ S P) as L.
  rewrite G in L. cbn [or_empty] in L.
  destruct (group_local _ _ _ S G) as (f & fs & Hs & F).
  unfold _parse_local_version in L. rewrite Hs in L. rewrite Hs. cbn [hd].
  apply bind_Ok in L. destruct L as (parts & M & L).
  cbn [mapM] in M.
  apply bind_Ok in M. destruct M as (p & Hp & M).
  apply bind_Ok in M. destruct M as (ps & _ & M).
  inversion M; subst.
  inversion F as [|? ? Ff _]; subst.
  rewrite <- (first_part_truthy f p Ff Hp).
  destruct (part_truthy p); cbn [negb] in L; inversion L; split; congruence.
Qed.

Lemma X17_witness :
  exists v, parsed "1.0+000.ubuntu" v /\ local (_version v) = None /\ __str__ v = "1.0".
Proof.
  destruct (__init__ "1.0+000.ubuntu") as [v|] eqn:E; [|vm_compute in E; discriminate].
  destruct (_regex_search "1.0+000.ubuntu") as [m|] eqn:S; [|vm_compute in S; discriminate].
  exists v. split; [exact E|].
  assert (L : local (_version v) = None).
  { apply (X17_local_segment_with_zero_first_part_is_dropped _ m "000.ubuntu" v S);
      [vm_compute in S; inversion S; reflexivity | exact E | reflexivity]. }
  split; [exact L|]. vm_compute in E. inversion E. reflexivity.
Defined.
